(** * Space shooter: state machine, simulation step and power-up manager

    A shallow embedding of the game core of [src/game.js] (the version with
    the power-up system, lines 1-4482) and the properties of its
    specification that can be settled on it.

    Conventions of the embedding.
    - JavaScript numbers that hold pixel coordinates, speeds and the time-slow
      multiplier are exact rationals ([Q]); counters (score, lives, health,
      damage) and millisecond timestamps are integers ([Z]).  Addition,
      subtraction, multiplication and division are exact; the transcendental
      builtins [Math.sqrt], [Math.sin] and [Math.cos] are parameters.
    - [Math.random()] and [Date.now()] are inputs of the functions that call
      them, and so are the pickups a frame collects: the pickups on screen
      and the particles are not part of the state.
    - A [try { ... } catch] that logs and returns is written as the value
      returned on the failing path; [console] output is not modelled, except
      for the activation log of the power-up manager, kept as a trace.
    - Cosmetic particles and DOM updates are left out: no modelled function
      reads them. *)

From stdpp Require Import base gmap strings.
From Stdlib Require Import ZArith QArith Qround List Bool Lia Lqa.
Import ListNotations.

#[local] Open Scope string_scope.
#[local] Open Scope Z_scope.

(** ** JavaScript values used as booleans *)

(** [!name] for a string: only the empty string is falsy. *)
Definition string_truthy (s : string) : bool := negb (String.eqb s "").

(** [a < b] on rationals as a boolean. *)
Definition Qltb (a b : Q) : bool := negb (Qle_bool b a).

(** ** GAME_CONFIG (game.js, 36-47) *)

Module GAME_CONFIG.
Definition CANVAS_WIDTH : Q := 800%Q.
Definition CANVAS_HEIGHT : Q := 600%Q.
Definition PLAYER_SPEED : Q := 5%Q.
Definition BULLET_SPEED : Q := 7%Q.
Definition INITIAL_ENEMY_SPAWN_RATE : Z := 2000.
Definition MIN_ENEMY_SPAWN_RATE : Z := 800.
Definition SPAWN_RATE_DECREASE : Z := 10.
Definition SHOOT_COOLDOWN : Q := 200%Q.
End GAME_CONFIG.

(** ** The state machine (game.js, 127-274) *)

(** The class [State] and the five classes that extend it. *)
Inductive StateClass : Set :=
| BaseState | IntroState | CharacterSelectState | GameState | PauseState
| GameOverState.

(** The value passed as [state] to [addState]: [undefined]/[null], an
    instance of one of the state classes (with its object identity), or an
    object that is not derived from [State], given by the names of its
    function-valued properties. *)
Inductive JSState : Type :=
| JSUndefined
| JSInstance (cls : StateClass) (oid : nat)
| JSObject (methods : list string).

Definition state_truthy (v : JSState) : bool :=
  match v with JSUndefined => false | _ => true end.

(** [state instanceof State] *)
Definition instanceofState (v : JSState) : bool :=
  match v with JSInstance _ _ => true | _ => false end.

(** The interface of [State]: every instance inherits the five methods from
    the base class; an unrelated object has them only if it defines them. *)
Definition REQUIRED_METHODS : list string :=
  ["update"; "render"; "enter"; "exit"; "handleInput"].

Definition implementsInterface (v : JSState) : bool :=
  match v with
  | JSUndefined => false
  | JSInstance _ _ => true
  | JSObject methods =>
      forallb (fun m => existsb (String.eqb m) methods) REQUIRED_METHODS
  end.

Module GameStateManager.
Record t : Type := mk {
  currentState : option JSState;
  states : gmap string JSState;
  initialized : bool
}.

(** constructor *)
Definition new : t :=
  {| currentState := None; states := ∅; initialized := false |}.

(** [addState(name, state)]: both [throw]s are caught inside the method,
    which then returns [false] without touching [this.states]. *)
Definition addState (m : t) (name : string) (state : JSState) : t * bool :=
  if negb (string_truthy name) || negb (state_truthy state) then (m, false)
  else if negb (instanceofState state) then (m, false)
  else ({| currentState := currentState m;
           states := <[name := state]> (states m);
           initialized := initialized m |}, true).

Definition initialize (m : t) : t * bool :=
  ({| currentState := currentState m; states := states m;
      initialized := true |}, true).

(** [isReady()] *)
Definition isReady (m : t) : bool :=
  initialized m && negb (Nat.eqb (size (states m)) 0).
End GameStateManager.

(** Registration as the specification words it: registering a name twice
    fails and keeps the first state. *)
Definition register_rejects_reuse
    (m : GameStateManager.t) (name : string) (second : JSState) : Prop :=
  snd (GameStateManager.addState m name second) = false /\
  GameStateManager.states (fst (GameStateManager.addState m name second))
    !! name = GameStateManager.states m !! name.

(** ** Entities (game.js, 50-79 and 1530-1795) *)

Module Bullet.
Record t : Set := mk {
  x : Q; y : Q; width : Q; height : Q; speed : Q; velX : Q; velY : Q
}.

(** [new Bullet(x, y, velX, velY)]; [x || 0] is [x] for every number. *)
Definition new (x0 y0 vx vy : Q) : t :=
  mk x0 y0 4 10 GAME_CONFIG.BULLET_SPEED vx vy.

Definition update (b : t) : t :=
  mk (x b + velX b) (y b + velY b) (width b) (height b) (speed b)
     (velX b) (velY b).
End Bullet.

Module Enemy.
Record t : Set := mk {
  x : Q; y : Q; width : Q; height : Q; speed : Q;
  maxHealth : Z; currentHealth : Z; healthBarVisible : bool
}.

(** The constructor draws [Math.random()] three times, in this order: for
    [x], for [speed] and for [maxHealth]. *)
Definition new (canvasWidth r1 r2 r3 : Q) : t :=
  let h := Qfloor (r3 * 3) + 2 in
  mk (r1 * (canvasWidth - 30)) (-30) 30 30 (r2 * 2 + 1) h h false.

Definition isDestroyed (e : t) : bool := currentHealth e <=? 0.

(** [takeDamage(amount)]: the enemy after the hit and the returned flag. *)
Definition takeDamage (e : t) (amount : Z) : t * bool :=
  let h := currentHealth e - amount in
  let e' := mk (x e) (y e) (width e) (height e) (speed e) (maxHealth e)
               (if h <? 0 then 0 else h) true in
  (e', isDestroyed e').

Definition setHealthBarVisible (e : t) (v : bool) : t :=
  mk (x e) (y e) (width e) (height e) (speed e) (maxHealth e)
     (currentHealth e) v.

(** [update()]: [window.timeSlowMultiplier || 1.0] replaces a zero
    multiplier by one. *)
Definition update (timeSlowMultiplier : Q) (e : t) : t :=
  let m := if Qeq_bool timeSlowMultiplier 0 then 1%Q
           else timeSlowMultiplier in
  mk (x e) (y e + speed e * m) (width e) (height e) (speed e)
     (maxHealth e) (currentHealth e) (healthBarVisible e).

Definition updateHealthBarVisibility (e : t) : t :=
  if maxHealth e <=? currentHealth e then setHealthBarVisible e false
  else e.
End Enemy.

Module Player.
Record t : Set := mk {
  x : Q; y : Q; width : Q; height : Q; speed : Q;
  rapidFireActive : bool; multiShotActive : bool; laserBeamActive : bool;
  shieldActive : bool; invincible : bool; timeSlowActive : bool;
  explosiveRoundsActive : bool
}.

Definition START_X : Q := GAME_CONFIG.CANVAS_WIDTH / 2 - 15.
Definition START_Y : Q := GAME_CONFIG.CANVAS_HEIGHT - 50.

(** The object literal [player]. *)
Definition initial : t :=
  mk START_X START_Y 30 30 GAME_CONFIG.PLAYER_SPEED
     false false false false false false false.

(** [reset()], without the write to [window.timeSlowMultiplier], which
    the caller of this model performs on the world. *)
Definition reset (p : t) : t :=
  mk START_X START_Y (width p) (height p) (speed p)
     false false false false false false false.

Definition setPosition (p : t) (x0 y0 : Q) : t :=
  mk x0 y0 (width p) (height p) (speed p) (rapidFireActive p)
     (multiShotActive p) (laserBeamActive p) (shieldActive p)
     (invincible p) (timeSlowActive p) (explosiveRoundsActive p).

Definition setRapidFire (p : t) (v : bool) : t :=
  mk (x p) (y p) (width p) (height p) (speed p) v (multiShotActive p)
     (laserBeamActive p) (shieldActive p) (invincible p)
     (timeSlowActive p) (explosiveRoundsActive p).

Definition setMultiShot (p : t) (v : bool) : t :=
  mk (x p) (y p) (width p) (height p) (speed p) (rapidFireActive p) v
     (laserBeamActive p) (shieldActive p) (invincible p)
     (timeSlowActive p) (explosiveRoundsActive p).

Definition setLaserBeam (p : t) (v : bool) : t :=
  mk (x p) (y p) (width p) (height p) (speed p) (rapidFireActive p)
     (multiShotActive p) v (shieldActive p) (invincible p)
     (timeSlowActive p) (explosiveRoundsActive p).

Definition setShield (p : t) (v : bool) : t :=
  mk (x p) (y p) (width p) (height p) (speed p) (rapidFireActive p)
     (multiShotActive p) (laserBeamActive p) v v
     (timeSlowActive p) (explosiveRoundsActive p).

Definition setTimeSlow (p : t) (v : bool) : t :=
  mk (x p) (y p) (width p) (height p) (speed p) (rapidFireActive p)
     (multiShotActive p) (laserBeamActive p) (shieldActive p)
     (invincible p) v (explosiveRoundsActive p).

Definition setExplosiveRounds (p : t) (v : bool) : t :=
  mk (x p) (y p) (width p) (height p) (speed p) (rapidFireActive p)
     (multiShotActive p) (laserBeamActive p) (shieldActive p)
     (invincible p) (timeSlowActive p) v.

(** All seven power-up flags are off. *)
Definition flagsOff (p : t) : bool :=
  negb (rapidFireActive p || multiShotActive p || laserBeamActive p
        || shieldActive p || invincible p || timeSlowActive p
        || explosiveRoundsActive p).
End Player.

(** The keys read by the game state, as held ([true]) or not. *)
Module Keys.
Record t : Set := mk {
  ArrowLeft : bool; ArrowRight : bool; ArrowUp : bool; ArrowDown : bool;
  Space : bool; Escape : bool
}.
Definition none : t := mk false false false false false false.
Definition clearSpace (k : t) : t :=
  mk (ArrowLeft k) (ArrowRight k) (ArrowUp k) (ArrowDown k) false
     (Escape k).
Definition clearEscape (k : t) : t :=
  mk (ArrowLeft k) (ArrowRight k) (ArrowUp k) (ArrowDown k) (Space k)
     false.
End Keys.

Module Canvas.
Record t : Set := mk { width : Q; height : Q }.
End Canvas.

(** [class LaserBeam]: only the [active] field takes part in the logic. *)
Module LaserBeam.
Record t : Set := mk { active : bool; damage : Z }.
Definition new : t := mk false 1.
Definition activate (l : t) : t := mk true (damage l).
Definition deactivate (l : t) : t := mk false (damage l).
End LaserBeam.

(** ** The power-up catalog and pickups (game.js, 1877-1943) *)

Module PowerUpConfig.
Record t : Set := mk {
  name : string; description : string; duration : Z; color : string;
  icon : string
}.
End PowerUpConfig.

Definition RAPID_FIRE : PowerUpConfig.t :=
  PowerUpConfig.mk "Rapid Fire" "Increases firing rate by 300%" 10000
                   "#ff6b00" "R".
Definition MULTI_SHOT : PowerUpConfig.t :=
  PowerUpConfig.mk "Multi-Shot" "Fires 3 bullets in spread pattern" 15000
                   "#00ff6b" "M".
Definition LASER_BEAM : PowerUpConfig.t :=
  PowerUpConfig.mk "Laser Beam" "Continuous laser beam" 8000 "#6b00ff" "L".
Definition SHIELD_GENERATOR : PowerUpConfig.t :=
  PowerUpConfig.mk "Shield Generator" "Temporary invincibility" 5000
                   "#00ffff" "S".
Definition TIME_SLOW : PowerUpConfig.t :=
  PowerUpConfig.mk "Time Slow" "Reduces enemy speed by 50%" 12000
                   "#ffff00" "T".
Definition EXPLOSIVE_ROUNDS : PowerUpConfig.t :=
  PowerUpConfig.mk "Explosive Rounds" "Area-of-effect explosions" 20000
                   "#ff0066" "E".

(** The six entries of the object literal [POWER_UP_TYPES], by key. *)
Definition CATALOG : list (string * PowerUpConfig.t) :=
  [("RAPID_FIRE", RAPID_FIRE); ("MULTI_SHOT", MULTI_SHOT);
   ("LASER_BEAM", LASER_BEAM); ("SHIELD_GENERATOR", SHIELD_GENERATOR);
   ("TIME_SLOW", TIME_SLOW); ("EXPLOSIVE_ROUNDS", EXPLOSIVE_ROUNDS)].

(** [POWER_UP_TYPES] is an object literal, so [POWER_UP_TYPES[key]] also
    finds the properties every object inherits from [Object.prototype]. *)
Definition OBJECT_PROTOTYPE_PROPERTIES : list string :=
  ["constructor"; "hasOwnProperty"; "isPrototypeOf"; "propertyIsEnumerable";
   "toLocaleString"; "toString"; "valueOf"; "__proto__";
   "__defineGetter__"; "__defineSetter__"; "__lookupGetter__";
   "__lookupSetter__"].

(** The result of a property read [POWER_UP_TYPES[key]]. *)
Inductive PropertyValue : Set :=
| OwnConfig (c : PowerUpConfig.t)   (* one of the six catalog entries *)
| Inherited (property : string)     (* a member of Object.prototype *)
| Undefined.

Fixpoint assoc {V : Type} (l : list (string * V)) (k : string) : option V :=
  match l with
  | [] => None
  | (k', v) :: l' => if String.eqb k' k then Some v else assoc l' k
  end.

Definition POWER_UP_TYPES (key : string) : PropertyValue :=
  match assoc CATALOG key with
  | Some c => OwnConfig c
  | None =>
      if existsb (String.eqb key) OBJECT_PROTOTYPE_PROPERTIES
      then Inherited key else Undefined
  end.

(** Truthiness of a property value: objects and functions are truthy. *)
Definition property_truthy (v : PropertyValue) : bool :=
  match v with Undefined => false | _ => true end.

(** [v] is one of the six catalog entries. *)
Definition isCatalogEntry (v : PropertyValue) : Prop :=
  exists k c, In (k, c) CATALOG /\ v = OwnConfig c.

Module PowerUp.
Record t : Set := mk {
  x : Q; y : Q; width : Q; height : Q; speed : Q;
  type : string; typeConfig : PropertyValue; collected : bool
}.

(** [new PowerUp(x, y, type)] *)
Definition new (x0 y0 : Q) (type0 : string) : t :=
  let typeConfig0 := POWER_UP_TYPES type0 in
  mk x0 y0 20 20 2 type0
     (if property_truthy typeConfig0 then typeConfig0
      else OwnConfig RAPID_FIRE)
     false.
End PowerUp.

(** ** The power-up manager's table (game.js, 2069-2124) *)

(** A JavaScript number that may be [NaN], for [now + typeConfig.duration]
    when [duration] is [undefined]. *)
Inductive JSNumber : Set := Num (z : Z) | NaN.

(** [now >= n] *)
Definition geNumber (now : Z) (n : JSNumber) : bool :=
  match n with Num z => z <=? now | NaN => false end.

Module Effect.
Record t : Set := mk {
  type : string; config : PropertyValue; startTime : Z;
  endTime : JSNumber; active : bool
}.
Definition setEndTime (e : t) (n : JSNumber) : t :=
  mk (type e) (config e) (startTime e) n (active e).
End Effect.

(** [typeConfig.duration] added to [now]. *)
Definition endTimeFor (now : Z) (typeConfig : PropertyValue) : JSNumber :=
  match typeConfig with
  | OwnConfig c => Num (now + PowerUpConfig.duration c)
  | _ => NaN
  end.

(** A JavaScript [Map] with string keys: entries in insertion order, [set]
    on a present key replaces the value in place. *)
Module JSMap.
Definition t (V : Type) : Type := list (string * V).

Section Operations.
Context {V : Type}.

Definition get (m : t V) (k : string) : option V := assoc m k.

Definition has (m : t V) (k : string) : bool :=
  match get m k with Some _ => true | None => false end.

Fixpoint set (m : t V) (k : string) (v : V) : t V :=
  match m with
  | [] => [(k, v)]
  | (k', v') :: m' =>
      if String.eqb k' k then (k', v) :: m' else (k', v') :: set m' k v
  end.

Fixpoint delete (m : t V) (k : string) : t V :=
  match m with
  | [] => []
  | (k', v') :: m' =>
      if String.eqb k' k then m' else (k', v') :: delete m' k
  end.

Definition keys (m : t V) : list string := map fst m.

Definition size (m : t V) : nat := length m.

(** Number of entries stored under key [k]. *)
Definition entries (m : t V) (k : string) : nat :=
  length (filter (fun kv => String.eqb (fst kv) k) m).
End Operations.
End JSMap.

(** What the manager writes to the console, kept as a trace: every call of
    [applyPowerUpEffect(type, activate)], and the three messages of
    [addPowerUp] and [clearAllPowerUps]. *)
Inductive LogEvent : Set :=
| EffectHook (type : string) (activate : bool)
| PowerUpActivated (type : string)
| PowerUpRefreshed (type : string)
| PowerUpDeactivated (type : string)
| AllPowerUpsCleared.

(** ** The game's global variables as one world (game.js, 29-96, 277, 2449)

    [activePowerUps] and [powerUpManagerInitialized] are the fields of the
    global [powerUpManager]; a manager that is still [null] behaves, for
    every caller, as one that is not initialized.  Likewise a
    [gameStateManager] that is still [null] behaves as the empty manager.
    The pickups on screen ([powerUps]) and the particles are not part of the
    world: they feed only [addPowerUp], which is an operation of its own
    here. *)
Record World : Type := mkWorld {
  gameRunning : bool;
  score : Z;
  lives : Z;
  keys : Keys.t;
  canvas : option Canvas.t;
  player : Player.t;
  bullets : list Bullet.t;
  enemies : list Enemy.t;
  laserActive : bool;
  laserBeam : option LaserBeam.t;
  timeSlowMultiplier : Q;
  lastEnemySpawn : Z;
  enemySpawnRate : Z;
  lastShot : Z;
  activePowerUps : JSMap.t Effect.t;
  powerUpManagerInitialized : bool;
  gameStateManager : GameStateManager.t;
  console : list LogEvent
}.

Definition set_gameRunning (v : bool) (w : World) : World :=
  mkWorld v (score w) (lives w) (keys w) (canvas w) (player w) (bullets w)
    (enemies w) (laserActive w) (laserBeam w) (timeSlowMultiplier w)
    (lastEnemySpawn w) (enemySpawnRate w) (lastShot w) (activePowerUps w)
    (powerUpManagerInitialized w) (gameStateManager w) (console w).

Definition set_score (v : Z) (w : World) : World :=
  mkWorld (gameRunning w) v (lives w) (keys w) (canvas w) (player w)
    (bullets w) (enemies w) (laserActive w) (laserBeam w)
    (timeSlowMultiplier w) (lastEnemySpawn w) (enemySpawnRate w)
    (lastShot w) (activePowerUps w) (powerUpManagerInitialized w)
    (gameStateManager w) (console w).

Definition set_lives (v : Z) (w : World) : World :=
  mkWorld (gameRunning w) (score w) v (keys w) (canvas w) (player w)
    (bullets w) (enemies w) (laserActive w) (laserBeam w)
    (timeSlowMultiplier w) (lastEnemySpawn w) (enemySpawnRate w)
    (lastShot w) (activePowerUps w) (powerUpManagerInitialized w)
    (gameStateManager w) (console w).

Definition set_keys (v : Keys.t) (w : World) : World :=
  mkWorld (gameRunning w) (score w) (lives w) v (canvas w) (player w)
    (bullets w) (enemies w) (laserActive w) (laserBeam w)
    (timeSlowMultiplier w) (lastEnemySpawn w) (enemySpawnRate w)
    (lastShot w) (activePowerUps w) (powerUpManagerInitialized w)
    (gameStateManager w) (console w).

Definition set_canvas (v : option Canvas.t) (w : World) : World :=
  mkWorld (gameRunning w) (score w) (lives w) (keys w) v (player w)
    (bullets w) (enemies w) (laserActive w) (laserBeam w)
    (timeSlowMultiplier w) (lastEnemySpawn w) (enemySpawnRate w)
    (lastShot w) (activePowerUps w) (powerUpManagerInitialized w)
    (gameStateManager w) (console w).

Definition set_player (v : Player.t) (w : World) : World :=
  mkWorld (gameRunning w) (score w) (lives w) (keys w) (canvas w) v
    (bullets w) (enemies w) (laserActive w) (laserBeam w)
    (timeSlowMultiplier w) (lastEnemySpawn w) (enemySpawnRate w)
    (lastShot w) (activePowerUps w) (powerUpManagerInitialized w)
    (gameStateManager w) (console w).

Definition set_bullets (v : list Bullet.t) (w : World) : World :=
  mkWorld (gameRunning w) (score w) (lives w) (keys w) (canvas w) (player w)
    v (enemies w) (laserActive w) (laserBeam w) (timeSlowMultiplier w)
    (lastEnemySpawn w) (enemySpawnRate w) (lastShot w) (activePowerUps w)
    (powerUpManagerInitialized w) (gameStateManager w) (console w).

Definition set_enemies (v : list Enemy.t) (w : World) : World :=
  mkWorld (gameRunning w) (score w) (lives w) (keys w) (canvas w) (player w)
    (bullets w) v (laserActive w) (laserBeam w) (timeSlowMultiplier w)
    (lastEnemySpawn w) (enemySpawnRate w) (lastShot w) (activePowerUps w)
    (powerUpManagerInitialized w) (gameStateManager w) (console w).

Definition set_laserActive (v : bool) (w : World) : World :=
  mkWorld (gameRunning w) (score w) (lives w) (keys w) (canvas w) (player w)
    (bullets w) (enemies w) v (laserBeam w) (timeSlowMultiplier w)
    (lastEnemySpawn w) (enemySpawnRate w) (lastShot w) (activePowerUps w)
    (powerUpManagerInitialized w) (gameStateManager w) (console w).

Definition set_laserBeam (v : option LaserBeam.t) (w : World) : World :=
  mkWorld (gameRunning w) (score w) (lives w) (keys w) (canvas w) (player w)
    (bullets w) (enemies w) (laserActive w) v (timeSlowMultiplier w)
    (lastEnemySpawn w) (enemySpawnRate w) (lastShot w) (activePowerUps w)
    (powerUpManagerInitialized w) (gameStateManager w) (console w).

Definition set_timeSlowMultiplier (v : Q) (w : World) : World :=
  mkWorld (gameRunning w) (score w) (lives w) (keys w) (canvas w) (player w)
    (bullets w) (enemies w) (laserActive w) (laserBeam w) v
    (lastEnemySpawn w) (enemySpawnRate w) (lastShot w) (activePowerUps w)
    (powerUpManagerInitialized w) (gameStateManager w) (console w).

Definition set_lastEnemySpawn (v : Z) (w : World) : World :=
  mkWorld (gameRunning w) (score w) (lives w) (keys w) (canvas w) (player w)
    (bullets w) (enemies w) (laserActive w) (laserBeam w)
    (timeSlowMultiplier w) v (enemySpawnRate w) (lastShot w)
    (activePowerUps w) (powerUpManagerInitialized w) (gameStateManager w)
    (console w).

Definition set_enemySpawnRate (v : Z) (w : World) : World :=
  mkWorld (gameRunning w) (score w) (lives w) (keys w) (canvas w) (player w)
    (bullets w) (enemies w) (laserActive w) (laserBeam w)
    (timeSlowMultiplier w) (lastEnemySpawn w) v (lastShot w)
    (activePowerUps w) (powerUpManagerInitialized w) (gameStateManager w)
    (console w).

Definition set_lastShot (v : Z) (w : World) : World :=
  mkWorld (gameRunning w) (score w) (lives w) (keys w) (canvas w) (player w)
    (bullets w) (enemies w) (laserActive w) (laserBeam w)
    (timeSlowMultiplier w) (lastEnemySpawn w) (enemySpawnRate w) v
    (activePowerUps w) (powerUpManagerInitialized w) (gameStateManager w)
    (console w).

Definition set_activePowerUps (v : JSMap.t Effect.t) (w : World) : World :=
  mkWorld (gameRunning w) (score w) (lives w) (keys w) (canvas w) (player w)
    (bullets w) (enemies w) (laserActive w) (laserBeam w)
    (timeSlowMultiplier w) (lastEnemySpawn w) (enemySpawnRate w)
    (lastShot w) v (powerUpManagerInitialized w) (gameStateManager w)
    (console w).

Definition set_powerUpManagerInitialized (v : bool) (w : World) : World :=
  mkWorld (gameRunning w) (score w) (lives w) (keys w) (canvas w) (player w)
    (bullets w) (enemies w) (laserActive w) (laserBeam w)
    (timeSlowMultiplier w) (lastEnemySpawn w) (enemySpawnRate w)
    (lastShot w) (activePowerUps w) v (gameStateManager w) (console w).

Definition set_gameStateManager (v : GameStateManager.t) (w : World) : World :=
  mkWorld (gameRunning w) (score w) (lives w) (keys w) (canvas w) (player w)
    (bullets w) (enemies w) (laserActive w) (laserBeam w)
    (timeSlowMultiplier w) (lastEnemySpawn w) (enemySpawnRate w)
    (lastShot w) (activePowerUps w) (powerUpManagerInitialized w) v
    (console w).

Definition set_console (v : list LogEvent) (w : World) : World :=
  mkWorld (gameRunning w) (score w) (lives w) (keys w) (canvas w) (player w)
    (bullets w) (enemies w) (laserActive w) (laserBeam w)
    (timeSlowMultiplier w) (lastEnemySpawn w) (enemySpawnRate w)
    (lastShot w) (activePowerUps w) (powerUpManagerInitialized w)
    (gameStateManager w) v.

(** ** PowerUpManager (game.js, 2069-2446) *)

Definition log (e : LogEvent) (w : World) : World :=
  set_console (console w ++ [e]) w.

Definition addRapidFireVisualEffect (w : World) : World :=
  set_player (Player.setRapidFire (player w) true) w.

Definition removeRapidFireVisualEffect (w : World) : World :=
  set_player (Player.setRapidFire (player w) false) w.

Definition addMultiShotVisualEffect (w : World) : World :=
  set_player (Player.setMultiShot (player w) true) w.

Definition removeMultiShotVisualEffect (w : World) : World :=
  set_player (Player.setMultiShot (player w) false) w.

Definition activateLaserBeam (w : World) : World :=
  let beam := match laserBeam w with
              | Some b => b
              | None => LaserBeam.new
              end in
  let w1 := set_laserBeam (Some (LaserBeam.activate beam)) w in
  let w2 := set_laserActive true w1 in
  set_player (Player.setLaserBeam (player w2) true) w2.

Definition deactivateLaserBeam (w : World) : World :=
  let w1 := match laserBeam w with
            | Some b => set_laserBeam (Some (LaserBeam.deactivate b)) w
            | None => w
            end in
  let w2 := set_laserActive false w1 in
  set_player (Player.setLaserBeam (player w2) false) w2.

Definition activateShield (w : World) : World :=
  set_player (Player.setShield (player w) true) w.

Definition deactivateShield (w : World) : World :=
  set_player (Player.setShield (player w) false) w.

Definition activateTimeSlow (w : World) : World :=
  let w1 := set_timeSlowMultiplier (1 # 2) w in
  set_player (Player.setTimeSlow (player w1) true) w1.

Definition deactivateTimeSlow (w : World) : World :=
  let w1 := set_timeSlowMultiplier 1 w in
  set_player (Player.setTimeSlow (player w1) false) w1.

Definition activateExplosiveRounds (w : World) : World :=
  set_player (Player.setExplosiveRounds (player w) true) w.

Definition deactivateExplosiveRounds (w : World) : World :=
  set_player (Player.setExplosiveRounds (player w) false) w.

(** [applyPowerUpEffect(type, activate)]: the [switch] on the type string;
    every branch, the default one included, writes to the console first. *)
Definition applyPowerUpEffect (type : string) (activate : bool) (w : World)
  : World :=
  let w := log (EffectHook type activate) w in
  if String.eqb type "RAPID_FIRE" then
    if activate then addRapidFireVisualEffect w
    else removeRapidFireVisualEffect w
  else if String.eqb type "MULTI_SHOT" then
    if activate then addMultiShotVisualEffect w
    else removeMultiShotVisualEffect w
  else if String.eqb type "LASER_BEAM" then
    if activate then activateLaserBeam w else deactivateLaserBeam w
  else if String.eqb type "SHIELD_GENERATOR" then
    if activate then activateShield w else deactivateShield w
  else if String.eqb type "TIME_SLOW" then
    if activate then activateTimeSlow w else deactivateTimeSlow w
  else if String.eqb type "EXPLOSIVE_ROUNDS" then
    if activate then activateExplosiveRounds w
    else deactivateExplosiveRounds w
  else w.

(** [initialize()] *)
Definition PowerUpManager_initialize (w : World) : World * bool :=
  (set_powerUpManagerInitialized true (set_activePowerUps [] w), true).

(** [addPowerUp(type)], with the value [now] of [Date.now()]. *)
Definition addPowerUp (type : string) (now : Z) (w : World) : World * bool :=
  if negb (string_truthy type) || negb (property_truthy (POWER_UP_TYPES type))
  then (w, false)
  else
    let typeConfig := POWER_UP_TYPES type in
    match JSMap.get (activePowerUps w) type with
    | Some existingEffect =>
        let refreshed :=
          Effect.setEndTime existingEffect (endTimeFor now typeConfig) in
        (log (PowerUpRefreshed type)
             (set_activePowerUps
                (JSMap.set (activePowerUps w) type refreshed) w),
         true)
    | None =>
        let effect :=
          Effect.mk type typeConfig now (endTimeFor now typeConfig) true in
        let w1 :=
          set_activePowerUps (JSMap.set (activePowerUps w) type effect) w in
        (log (PowerUpActivated type) (applyPowerUpEffect type true w1), true)
    end.

(** [removePowerUp(type)] *)
Definition removePowerUp (type : string) (w : World) : World * bool :=
  if negb (JSMap.has (activePowerUps w) type) then (w, false)
  else
    let w1 := applyPowerUpEffect type false w in
    let w2 :=
      set_activePowerUps (JSMap.delete (activePowerUps w1) type) w1 in
    (log (PowerUpDeactivated type) w2, true).

(** [updatePowerUps()] of the manager, with the value [now] of
    [Date.now()]: collect the expired types, then remove each. *)
Definition expiredTypes (now : Z) (m : JSMap.t Effect.t) : list string :=
  map fst (filter (fun kv => geNumber now (Effect.endTime (snd kv))) m).

Definition PowerUpManager_updatePowerUps (now : Z) (w : World) : World :=
  fold_left (fun w type => fst (removePowerUp type w))
            (expiredTypes now (activePowerUps w)) w.

(** [isPowerUpActive(type)] *)
Definition isPowerUpActive (type : string) (w : World) : bool :=
  JSMap.has (activePowerUps w) type.

(** The first loop of [clearAllPowerUps()]: the disable hook of every key
    of the table, in the table's order. *)
Definition deactivateAllEffects (types : list string) (w : World) : World :=
  fold_left (fun w type => applyPowerUpEffect type false w) types w.

(** [clearAllPowerUps()] *)
Definition clearAllPowerUps (w : World) : World * bool :=
  let w1 := deactivateAllEffects (JSMap.keys (activePowerUps w)) w in
  let w2 := match laserBeam w1 with
            | Some b => set_laserBeam (Some (LaserBeam.deactivate b)) w1
            | None => w1
            end in
  let w3 := set_laserActive false w2 in
  let w4 := set_timeSlowMultiplier 1 w3 in
  let w5 := set_activePowerUps [] w4 in
  (log AllPowerUpsCleared w5, true).

(** ** Loops and boxes *)

(** [for (let i = n - 1; i >= 0; i--) body(i)] *)
Fixpoint loopDown {A : Type} (body : nat -> A -> A) (n : nat) (a : A) : A :=
  match n with
  | O => a
  | S i => loopDown body i (body i a)
  end.

(** The axis-aligned overlap test, written four times in the source with
    the same shape: [a.x < b.x + b.w && a.x + a.w > b.x && a.y < b.y + b.h
    && a.y + a.h > b.y]. *)
Definition boxesOverlap (ax ay aw ah bx by_ bw bh : Q) : bool :=
  Qltb ax (bx + bw) && Qltb bx (ax + aw) &&
  Qltb ay (by_ + bh) && Qltb by_ (ay + ah).

Definition bulletHitsEnemy (b : Bullet.t) (e : Enemy.t) : bool :=
  boxesOverlap (Bullet.x b) (Bullet.y b) (Bullet.width b) (Bullet.height b)
               (Enemy.x e) (Enemy.y e) (Enemy.width e) (Enemy.height e).

Definition enemyHitsPlayer (e : Enemy.t) (p : Player.t) : bool :=
  boxesOverlap (Enemy.x e) (Enemy.y e) (Enemy.width e) (Enemy.height e)
               (Player.x p) (Player.y p) (Player.width p) (Player.height p).

(** ** State transitions on the world (game.js, 192-223, 1248-1283,
    1453-1462, 4266-4283) *)

Definition updateScore (points : Z) (w : World) : World :=
  set_score (score w + points) w.

Definition updateLives (change : Z) (w : World) : World :=
  set_lives (lives w + change) w.

(** [GameState.enter()] *)
Definition GameState_enter (w : World) : World :=
  let w := set_gameRunning true w in
  let w := set_score 0 w in
  let w := set_lives 3 w in
  let w := set_bullets [] w in
  let w := set_enemies [] w in
  let w := set_lastEnemySpawn 0 w in
  let w := set_enemySpawnRate GAME_CONFIG.INITIAL_ENEMY_SPAWN_RATE w in
  let w := set_timeSlowMultiplier 1
             (set_player (Player.reset (player w)) w) in
  let w := if powerUpManagerInitialized w then fst (clearAllPowerUps w)
           else w in
  updateLives 0 (updateScore 0 w).

(** [exit()] and [enter()] of each class, as far as they write to the
    world. *)
Definition exitState (cls : StateClass) (w : World) : World :=
  match cls with
  | GameState => set_gameRunning false w
  | _ => w
  end.

Definition enterState (cls : StateClass) (w : World) : World :=
  match cls with
  | GameState => GameState_enter w
  | GameOverState => set_gameRunning false w
  | _ => w
  end.

Definition set_currentState (s : option JSState) (w : World) : World :=
  let m := gameStateManager w in
  set_gameStateManager
    (GameStateManager.mk s (GameStateManager.states m)
                         (GameStateManager.initialized m)) w.

(** [gameStateManager.setState(stateName)] *)
Definition setState (stateName : string) (w : World) : World * bool :=
  if negb (string_truthy stateName) then (w, false)
  else
    match GameStateManager.states (gameStateManager w) !! stateName with
    | None => (w, false)
    | Some newState =>
        if negb (state_truthy newState) then (w, false)
        else
          let w1 :=
            match GameStateManager.currentState (gameStateManager w) with
            | Some (JSInstance cls _) => exitState cls w
            | _ => w
            end in
          let w2 := set_currentState (Some newState) w1 in
          let w3 := match newState with
                    | JSInstance cls _ => enterState cls w2
                    | _ => w2
                    end in
          (w3, true)
    end.

(** [gameOver()] *)
Definition gameOver (w : World) : World :=
  if GameStateManager.isReady (gameStateManager w)
  then fst (setState "GameOverState" w)
  else set_gameRunning false w.

(** [initializeStateManager()]: the manager with its five states, before
    the first [setState]. *)
Definition registeredManager : GameStateManager.t :=
  let m := GameStateManager.new in
  let m := fst (GameStateManager.addState m "IntroState"
                  (JSInstance IntroState 0)) in
  let m := fst (GameStateManager.addState m "CharacterSelectState"
                  (JSInstance CharacterSelectState 1)) in
  let m := fst (GameStateManager.addState m "GameState"
                  (JSInstance GameState 2)) in
  let m := fst (GameStateManager.addState m "PauseState"
                  (JSInstance PauseState 3)) in
  let m := fst (GameStateManager.addState m "GameOverState"
                  (JSInstance GameOverState 4)) in
  fst (GameStateManager.initialize m).

(** The globals as the script leaves them once [initializeGame()] has run
    on a canvas of the given size. *)
Definition loadedWorld (c : Canvas.t) : World :=
  fst (setState "IntroState"
    (mkWorld true 0 3 Keys.none (Some c) Player.initial [] [] false None 1
             0 GAME_CONFIG.INITIAL_ENEMY_SPAWN_RATE 0 [] true
             registeredManager [])).

(** ** The simulation step (game.js, 1285-1375 and 3348-3761) *)

Inductive BulletPattern : Set := laser | spread | single.

(** What one frame reads from outside the world: the values of
    [Date.now()] and [Math.random()] used by [shootBullet], by [spawnEnemy]
    and the [Enemy] constructor and by the power-up manager, and the pickups
    that [checkPowerUpCollisions] finds on the player, each with its type
    string and the clock value of its [addPowerUp] call, in the order of
    the calls. *)
Record FrameInput : Set := mkFrameInput {
  nowShoot : Z; nowSpawn : Z; randomX : Q; randomSpeed : Q;
  randomHealth : Q; nowPowerUps : Z; collected : list (string * Z)
}.

(** The damage of an explosion at a given distance from its centre:
    [Math.ceil(minDamage + (maxDamage - minDamage) * (1 - distance / radius))]
    with [maxDamage = 3] and [minDamage = 1]. *)
Definition EXPLOSION_MAX_DAMAGE : Q := 3.
Definition EXPLOSION_MIN_DAMAGE : Q := 1.

Definition explosiveDamage (distance radius : Q) : Z :=
  let damageRatio := (1 - distance / radius)%Q in
  Qceiling (EXPLOSION_MIN_DAMAGE
            + (EXPLOSION_MAX_DAMAGE - EXPLOSION_MIN_DAMAGE) * damageRatio).

Section Simulation.
(** [Math.sqrt], [Math.sin] and [Math.cos]. *)
Variables Math_sqrt Math_sin Math_cos : Q -> Q.

(** [getCurrentShootCooldown()] *)
Definition getCurrentShootCooldown (w : World) : Q :=
  if powerUpManagerInitialized w && isPowerUpActive "RAPID_FIRE" w
  then GAME_CONFIG.SHOOT_COOLDOWN / 4
  else GAME_CONFIG.SHOOT_COOLDOWN.

(** [getCurrentBulletPattern()] *)
Definition getCurrentBulletPattern (w : World) : BulletPattern :=
  if powerUpManagerInitialized w && isPowerUpActive "LASER_BEAM" w
  then laser
  else if powerUpManagerInitialized w && isPowerUpActive "MULTI_SHOT" w
  then spread
  else single.

(** [createBullets(pattern)] *)
Definition createBullets (pattern : BulletPattern) (w : World) : World :=
  let p := player w in
  let centerX := (Player.x p + Player.width p / 2)%Q in
  let bulletY := Player.y p in
  let speed := GAME_CONFIG.BULLET_SPEED in
  match pattern with
  | laser => w
  | spread =>
      let spreadAngle := (3 # 10)%Q in
      set_bullets
        (bullets w ++
         [Bullet.new (centerX - 2) bulletY 0 (- speed);
          Bullet.new (centerX - 2) bulletY
                     (Math_sin (- spreadAngle) * speed)
                     (- Math_cos (- spreadAngle) * speed);
          Bullet.new (centerX - 2) bulletY
                     (Math_sin spreadAngle * speed)
                     (- Math_cos spreadAngle * speed)]) w
  | single =>
      set_bullets
        (bullets w ++ [Bullet.new (centerX - 2) bulletY 0 (- speed)]) w
  end.

(** [shootBullet()] *)
Definition shootBullet (now : Z) (w : World) : World :=
  if Qltb (getCurrentShootCooldown w) (inject_Z (now - lastShot w))
  then set_lastShot now (createBullets (getCurrentBulletPattern w) w)
  else w.

(** The four movement statements shared by both input handlers. *)
Definition movePlayer (k : Keys.t) (canvasWidth canvasHeight : Q)
    (p : Player.t) : Player.t :=
  let x1 := if Keys.ArrowLeft k && Qltb 0 (Player.x p)
            then (Player.x p - Player.speed p)%Q else Player.x p in
  let x2 := if Keys.ArrowRight k && Qltb x1 (canvasWidth - Player.width p)
            then (x1 + Player.speed p)%Q else x1 in
  let y1 := if Keys.ArrowUp k && Qltb 0 (Player.y p)
            then (Player.y p - Player.speed p)%Q else Player.y p in
  let y2 := if Keys.ArrowDown k
               && Qltb y1 (canvasHeight - Player.height p)
            then (y1 + Player.speed p)%Q else y1 in
  Player.setPosition p x2 y2.

(** [canvas.width || GAME_CONFIG.CANVAS_WIDTH] and the same for the
    height. *)
Definition canvasWidthOr (c : Canvas.t) : Q :=
  if Qeq_bool (Canvas.width c) 0 then GAME_CONFIG.CANVAS_WIDTH
  else Canvas.width c.

Definition canvasHeightOr (c : Canvas.t) : Q :=
  if Qeq_bool (Canvas.height c) 0 then GAME_CONFIG.CANVAS_HEIGHT
  else Canvas.height c.

(** The global [handleInput()] (game.js, 3429-3455). *)
Definition handleInput (now : Z) (w : World) : World :=
  match canvas w with
  | None => w
  | Some c =>
      let w1 := set_player (movePlayer (keys w) (canvasWidthOr c)
                                       (canvasHeightOr c) (player w)) w in
      if Keys.Space (keys w1)
      then set_keys (Keys.clearSpace (keys w1)) (shootBullet now w1)
      else w1
  end.

(** [GameState.handleInput()] (game.js, 1342-1374). *)
Definition GameState_handleInput (now : Z) (w : World) : World :=
  match canvas w with
  | None => w
  | Some c =>
      let w1 := set_player (movePlayer (keys w) (canvasWidthOr c)
                                       (canvasHeightOr c) (player w)) w in
      let w2 := if Keys.Space (keys w1)
                then set_keys (Keys.clearSpace (keys w1))
                              (shootBullet now w1)
                else w1 in
      if Keys.Escape (keys w2)
      then fst (setState "PauseState"
                  (set_keys (Keys.clearEscape (keys w2)) w2))
      else w2
  end.

(** [spawnEnemy()] *)
Definition spawnEnemy (now : Z) (r1 r2 r3 : Q) (w : World) : World :=
  if enemySpawnRate w <? now - lastEnemySpawn w then
    let canvasWidth := match canvas w with
                       | Some c => Canvas.width c
                       | None => GAME_CONFIG.CANVAS_WIDTH
                       end in
    let w1 := set_enemies (enemies w ++ [Enemy.new canvasWidth r1 r2 r3])
                          w in
    let w2 := set_lastEnemySpawn now w1 in
    if GAME_CONFIG.MIN_ENEMY_SPAWN_RATE <? enemySpawnRate w2
    then set_enemySpawnRate
           (enemySpawnRate w2 - GAME_CONFIG.SPAWN_RATE_DECREASE) w2
    else w2
  else w.

(** [updateBullets()] *)
Definition updateBullets (w : World) : World :=
  loopDown
    (fun i w =>
       match bullets w !! i with
       | None => w
       | Some b =>
           let b' := Bullet.update b in
           if Qltb (Bullet.y b') 0
           then set_bullets (delete i (bullets w)) w
           else set_bullets (<[i := b']> (bullets w)) w
       end)
    (length (bullets w)) w.

(** [updateEnemies()] *)
Definition updateEnemies (w : World) : World :=
  let canvasHeight := match canvas w with
                      | Some c => Canvas.height c
                      | None => GAME_CONFIG.CANVAS_HEIGHT
                      end in
  loopDown
    (fun i w =>
       match enemies w !! i with
       | None => w
       | Some e =>
           let e' := Enemy.updateHealthBarVisibility
                       (Enemy.update (timeSlowMultiplier w) e) in
           if Qltb canvasHeight (Enemy.y e')
           then set_enemies (delete i (enemies w)) w
           else set_enemies (<[i := e']> (enemies w)) w
       end)
    (length (enemies w)) w.

(** Distance from the explosion centre to the centre of an enemy. *)
Definition distanceTo (centerX centerY : Q) (e : Enemy.t) : Q :=
  let enemyCenterX := (Enemy.x e + Enemy.width e / 2)%Q in
  let enemyCenterY := (Enemy.y e + Enemy.height e / 2)%Q in
  Math_sqrt ((centerX - enemyCenterX) * (centerX - enemyCenterX)
             + (centerY - enemyCenterY) * (centerY - enemyCenterY))%Q.

(** One iteration of the loop of [applyExplosiveDamage], for index [i]. *)
Definition explodeAt (centerX centerY radius : Q) (i : nat) (w : World)
  : World :=
  match enemies w !! i with
  | None => w
  | Some enemy =>
      let distance := distanceTo centerX centerY enemy in
      if Qle_bool distance radius then
        let damage := explosiveDamage distance radius in
        let (enemy', enemyDestroyed) := Enemy.takeDamage enemy damage in
        if enemyDestroyed
        then updateScore 10 (set_enemies (delete i (enemies w)) w)
        else set_enemies
               (<[i := Enemy.setHealthBarVisible enemy' true]> (enemies w))
               w
      else w
  end.

(** [applyExplosiveDamage(centerX, centerY, radius)] *)
Definition applyExplosiveDamage (centerX centerY radius : Q) (w : World)
  : World :=
  loopDown (explodeAt centerX centerY radius) (length (enemies w)) w.

(** The inner loop of the bullet pass: [j] runs from [n - 1] down to [0]
    and the loop is left at the first enemy that overlaps the bullet. *)
Fixpoint findHit (b : Bullet.t) (es : list Enemy.t) (n : nat)
  : option nat :=
  match n with
  | O => None
  | S j =>
      match es !! j with
      | Some e => if bulletHitsEnemy b e then Some j else findHit b es j
      | None => findHit b es j
      end
  end.

(** Normal single-target damage to [enemies[j]]. *)
Definition hitEnemy (j : nat) (w : World) : World :=
  match enemies w !! j with
  | None => w
  | Some e =>
      let (e', enemyDestroyed) := Enemy.takeDamage e 1 in
      if enemyDestroyed
      then updateScore 10 (set_enemies (delete j (enemies w)) w)
      else set_enemies
             (<[j := Enemy.setHealthBarVisible e' true]> (enemies w)) w
  end.

(** The body run when bullet [i] overlaps enemy [j]. *)
Definition resolveHit (i j : nat) (b : Bullet.t) (w : World) : World :=
  let impactX := (Bullet.x b + Bullet.width b / 2)%Q in
  let impactY := (Bullet.y b + Bullet.height b / 2)%Q in
  let w1 := set_bullets (delete i (bullets w)) w in
  if Player.explosiveRoundsActive (player w1)
  then applyExplosiveDamage impactX impactY 50 w1
  else hitEnemy j w1.

(** One iteration of the outer loop of the bullet pass, for index [i]. *)
Definition bulletStep (i : nat) (w : World) : World :=
  match bullets w !! i with
  | None => w
  | Some b =>
      match findHit b (enemies w) (length (enemies w)) with
      | Some j => resolveHit i j b w
      | None => w
      end
  end.

Definition bulletEnemyCollisions (w : World) : World :=
  loopDown bulletStep (length (bullets w)) w.

(** One iteration of the player pass, for index [i]. *)
Definition playerStep (i : nat) (w : World) : World :=
  match enemies w !! i with
  | None => w
  | Some e =>
      if enemyHitsPlayer e (player w) then
        if Player.invincible (player w) && Player.shieldActive (player w)
        then set_enemies (delete i (enemies w)) w
        else
          let w1 := set_enemies (delete i (enemies w)) w in
          let w2 := updateLives (-1) w1 in
          if lives w2 <=? 0 then gameOver w2 else w2
      else w
  end.

Definition playerEnemyCollisions (w : World) : World :=
  loopDown playerStep (length (enemies w)) w.

(** [checkCollisions()] *)
Definition checkCollisions (w : World) : World :=
  playerEnemyCollisions (bulletEnemyCollisions w).

(** [checkPowerUpCollisions()], as far as it writes to the world: one
    [addPowerUp] per collected pickup, if the manager is initialized. *)
Definition checkPowerUpCollisions (pickups : list (string * Z)) (w : World)
  : World :=
  fold_left (fun w '(type, now) =>
               if powerUpManagerInitialized w
               then fst (addPowerUp type now w) else w)
            pickups w.

(** [GameState.update()]; the two calls that only move particles and
    pickups are not part of the world. *)
Definition GameState_update (inp : FrameInput) (w : World) : World :=
  if negb (gameRunning w) then w
  else
    let w := GameState_handleInput (nowShoot inp) w in
    let w := spawnEnemy (nowSpawn inp) (randomX inp) (randomSpeed inp)
                        (randomHealth inp) w in
    let w := updateBullets w in
    let w := updateEnemies w in
    let w := if powerUpManagerInitialized w
             then PowerUpManager_updatePowerUps (nowPowerUps inp) w
             else w in
    let w := checkCollisions w in
    let w := checkPowerUpCollisions (collected inp) w in
    if lives w <=? 0 then fst (setState "GameOverState" w) else w.

(** What happens between two states of a session: a key goes down or up,
    a menu state asks for a transition, or the game loop runs a frame. *)
Inductive SessionEvent : Set :=
| KeyboardEvent (held : Keys.t)
| MenuTransition (stateName : string)
| AnimationFrame (inp : FrameInput).

(** [gameStateManager.update()] while the game state is current; the
    [update()] of a menu state only reads keys and asks for transitions,
    which are events of their own. *)
Definition managerUpdate (inp : FrameInput) (w : World) : World :=
  match GameStateManager.currentState (gameStateManager w) with
  | Some (JSInstance GameState _) => GameState_update inp w
  | _ => w
  end.

Definition applyEvent (ev : SessionEvent) (w : World) : World :=
  match ev with
  | KeyboardEvent held => set_keys held w
  | MenuTransition stateName => fst (setState stateName w)
  | AnimationFrame inp => managerUpdate inp w
  end.

Definition runSession (events : list SessionEvent) (w : World) : World :=
  fold_left (fun w ev => applyEvent ev w) events w.
End Simulation.

(** ** Readings of the specification, to compare with the code *)

(** Storage order from index 0 upward: the least index of an enemy that
    overlaps the bullet. *)
Fixpoint firstOverlapFromZero (b : Bullet.t) (es : list Enemy.t)
  : option nat :=
  match es with
  | [] => None
  | e :: es' =>
      if bulletHitsEnemy b e then Some O
      else option_map S (firstOverlapFromZero b es')
  end.

(** The number of enemies that overlap the player. *)
Definition collidingEnemies (p : Player.t) (es : list Enemy.t) : nat :=
  length (filter (fun e => enemyHitsPlayer e p) es).

(** The player is protected by the shield. *)
Definition shielded (p : Player.t) : bool :=
  Player.invincible p && Player.shieldActive p.

(** ** Runs used to state the properties *)

(** A sequence of calls of [spawnEnemy()], each with its clock value and
    its three random draws. *)
Definition runSpawner (calls : list (Z * Q * Q * Q)) (w : World) : World :=
  fold_left (fun w '(now, r1, r2, r3) => spawnEnemy now r1 r2 r3 w) calls w.

(** [n] successive calls of [takeDamage(1)] on the same enemy. *)
Definition hits (n : nat) (e : Enemy.t) : Enemy.t :=
  Nat.iter n (fun e => fst (Enemy.takeDamage e 1)) e.

(** The player flag(s) that belong to a power-up type. *)
Definition flagOf (type : string) (p : Player.t) : bool :=
  if String.eqb type "RAPID_FIRE" then Player.rapidFireActive p
  else if String.eqb type "MULTI_SHOT" then Player.multiShotActive p
  else if String.eqb type "LASER_BEAM" then Player.laserBeamActive p
  else if String.eqb type "SHIELD_GENERATOR"
       then Player.shieldActive p || Player.invincible p
  else if String.eqb type "TIME_SLOW" then Player.timeSlowActive p
  else if String.eqb type "EXPLOSIVE_ROUNDS"
       then Player.explosiveRoundsActive p
  else false.

(** A flag is on only while its type is in the manager's table. *)
Definition flagsCoherent (w : World) : bool :=
  forallb (fun kc => implb (flagOf (fst kc) (player w))
                           (JSMap.has (activePowerUps w) (fst kc)))
          CATALOG.

(** A coordinate that is a whole number of player steps (5 pixels). *)
Definition multipleOfSpeed (q : Q) : Prop :=
  exists k : Z, (q == inject_Z (5 * k))%Q.

(** The player is inside the canvas: [0 <= x <= canvasWidth - width] and
    [0 <= y <= canvasHeight - height]. *)
Definition inBounds (canvasWidth canvasHeight : Q) (p : Player.t) : Prop :=
  (0 <= Player.x p <= canvasWidth - Player.width p)%Q /\
  (0 <= Player.y p <= canvasHeight - Player.height p)%Q.

(** Inside the canvas, on the grid of whole steps. *)
Definition playerOnGrid (canvasWidth canvasHeight : Q) (p : Player.t)
  : Prop :=
  multipleOfSpeed (Player.x p) /\ multipleOfSpeed (Player.y p) /\
  inBounds canvasWidth canvasHeight p.

(** [w'] differs from [w] at most in the power-up flags of the player, the
    laser, the time-slow multiplier, the manager's table and the console. *)
Definition sameSession (w w' : World) : Prop :=
  gameRunning w' = gameRunning w /\ score w' = score w /\
  lives w' = lives w /\ keys w' = keys w /\ canvas w' = canvas w /\
  bullets w' = bullets w /\ enemies w' = enemies w /\
  lastEnemySpawn w' = lastEnemySpawn w /\
  enemySpawnRate w' = enemySpawnRate w /\ lastShot w' = lastShot w /\
  gameStateManager w' = gameStateManager w /\
  powerUpManagerInitialized w' = powerUpManagerInitialized w /\
  Player.x (player w') = Player.x (player w) /\
  Player.y (player w') = Player.y (player w) /\
  Player.width (player w') = Player.width (player w) /\
  Player.height (player w') = Player.height (player w) /\
  Player.speed (player w') = Player.speed (player w).

(** The interval stays on the grid 800, 810, ..., 2000. *)
Definition spawnRateOnGrid (r : Z) : Prop :=
  GAME_CONFIG.MIN_ENEMY_SPAWN_RATE <= r
    <= GAME_CONFIG.INITIAL_ENEMY_SPAWN_RATE /\
  (r - GAME_CONFIG.MIN_ENEMY_SPAWN_RATE)
    mod GAME_CONFIG.SPAWN_RATE_DECREASE = 0.

(** The manager holds the five states registered at start-up. *)
Definition registered (w : World) : Prop :=
  GameStateManager.states (gameStateManager w)
    = GameStateManager.states registeredManager.

(** What the bullet pass leaves alone: lives, the player, the manager. *)
Definition sameLives (w w' : World) : Prop :=
  lives w' = lives w /\ player w' = player w /\
  gameStateManager w' = gameStateManager w.

(** What an explosion of the given centre and radius makes of one enemy:
    out of reach it is left as it is; in reach it takes the distance's
    damage and is dropped from the list if that destroys it. *)
Definition explosionOutcome (Math_sqrt : Q -> Q) (centerX centerY radius : Q)
    (e : Enemy.t) : list Enemy.t :=
  let distance := distanceTo Math_sqrt centerX centerY e in
  if Qle_bool distance radius then
    let (e', enemyDestroyed) :=
      Enemy.takeDamage e (explosiveDamage distance radius) in
    if enemyDestroyed then [] else [Enemy.setHealthBarVisible e' true]
  else [e].

(** ** Invariants of a session *)

(** A canvas on which the start position and both far edges fall on whole
    steps of the player. *)
Definition goodCanvas (c : Canvas.t) : Prop :=
  multipleOfSpeed (canvasWidthOr c - 30) /\
  multipleOfSpeed (canvasHeightOr c - 30) /\
  (Player.START_X <= canvasWidthOr c - 30)%Q /\
  (Player.START_Y <= canvasHeightOr c - 30)%Q.

(** The size and speed the source gives the player. *)
Definition standardPlayer (p : Player.t) : Prop :=
  Player.width p = 30%Q /\ Player.height p = 30%Q /\ Player.speed p = 5%Q.

(** The canvas is the one the session was loaded with, the manager holds
    the five registered states and, if the canvas is a good one, the player
    stands in bounds on a whole number of steps. *)
Definition gridInvariant (c : Canvas.t) (w : World) : Prop :=
  (canvas w = Some c /\ registered w) /\
  (goodCanvas c ->
   standardPlayer (player w) /\
   playerOnGrid (canvasWidthOr c) (canvasHeightOr c) (player w)).

Definition powerUpInvariant (w : World) : Prop :=
  flagsCoherent w = true /\ NoDup (JSMap.keys (activePowerUps w)).

Definition sessionInvariant (c : Canvas.t) (w : World) : Prop :=
  gridInvariant c w /\ powerUpInvariant w /\
  spawnRateOnGrid (enemySpawnRate w).

(** The fields the invariants read. *)
Definition core (w : World)
  : Player.t * JSMap.t Effect.t * option Canvas.t * Z
    * gmap string JSState :=
  (player w, activePowerUps w, canvas w, enemySpawnRate w,
   GameStateManager.states (gameStateManager w)).

(** ** Scenarios *)

(** The world on entering the game state on an 800 x 600 canvas. *)
Definition playWorld : World :=
  fst (setState "GameState" (loadedWorld (Canvas.mk 800 600))).

(** An enemy drawn with all three random numbers equal to 1/2: it has
    [maxHealth = 3]. *)
Definition midEnemy : Enemy.t := Enemy.new 800 (1 # 2) (1 # 2) (1 # 2).

(** The game world with the shield and the time slow picked up at 1000 ms
    and the laser at 2000 ms. *)
Definition poweredWorld : World :=
  fst (addPowerUp "LASER_BEAM" 2000
         (fst (addPowerUp "TIME_SLOW" 1000
                 (fst (addPowerUp "SHIELD_GENERATOR" 1000 playWorld))))).

(** Stand-ins for the [Math] builtins where a scenario has to run: a
    square root that is exact on squares of rationals, and the first terms
    of the sine and cosine series. *)
Definition sampleSqrt (q : Q) : Q :=
  (inject_Z (Z.sqrt (Qnum q * Zpos (Qden q))) / inject_Z (Zpos (Qden q)))%Q.
Definition sampleSin (x : Q) : Q := (x - x * x * x / 6)%Q.
Definition sampleCos (x : Q) : Q := (1 - x * x / 2)%Q.

Definition leftHeld : Keys.t := Keys.mk true false false false false false.

(** The game world with the player moved to x = 3 and the left arrow
    held. *)
Definition offGridWorld : World :=
  set_keys leftHeld
    (set_player (Player.setPosition (player playWorld) 3 550) playWorld).

(** The game world with the player on the left edge ([x = 0]) and the left
    arrow held. *)
Definition edgeWorld : World :=
  set_keys leftHeld
    (set_player (Player.setPosition (player playWorld) 0 550) playWorld).

(** A bullet at (100, 100) and two enemies of health 3 that both overlap
    it, stored at indices 0 and 1. *)
Definition crossfireBullet : Bullet.t := Bullet.new 100 100 0 (-7).
Definition crossfireEnemy0 : Enemy.t := Enemy.mk 90 90 30 30 1 3 3 false.
Definition crossfireEnemy1 : Enemy.t := Enemy.mk 95 95 30 30 1 3 3 false.
Definition crossfireWorld : World :=
  set_bullets [crossfireBullet]
    (set_enemies [crossfireEnemy0; crossfireEnemy1] playWorld).

(** Enemies that overlap the player's start box (385, 550, 30, 30). *)
Definition rammingEnemy (dx : Q) : Enemy.t :=
  Enemy.mk (380 + dx) 540 30 30 1 3 3 false.

(** One life left and two enemies on the player. *)
Definition lastLifeWorld : World :=
  set_lives 1 (set_enemies [rammingEnemy 0; rammingEnemy 5] playWorld).

(** Just entered, three lives, and four enemies on the player. *)
Definition swarmedWorld : World :=
  set_enemies [rammingEnemy 0; rammingEnemy 2; rammingEnemy 4;
               rammingEnemy 6] playWorld.

(** A frame in which nothing is fired, spawned or expired. *)
Definition quietFrame : FrameInput := mkFrameInput 0 0 0 0 0 0 [].

(** Three enemies of health 3 whose centres are at distances 0, 25 and 60
    from the point (115, 115). *)
Definition blastEnemy (x : Q) : Enemy.t := Enemy.mk x 100 30 30 1 3 3 false.
Definition blastWorld : World :=
  set_enemies [blastEnemy 100; blastEnemy 125; blastEnemy 160] playWorld.

(** A session: enter the game, hold the left arrow, run 78 frames. *)
Definition leftRun : list SessionEvent :=
  MenuTransition "GameState" :: KeyboardEvent leftHeld
    :: repeat (AnimationFrame quietFrame) 78.

(** A session: enter the game and, in one frame, collect a shield and a
    time slow at 1000 ms. *)
Definition pickupFrame : FrameInput :=
  mkFrameInput 0 0 0 0 0 0 [("SHIELD_GENERATOR", 1000); ("TIME_SLOW", 1000)].
Definition pickupRun : list SessionEvent :=
  [MenuTransition "GameState"; AnimationFrame pickupFrame].

(** A session that starts from a fresh game: four enemies are spawned in
    four successive frames above the player, the [k]-th with speed
    [550 / (275 - k)], so that all four reach the player in frame 276. *)
Definition swarmSpawnFrame (k : Z) : FrameInput :=
  mkFrameInput 0 (3000 * (k + 1)) (1 # 2)
               ((inject_Z 550 / inject_Z (275 - k) - 1) / 2) 0 0 [].
Definition swarmIdleFrame : FrameInput := mkFrameInput 0 12000 0 0 0 0 [].
Definition swarmApproach : list SessionEvent :=
  MenuTransition "GameState"
    :: map (fun k => AnimationFrame (swarmSpawnFrame k)) [0; 1; 2; 3]
    ++ repeat (AnimationFrame swarmIdleFrame) 271.
Definition swarmRun : list SessionEvent :=
  swarmApproach ++ [AnimationFrame swarmIdleFrame].

(** A session in which one bullet meets two enemies at once: an enemy of
    speed 1 is spawned in frame 0, one of speed 2 in frame 100, a bullet is
    fired in frame 149, and in frame 199 both enemies stand at [y = 170]
    with the bullet at [y = 193] under both. *)
Definition spaceHeld : Keys.t := Keys.mk false false false false true false.
Definition crossfireApproach : list SessionEvent :=
  [MenuTransition "GameState";
   AnimationFrame (mkFrameInput 0 3000 (380 # 770) 0 0 0 [])]
  ++ repeat (AnimationFrame (mkFrameInput 0 3000 0 0 0 0 [])) 99
  ++ [AnimationFrame (mkFrameInput 0 6000 (1 # 2) (1 # 2) 0 0 [])]
  ++ repeat (AnimationFrame (mkFrameInput 0 6000 0 0 0 0 [])) 48
  ++ [KeyboardEvent spaceHeld;
      AnimationFrame (mkFrameInput 1000 6000 0 0 0 0 [])]
  ++ repeat (AnimationFrame (mkFrameInput 1000 6000 0 0 0 0 [])) 49.
Definition crossfireFrame : SessionEvent :=
  AnimationFrame (mkFrameInput 1000 6000 0 0 0 0 []).

(** ** The tally of a session *)

(** The class of the current state, if it is an instance of one. *)
Definition currentClass (w : World) : option StateClass :=
  match GameStateManager.currentState (gameStateManager w) with
  | Some (JSInstance cls _) => Some cls
  | _ => None
  end.

(** [GameState] is the current state. *)
Definition inGame (w : World) : bool :=
  match currentClass w with Some GameState => true | _ => false end.

(** The manager as [initializeStateManager()] leaves it: initialised, with
    its five states. *)
Definition managerReady (w : World) : Prop :=
  registered w /\ GameStateManager.initialized (gameStateManager w) = true.

(** The fields that say how the game stands. *)
Definition ledger (w : World) : Z * Z * GameStateManager.t * bool :=
  (score w, lives w, gameStateManager w, gameRunning w).

(** From [w] to [w'] the score has grown by a multiple of 10, no life has
    been gained, if [GameState] is current in [w'] it was current in [w],
    with [gameRunning] as it was, and if [GameOverState] is current in [w']
    it was current in [w] or no life is left. *)
Definition advances (w w' : World) : Prop :=
  managerReady w' /\
  score w <= score w' /\ (score w' - score w) mod 10 = 0 /\
  lives w' <= lives w /\
  (inGame w' = true -> inGame w = true /\ gameRunning w' = gameRunning w) /\
  (currentClass w' = Some GameOverState ->
   currentClass w = Some GameOverState \/ lives w' <= 0).

Definition tallyInvariant (w : World) : Prop :=
  managerReady w /\ 0 <= score w /\ score w mod 10 = 0 /\ lives w <= 3 /\
  (inGame w = true -> gameRunning w = true /\ 0 < lives w).

(** The names under which [initializeStateManager()] registers a state. *)
Definition STATE_NAMES : list string :=
  ["IntroState"; "CharacterSelectState"; "GameState"; "PauseState";
   "GameOverState"].

(** ** The enemies of a session *)




(** ** Remaining time (game.js, 2253-2261) *)

(** [Math.max(0, endTime - now)] *)
Definition remainingOf (now : Z) (endTime : JSNumber) : JSNumber :=
  match endTime with
  | Num z => Num (Z.max 0 (z - now))
  | NaN => NaN
  end.

(** [getRemainingTime(type)], with the value [now] of [Date.now()]; the
    table has the type exactly if [get] finds an effect. *)
Definition getRemainingTime (type : string) (now : Z) (w : World)
  : JSNumber :=
  match JSMap.get (activePowerUps w) type with
  | None => Num 0
  | Some effect => remainingOf now (Effect.endTime effect)
  end.

(** ** The laser sweep (game.js, 1588-1634) *)

(** The beam is a column of width 8 from the top of the canvas down to the
    player, centred on the player. *)
Definition laserHitsEnemy (p : Player.t) (e : Enemy.t) : bool :=
  let laserX := (Player.x p + Player.width p / 2 - 8 / 2)%Q in
  let laserY := 0%Q in
  let laserWidth := 8%Q in
  let laserHeight := Player.y p in
  Qltb (Enemy.x e) (laserX + laserWidth)
  && Qltb laserX (Enemy.x e + Enemy.width e)
  && Qltb (Enemy.y e) (laserY + laserHeight)
  && Qltb laserY (Enemy.y e + Enemy.height e).

(** One iteration of the loop of [checkLaserCollisions], for index [i]. *)
Definition laserStep (beam : LaserBeam.t) (i : nat) (w : World) : World :=
  match enemies w !! i with
  | None => w
  | Some enemy =>
      if laserHitsEnemy (player w) enemy then
        let enemy' := fst (Enemy.takeDamage enemy (LaserBeam.damage beam)) in
        if Enemy.isDestroyed enemy'
        then set_score (score w + 10)
                       (set_enemies (delete i (enemies w)) w)
        else set_enemies (<[i := enemy']> (enemies w)) w
      else w
  end.

(** [checkLaserCollisions()] *)
Definition checkLaserCollisions (beam : LaserBeam.t) (w : World) : World :=
  if negb (LaserBeam.active beam) then w
  else loopDown (laserStep beam) (length (enemies w)) w.

(** [LaserBeam.update()]; the pulse of the beam is not part of the
    world. *)
Definition LaserBeam_update (beam : LaserBeam.t) (w : World) : World :=
  if negb (LaserBeam.active beam) then w else checkLaserCollisions beam w.

(** What the sweep makes of one enemy. *)
Definition laserOutcome (p : Player.t) (damage : Z) (e : Enemy.t)
  : list Enemy.t :=
  if laserHitsEnemy p e then
    let e' := fst (Enemy.takeDamage e damage) in
    if Enemy.isDestroyed e' then [] else [e']
  else [e].

(** ** The game without a state manager (game.js, 3688-3724 and
    4286-4343) *)

Section Fallback.
Variables Math_sqrt Math_sin Math_cos : Q -> Q.

(** The global [update()]. *)
Definition update (inp : FrameInput) (w : World) : World :=
  if negb (gameRunning w) then w
  else
    let w := handleInput Math_sin Math_cos (nowShoot inp) w in
    let w := spawnEnemy (nowSpawn inp) (randomX inp) (randomSpeed inp)
                        (randomHealth inp) w in
    let w := updateBullets w in
    let w := updateEnemies w in
    let w := match laserBeam w with
             | Some beam => if laserActive w then LaserBeam_update beam w
                            else w
             | None => w
             end in
    let w := if powerUpManagerInitialized w
             then PowerUpManager_updatePowerUps (nowPowerUps inp) w
             else w in
    let w := checkCollisions Math_sqrt w in
    checkPowerUpCollisions (collected inp) w.

(** [gameLoop()], without the drawing. *)
Definition gameLoop (inp : FrameInput) (w : World) : World :=
  if GameStateManager.isReady (gameStateManager w)
  then managerUpdate Math_sqrt Math_sin Math_cos inp w
  else update inp w.
End Fallback.

(** [restartGame()] *)
Definition restartGame (w : World) : World :=
  if GameStateManager.isReady (gameStateManager w)
  then fst (setState "GameState" w)
  else
    let w := set_gameRunning true w in
    let w := set_score 0 w in
    let w := set_lives 3 w in
    let w := set_bullets [] w in
    let w := set_enemies [] w in
    let w := set_lastEnemySpawn 0 w in
    let w := set_enemySpawnRate GAME_CONFIG.INITIAL_ENEMY_SPAWN_RATE w in
    let w := if powerUpManagerInitialized w then fst (clearAllPowerUps w)
             else w in
    let w := set_timeSlowMultiplier 1
               (set_player (Player.reset (player w)) w) in
    updateLives 0 (updateScore 0 w).

(** A page on which [initializeStateManager()] has not run: the powered
    world with 70 points, one life and a fresh manager. *)
Definition fallbackWorld : World :=
  set_gameStateManager GameStateManager.new
    (set_score 70 (set_lives 1 poweredWorld)).

(** The world of the two overlapping enemies with an active laser, the
    player at (385, 550): the beam covers x in (396, 404). *)
Definition sweptWorld : World :=
  set_enemies [Enemy.mk 380 100 30 30 1 3 1 true;
               Enemy.mk 390 300 30 30 1 3 3 false;
               Enemy.mk 500 200 30 30 1 3 3 false] playWorld.

(** ** The pickups on screen (game.js, 1945-2022, 2051-2066 and
    2452-2481)

    The global [powerUps] is kept beside the world, as a list of its
    own. *)

(** [PowerUp.update()]; the pulse and the glow are not part of the
    record. *)
Definition PowerUp_update (u : PowerUp.t) : PowerUp.t :=
  PowerUp.mk (PowerUp.x u) (PowerUp.y u + PowerUp.speed u) (PowerUp.width u)
             (PowerUp.height u) (PowerUp.speed u) (PowerUp.type u)
             (PowerUp.typeConfig u) (PowerUp.collected u).

(** [PowerUp.isOffScreen()] *)
Definition PowerUp_isOffScreen (canvas : option Canvas.t) (u : PowerUp.t)
  : bool :=
  let canvasHeight := match canvas with
                      | Some c => Canvas.height c
                      | None => GAME_CONFIG.CANVAS_HEIGHT
                      end in
  Qltb canvasHeight (PowerUp.y u).

(** The global [updatePowerUps()]. *)
Definition updatePowerUps (canvas : option Canvas.t)
    (powerUps : list PowerUp.t) : list PowerUp.t :=
  loopDown
    (fun i powerUps =>
       match powerUps !! i with
       | None => powerUps
       | Some u =>
           let u' := PowerUp_update u in
           let powerUps := <[i := u']> powerUps in
           if PowerUp_isOffScreen canvas u' || PowerUp.collected u'
           then delete i powerUps
           else powerUps
       end)
    (length powerUps) powerUps.

(** The box test of [checkPowerUpCollisions()]. *)
Definition playerTouches (p : Player.t) (u : PowerUp.t) : bool :=
  boxesOverlap (PowerUp.x u) (PowerUp.y u) (PowerUp.width u)
               (PowerUp.height u)
               (Player.x p) (Player.y p) (Player.width p) (Player.height p).

(** One iteration of the loop of [checkPowerUpCollisions()], for index
    [i]; [clock i] is the value of [Date.now()] in the call of
    [addPowerUp] made for that index. *)
Definition pickupStep (clock : nat -> Z) (i : nat)
    (s : list PowerUp.t * World) : list PowerUp.t * World :=
  let (powerUps, w) := s in
  match powerUps !! i with
  | None => s
  | Some powerUp =>
      if PowerUp.collected powerUp then s
      else if playerTouches (player w) powerUp then
        let w := if powerUpManagerInitialized w
                 then fst (addPowerUp (PowerUp.type powerUp) (clock i) w)
                 else w in
        (delete i powerUps, w)
      else s
  end.

(** [checkPowerUpCollisions()] on the pickups and the world. *)
Definition collectPowerUps (clock : nat -> Z) (powerUps : list PowerUp.t)
    (w : World) : list PowerUp.t * World :=
  loopDown (pickupStep clock) (length powerUps) (powerUps, w).

(** A pickup that is still to collect and overlaps the player. *)
Definition touched (p : Player.t) (u : PowerUp.t) : bool :=
  negb (PowerUp.collected u) && playerTouches p u.

(** The types of the touched pickups among the first [n], last index
    first, each with the time of its index. *)
Fixpoint touchedPickups (clock : nat -> Z) (p : Player.t) (n : nat)
    (powerUps : list PowerUp.t) : list (string * Z) :=
  match n with
  | O => []
  | S i =>
      match powerUps !! i with
      | Some u =>
          if touched p u
          then (PowerUp.type u, clock i) :: touchedPickups clock p i powerUps
          else touchedPickups clock p i powerUps
      | None => touchedPickups clock p i powerUps
      end
  end.

(** Three pickups on an 800 x 600 canvas: one on the player at the start
    position, one about to leave the canvas, one in mid-air. *)
Definition samplePickups : list PowerUp.t :=
  [PowerUp.new 390 560 "TIME_SLOW"; PowerUp.new 100 599 "RAPID_FIRE";
   PowerUp.new 395 545 "SHIELD_GENERATOR"].

(** ** After the collision pass *)

(** The box of an enemy. *)
Definition box (e : Enemy.t) : Q * Q * Q * Q :=
  (Enemy.x e, Enemy.y e, Enemy.width e, Enemy.height e).

(** Every enemy of [es'] stands where an enemy of [es] stands. *)
Definition boxesWithin (es' es : list Enemy.t) : Prop :=
  forall e', In e' es' -> exists e, In e es /\ box e' = box e.

(** No bullet of [bs] overlaps an enemy of [es]. *)
Definition clearOf (bs : list Bullet.t) (es : list Enemy.t) : Prop :=
  forall b e, In b bs -> In e es -> bulletHitsEnemy b e = false.

(** ** Effects and the table of the manager *)

(** What the hooks of the manager write to, and the table they follow. *)
Definition gear (w : World)
  : Player.t * JSMap.t Effect.t * Q * bool * bool :=
  (player w, activePowerUps w, timeSlowMultiplier w, laserActive w,
   powerUpManagerInitialized w).

(** The manager is initialized, the keys of its table are distinct, a flag
    of the player is on exactly if its type is in the table, the time-slow
    multiplier is 1/2 exactly if Time Slow is in the table, and 1
    otherwise, and the laser is active exactly if Laser Beam is in the
    table. *)
Definition effectsExact (w : World) : Prop :=
  powerUpManagerInitialized w = true /\
  NoDup (JSMap.keys (activePowerUps w)) /\
  (forall T cfg, In (T, cfg) CATALOG ->
     flagOf T (player w) = JSMap.has (activePowerUps w) T) /\
  timeSlowMultiplier w
    = (if JSMap.has (activePowerUps w) "TIME_SLOW" then 1 # 2 else 1)%Q /\
  laserActive w = JSMap.has (activePowerUps w) "LASER_BEAM".

(** ** Themes (game.js, 2486-2822)

    Of a theme, the name, the display name and the spaceships are kept;
    the colours, the enemy sprites and the background are read by the
    drawing code and by [getEnemyConfig] only. *)

Module Spaceship.
Record t : Set := mk {
  id : string; name : string; sprite : string; speed : Q; fireRate : Q
}.
End Spaceship.

Module Theme.
Record t : Set := mk {
  name : string; displayName : string; spaceships : list Spaceship.t
}.
End Theme.

Definition MASKED_RIDER : Theme.t :=
  Theme.mk "masked-rider" "Masked Rider"
    [Spaceship.mk "rider-1" "Rider Alpha" "drawMaskedRiderShip1" 5 1;
     Spaceship.mk "rider-2" "Rider Beta" "drawMaskedRiderShip2" 4 (12 # 10);
     Spaceship.mk "rider-3" "Rider Gamma" "drawMaskedRiderShip3" 6 (8 # 10)].
Definition ULTRAMAN : Theme.t :=
  Theme.mk "ultraman" "Ultraman"
    [Spaceship.mk "ultra-1" "Ultra Fighter" "drawUltramanShip1" 5 1;
     Spaceship.mk "ultra-2" "Ultra Defender" "drawUltramanShip2" 3
                  (15 # 10);
     Spaceship.mk "ultra-3" "Ultra Striker" "drawUltramanShip3" 7 (7 # 10)].
Definition GODZILLA : Theme.t :=
  Theme.mk "godzilla" "Godzilla"
    [Spaceship.mk "kaiju-1" "Kaiju Hunter" "drawGodzillaShip1" 4 (11 # 10);
     Spaceship.mk "kaiju-2" "Monster Slayer" "drawGodzillaShip2" 5 (9 # 10);
     Spaceship.mk "kaiju-3" "Titan Destroyer" "drawGodzillaShip3" 6
                  (8 # 10)].

(** The three entries of the object literal [THEME_CONFIGS], by key, in
    the order of [Object.keys]. *)
Definition THEMES : list (string * Theme.t) :=
  [("masked-rider", MASKED_RIDER); ("ultraman", ULTRAMAN);
   ("godzilla", GODZILLA)].

(** The result of a property read [THEME_CONFIGS[key]]; as for
    [POWER_UP_TYPES], the read also finds what every object inherits. *)
Inductive ThemeValue : Set :=
| OwnTheme (theme : Theme.t)
| InheritedTheme (property : string)
| UndefinedTheme.

Definition THEME_CONFIGS (key : string) : ThemeValue :=
  match assoc THEMES key with
  | Some theme => OwnTheme theme
  | None =>
      if existsb (String.eqb key) OBJECT_PROTOTYPE_PROPERTIES
      then InheritedTheme key else UndefinedTheme
  end.

(** A key that may be [undefined] or [null]; the property read then uses
    the string of that value, which names no property. *)
Definition themeConfigOf (key : option string) : ThemeValue :=
  match key with
  | Some k => THEME_CONFIGS k
  | None => UndefinedTheme
  end.

(** Truthiness of a value that is a string, [null] or [undefined]. *)
Definition value_truthy (v : option string) : bool :=
  match v with
  | Some s => string_truthy s
  | None => false
  end.

(** The shallow copy [{ ...themeConfig }]: the copy of a theme has its
    properties, the copy of an inherited member has none. *)
Inductive ThemeObject : Set :=
| ThemeCopy (theme : Theme.t)
| EmptyObject.

Definition shallowCopy (v : ThemeValue) : ThemeObject :=
  match v with
  | OwnTheme theme => ThemeCopy theme
  | _ => EmptyObject
  end.

(** [spaceships.find(ship => ship.id === spaceshipId)] *)
Definition findShip (ships : list Spaceship.t) (spaceshipId : string)
  : option Spaceship.t :=
  find (fun ship => String.eqb (Spaceship.id ship) spaceshipId) ships.

(** [spaceships.some(ship => ship.id === spaceshipId)] *)
Definition someShip (ships : list Spaceship.t) (spaceshipId : string)
  : bool :=
  existsb (fun ship => String.eqb (Spaceship.id ship) spaceshipId) ships.

Module ThemeManager.
Record t : Type := mk {
  currentTheme : option ThemeObject;
  selectedSpaceship : option Spaceship.t;
  themeCache : JSMap.t ThemeObject;
  initialized : bool
}.

(** constructor *)
Definition new : t := mk None None [] false.

(** [loadTheme(themeName)]: both [throw]s are caught inside the method,
    which then returns [false]; [applyThemeStyles()] catches its own
    errors and writes to the page only. *)
Definition loadTheme (m : t) (themeName : string) : t * bool :=
  if negb (string_truthy themeName) then (m, false)
  else
    match THEME_CONFIGS themeName with
    | UndefinedTheme => (m, false)
    | themeConfig =>
        let cache :=
          if JSMap.has (themeCache m) themeName then themeCache m
          else JSMap.set (themeCache m) themeName (shallowCopy themeConfig) in
        (mk (JSMap.get cache themeName) (selectedSpaceship m) cache
            (initialized m), true)
    end.

(** [initialize()] *)
Definition initialize (m : t) : t * bool :=
  let m1 := fst (loadTheme m "masked-rider") in
  (mk (currentTheme m1) (selectedSpaceship m1) (themeCache m1) true, true).

(** [getSpaceshipOptions(themeName = null)]: [theme.spaceships || []]. *)
Definition getSpaceshipOptions (m : t) (themeName : option string)
  : list Spaceship.t :=
  if value_truthy themeName then
    match themeConfigOf themeName with
    | OwnTheme theme => Theme.spaceships theme
    | _ => []
    end
  else
    match currentTheme m with
    | Some (ThemeCopy theme) => Theme.spaceships theme
    | _ => []
    end.

(** [setSelectedSpaceship(spaceshipId)]: without a theme, with a theme
    object that has no [spaceships] (the [find] call then raises a
    [TypeError]) and with an unknown id, the error is caught and the
    method returns [false]. *)
Definition setSelectedSpaceship (m : t) (spaceshipId : string) : t * bool :=
  match currentTheme m with
  | Some (ThemeCopy theme) =>
      match findShip (Theme.spaceships theme) spaceshipId with
      | Some spaceship =>
          (mk (currentTheme m) (Some spaceship) (themeCache m)
              (initialized m), true)
      | None => (m, false)
      end
  | _ => (m, false)
  end.

(** [clearCache()] *)
Definition clearCache (m : t) : t * bool :=
  (mk (currentTheme m) (selectedSpaceship m) [] (initialized m), true).

(** [isReady()] *)
Definition isReady (m : t) : bool :=
  initialized m && match currentTheme m with Some _ => true | None => false end.
End ThemeManager.

(** [initializeThemeManager()] *)
Definition initializeThemeManager : ThemeManager.t * bool :=
  let m := fst (ThemeManager.initialize ThemeManager.new) in
  match ThemeManager.getSpaceshipOptions m None with
  | first :: _ => (fst (ThemeManager.setSelectedSpaceship
                          m (Spaceship.id first)), true)
  | [] => (m, true)
  end.

(** ** The character selection (game.js, 508-1240) *)

(** [Object.keys(THEME_CONFIGS)] *)
Definition themeKeys : list string := map fst THEMES.

(** [themes.indexOf(themeName)] *)
Fixpoint indexFrom (i : Z) (keys : list string) (themeName : string) : Z :=
  match keys with
  | [] => -1
  | k :: keys' =>
      if String.eqb k themeName then i else indexFrom (i + 1) keys' themeName
  end.

Definition indexOfTheme (themeName : option string) : Z :=
  match themeName with
  | Some n => indexFrom 0 themeKeys n
  | None => -1
  end.

(** [themes[index]] *)
Definition themeAt (index : Z) : option string :=
  if index <? 0 then None else themeKeys !! Z.to_nat index.

Module CharacterSelect.
Record t : Set := mk {
  currentThemeIndex : Z;
  selectedTheme : option string;
  selectedSpaceship : option string
}.

(** constructor *)
Definition new : t := mk 0 (Some "masked-rider") None.

(** [selectTheme(themeName)]: for a key that only finds an inherited
    member, [spaceships.some] raises a [TypeError] when a spaceship is
    selected; the error is caught after [selectedTheme] has been written
    and before the index is. *)
Definition selectTheme (s : t) (themeName : option string) : t :=
  let spaceshipSelected := value_truthy (selectedSpaceship s) in
  match themeConfigOf themeName with
  | OwnTheme theme =>
      let spaceshipExists :=
        match selectedSpaceship s with
        | Some id => someShip (Theme.spaceships theme) id
        | None => false
        end in
      mk (indexOfTheme themeName) themeName
         (if spaceshipSelected && negb spaceshipExists then None
          else selectedSpaceship s)
  | InheritedTheme _ =>
      if spaceshipSelected
      then mk (currentThemeIndex s) themeName (selectedSpaceship s)
      else mk (indexOfTheme themeName) themeName (selectedSpaceship s)
  | UndefinedTheme =>
      mk (indexOfTheme themeName) themeName (selectedSpaceship s)
  end.

(** [selectSpaceship(spaceshipId)] *)
Definition selectSpaceship (s : t) (spaceshipId : option string) : t :=
  mk (currentThemeIndex s) (selectedTheme s) spaceshipId.


(** [nextTheme()] *)
Definition nextTheme (s : t) : t :=
  if currentThemeIndex s <? Z.of_nat (length themeKeys) - 1 then
    let index := currentThemeIndex s + 1 in
    selectTheme (mk index (selectedTheme s) (selectedSpaceship s))
                (themeAt index)
  else s.
End CharacterSelect.

(** [confirmSelection()], with the theme manager and the world it writes
    to; [saveSelections()] writes to the session storage only. *)
Definition confirmSelection (s : CharacterSelect.t) (m : ThemeManager.t)
    (w : World) : ThemeManager.t * World :=
  match CharacterSelect.selectedTheme s,
        CharacterSelect.selectedSpaceship s with
  | Some theme, Some spaceship =>
      if string_truthy theme && string_truthy spaceship then
        let m1 := fst (ThemeManager.loadTheme m theme) in
        let m2 := fst (ThemeManager.setSelectedSpaceship m1 spaceship) in
        (m2, fst (setState "GameState" w))
      else (m, w)
  | _, _ => (m, w)
  end.

(** Every cached object is the copy of the entry of its key. *)
Definition cacheFaithful (m : ThemeManager.t) : Prop :=
  forall key object,
    JSMap.get (ThemeManager.themeCache m) key = Some object ->
    object = shallowCopy (THEME_CONFIGS key).

(** The carousel shows a theme: the selected theme is one of the three,
    the index is its index, and a selected spaceship is one of its
    spaceships. *)
Definition onCarousel (s : CharacterSelect.t) : bool :=
  match CharacterSelect.selectedTheme s with
  | Some themeName =>
      match assoc THEMES themeName with
      | Some theme =>
          (CharacterSelect.currentThemeIndex s
           =? indexOfTheme (Some themeName))
          && match CharacterSelect.selectedSpaceship s with
             | Some id => someShip (Theme.spaceships theme) id
             | None => true
             end
      | None => false
      end
  | None => false
  end.

(** The twelve states of the carousel: a theme, and none or one of its
    spaceships. *)
Definition carouselStates : list CharacterSelect.t :=
  flat_map
    (fun entry : string * Theme.t =>
       map (CharacterSelect.mk (indexOfTheme (Some (fst entry)))
                               (Some (fst entry)))
           (None :: map (fun ship => Some (Spaceship.id ship))
                        (Theme.spaceships (snd entry))))
    THEMES.

(** * Properties *)

(** ** Registration of states *)

Lemma string_truthy_true (s : string) : s <> "" -> string_truthy s = true.
Proof.
  intros Hs. unfold string_truthy.
  destruct (String.eqb_spec s ""); [contradiction | reflexivity].
Qed.

Lemma not_interface_not_instance (state : JSState) :
  implementsInterface state = false ->
  state_truthy state = false \/ instanceofState state = false.
Proof. destruct state; simpl; intros H; auto; discriminate. Qed.

(** C2, as stated, fails: on the manager built by [initializeStateManager]
    the name "GameState" is registered, and registering another state under
    it returns [true] and replaces the stored state. *)
Lemma addState_reuse_is_accepted :
  GameStateManager.states registeredManager !! "GameState"
    = Some (JSInstance GameState 2) /\
  GameStateManager.addState registeredManager "GameState"
    (JSInstance PauseState 7)
    = (GameStateManager.mk None
         (<["GameState" := JSInstance PauseState 7]>
            (GameStateManager.states registeredManager)) true, true) /\
  ~ register_rejects_reuse registeredManager "GameState"
      (JSInstance PauseState 7).
Proof.
  split; [reflexivity |]. split; [reflexivity |].
  intros [Hret _]. discriminate Hret.
Qed.

(** C2, amended: [addState] has no check for a name that is already taken.
    Registering a [State] instance under a registered, non-empty name
    succeeds and replaces the state stored for that name (other names and
    the number of names are unchanged); registration fails and leaves
    the manager as it was when the supplied state does not implement the
    interface. *)
Theorem addState_reuse_replaces
    (m : GameStateManager.t) (name : string) (old : JSState)
    (cls : StateClass) (oid : nat) :
  GameStateManager.states m !! name = Some old ->
  name <> "" ->
  let r := GameStateManager.addState m name (JSInstance cls oid) in
  snd r = true /\
  GameStateManager.states (fst r) !! name = Some (JSInstance cls oid) /\
  size (GameStateManager.states (fst r)) = size (GameStateManager.states m) /\
  (forall other : string, other <> name ->
     GameStateManager.states (fst r) !! other
       = GameStateManager.states m !! other) /\
  (forall state : JSState, implementsInterface state = false ->
     GameStateManager.addState m name state = (m, false)).
Proof.
  intros Hold Hname r. subst r. unfold GameStateManager.addState.
  rewrite (string_truthy_true name Hname). simpl.
  repeat split.
  - apply lookup_insert_eq.
  - apply map_size_insert_Some. exists old. exact Hold.
  - intros other Hne. apply lookup_insert_ne. congruence.
  - intros state Hstate.
    destruct (not_interface_not_instance state Hstate) as [H | H];
      rewrite H; simpl; [reflexivity |].
    destruct (state_truthy state); reflexivity.
Qed.

Lemma addState_reuse_replaces_witness :
  let r := GameStateManager.addState registeredManager "GameState"
             (JSInstance PauseState 7) in
  snd r = true /\
  GameStateManager.states (fst r) !! "GameState"
    = Some (JSInstance PauseState 7) /\
  size (GameStateManager.states (fst r))
    = size (GameStateManager.states registeredManager) /\
  (forall other : string, other <> "GameState" ->
     GameStateManager.states (fst r) !! other
       = GameStateManager.states registeredManager !! other) /\
  (forall state : JSState, implementsInterface state = false ->
     GameStateManager.addState registeredManager "GameState" state
       = (registeredManager, false)).
Proof.
  apply (addState_reuse_replaces registeredManager "GameState"
           (JSInstance GameState 2) PauseState 7).
  - reflexivity.
  - discriminate.
Defined.

(** ** What the power-up manager leaves alone *)

Lemma sameSession_refl (w : World) : sameSession w w.
Proof. unfold sameSession. repeat split. Qed.

Lemma sameSession_trans (w1 w2 w3 : World) :
  sameSession w1 w2 -> sameSession w2 w3 -> sameSession w1 w3.
Proof.
  unfold sameSession. intros H12 H23.
  repeat match goal with H : _ /\ _ |- _ => destruct H end.
  repeat split; congruence.
Qed.

Lemma applyPowerUpEffect_sameSession (type : string) (activate : bool)
    (w : World) :
  sameSession w (applyPowerUpEffect type activate w) /\
  activePowerUps (applyPowerUpEffect type activate w) = activePowerUps w.
Proof.
  unfold applyPowerUpEffect, sameSession.
  repeat match goal with
         | |- context [String.eqb type ?s] => destruct (String.eqb type s)
         end;
    destruct activate; try (repeat split; reflexivity);
    unfold activateLaserBeam, deactivateLaserBeam;
    destruct (laserBeam (log _ w)); repeat split; reflexivity.
Qed.

Lemma deactivate_all_sameSession (types : list string) (w : World) :
  let w' := deactivateAllEffects types w in
  sameSession w w' /\ activePowerUps w' = activePowerUps w.
Proof.
  unfold deactivateAllEffects.
  revert w. induction types as [| type types IH]; intros w; simpl.
  - split; [apply sameSession_refl | reflexivity].
  - destruct (applyPowerUpEffect_sameSession type false w) as [H1 H2].
    destruct (IH (applyPowerUpEffect type false w)) as [H3 H4].
    split; [eapply sameSession_trans; eassumption | congruence].
Qed.

Lemma clearAllPowerUps_sameSession (w : World) :
  sameSession w (fst (clearAllPowerUps w)).
Proof.
  unfold clearAllPowerUps.
  destruct (deactivate_all_sameSession (JSMap.keys (activePowerUps w)) w)
    as [H _].
  simpl in H. set (w1 := deactivateAllEffects _ w) in *.
  eapply sameSession_trans; [exact H |].
  unfold sameSession; simpl.
  destruct (laserBeam w1); repeat split; reflexivity.
Qed.

Lemma GameState_enter_session (w : World) :
  let w' := GameState_enter w in
  gameRunning w' = true /\ score w' = 0 /\ lives w' = 3 /\
  bullets w' = [] /\ enemies w' = [] /\
  enemySpawnRate w' = GAME_CONFIG.INITIAL_ENEMY_SPAWN_RATE /\
  Player.x (player w') = Player.START_X /\
  Player.y (player w') = Player.START_Y /\
  canvas w' = canvas w.
Proof.
  unfold GameState_enter. cbv zeta.
  set (w1 := set_timeSlowMultiplier 1 _).
  assert (H1 : gameRunning w1 = true /\ score w1 = 0 /\ lives w1 = 3 /\
    bullets w1 = [] /\ enemies w1 = [] /\
    enemySpawnRate w1 = GAME_CONFIG.INITIAL_ENEMY_SPAWN_RATE /\
    Player.x (player w1) = Player.START_X /\
    Player.y (player w1) = Player.START_Y /\ canvas w1 = canvas w)
    by (repeat split).
  clearbody w1.
  set (w2 := if powerUpManagerInitialized w1 then _ else _).
  assert (H2 : sameSession w1 w2).
  { subst w2. destruct (powerUpManagerInitialized w1).
    - apply clearAllPowerUps_sameSession.
    - apply sameSession_refl. }
  clearbody w2. unfold sameSession in H2.
  unfold updateLives, updateScore.
  cbn [gameRunning score lives bullets enemies enemySpawnRate player canvas
       set_lives set_score].
  intuition (try congruence; try lia).
Qed.

(** ** The spawner *)

Lemma spawnEnemy_rate (now : Z) (r1 r2 r3 : Q) (w : World) :
  enemySpawnRate (spawnEnemy now r1 r2 r3 w) =
  if (enemySpawnRate w <? now - lastEnemySpawn w)
     && (GAME_CONFIG.MIN_ENEMY_SPAWN_RATE <? enemySpawnRate w)
  then enemySpawnRate w - GAME_CONFIG.SPAWN_RATE_DECREASE
  else enemySpawnRate w.
Proof.
  unfold spawnEnemy.
  destruct (enemySpawnRate w <? now - lastEnemySpawn w); simpl;
    [| reflexivity].
  destruct (GAME_CONFIG.MIN_ENEMY_SPAWN_RATE <? enemySpawnRate w);
    reflexivity.
Qed.

Lemma spawnEnemy_keeps_grid (now : Z) (r1 r2 r3 : Q) (w : World) :
  spawnRateOnGrid (enemySpawnRate w) ->
  spawnRateOnGrid (enemySpawnRate (spawnEnemy now r1 r2 r3 w)).
Proof.
  rewrite spawnEnemy_rate. unfold spawnRateOnGrid.
  unfold GAME_CONFIG.MIN_ENEMY_SPAWN_RATE,
    GAME_CONFIG.INITIAL_ENEMY_SPAWN_RATE, GAME_CONFIG.SPAWN_RATE_DECREASE.
  intros [Hb Hm].
  destruct (enemySpawnRate w <? now - lastEnemySpawn w); simpl;
    [| split; assumption].
  destruct (Z.ltb_spec 800 (enemySpawnRate w)); [| split; assumption].
  assert (Hdiv : (enemySpawnRate w - 800 - 10) mod 10 = 0).
  { replace (enemySpawnRate w - 800 - 10)
      with (enemySpawnRate w - 800 + (-1) * 10) by ring.
    rewrite Z.mod_add by lia. exact Hm. }
  replace (enemySpawnRate w - 10 - 800) with (enemySpawnRate w - 800 - 10)
    by ring.
  split; [| exact Hdiv].
  pose proof (Z.div_mod (enemySpawnRate w - 800) 10 ltac:(lia)) as Hdm.
  rewrite Hm in Hdm. lia.
Qed.

Lemma runSpawner_keeps_grid (calls : list (Z * Q * Q * Q)) (w : World) :
  spawnRateOnGrid (enemySpawnRate w) ->
  spawnRateOnGrid (enemySpawnRate (runSpawner calls w)).
Proof.
  revert w. induction calls as [| [[[now r1] r2] r3] calls IH]; intros w Hw.
  - exact Hw.
  - simpl. apply IH. apply spawnEnemy_keeps_grid. exact Hw.
Qed.

(** C7.  From the interval set on entering the game state (2000 ms), after
    any sequence of spawner calls, one more call leaves the interval
    unchanged or, when it spawns while the interval is above the floor,
    lowers it by exactly 10 ms; the interval is never below 800 ms and never
    grows. *)
Theorem spawn_interval_nonincreasing_and_bounded
    (w0 : World) (calls : list (Z * Q * Q * Q)) (now : Z) (r1 r2 r3 : Q) :
  let w := runSpawner calls (GameState_enter w0) in
  let w' := spawnEnemy now r1 r2 r3 w in
  GAME_CONFIG.MIN_ENEMY_SPAWN_RATE <= enemySpawnRate w' /\
  enemySpawnRate w' <= enemySpawnRate w /\
  enemySpawnRate w <= GAME_CONFIG.INITIAL_ENEMY_SPAWN_RATE /\
  enemySpawnRate w' =
    (if (enemySpawnRate w <? now - lastEnemySpawn w)
        && (GAME_CONFIG.MIN_ENEMY_SPAWN_RATE <? enemySpawnRate w)
     then enemySpawnRate w - GAME_CONFIG.SPAWN_RATE_DECREASE
     else enemySpawnRate w).
Proof.
  intros w w'.
  assert (Hw : spawnRateOnGrid (enemySpawnRate w)).
  { apply runSpawner_keeps_grid.
    destruct (GameState_enter_session w0) as (_ & _ & _ & _ & _ & Hr & _).
    rewrite Hr. unfold spawnRateOnGrid. split; [| reflexivity].
    unfold GAME_CONFIG.MIN_ENEMY_SPAWN_RATE,
      GAME_CONFIG.INITIAL_ENEMY_SPAWN_RATE. lia. }
  pose proof (spawnEnemy_keeps_grid now r1 r2 r3 w Hw) as Hw'.
  fold w' in Hw'. destruct Hw as [[Hlo Hhi] _]. destruct Hw' as [[Hlo' _] _].
  pose proof (spawnEnemy_rate now r1 r2 r3 w) as Hr. fold w' in Hr.
  repeat split; try assumption.
  rewrite Hr.
  destruct ((enemySpawnRate w <? now - lastEnemySpawn w)
            && (GAME_CONFIG.MIN_ENEMY_SPAWN_RATE <? enemySpawnRate w));
    unfold GAME_CONFIG.SPAWN_RATE_DECREASE; lia.
Qed.

(** ** Enemy health *)

Lemma Enemy_new_health (canvasWidth r1 r2 r3 : Q) :
  (0 <= r3)%Q -> (r3 < 1)%Q ->
  let e := Enemy.new canvasWidth r1 r2 r3 in
  2 <= Enemy.maxHealth e <= 4 /\ Enemy.currentHealth e = Enemy.maxHealth e.
Proof.
  intros H0 H1 e. subst e. unfold Enemy.new.
  cbn [Enemy.maxHealth Enemy.currentHealth]. split; [| reflexivity].
  assert (Hlo : 0 <= Qfloor (r3 * 3)).
  { change 0 with (Qfloor 0). apply Qfloor_resp_le. lra. }
  assert (Hhi : Qfloor (r3 * 3) < 3).
  { rewrite Zlt_Qlt. eapply Qle_lt_trans; [apply Qfloor_le |].
    change (inject_Z 3) with 3%Q. lra. }
  lia.
Qed.

Lemma takeDamage_health (e : Enemy.t) (amount : Z) :
  Enemy.currentHealth (fst (Enemy.takeDamage e amount))
    = Z.max 0 (Enemy.currentHealth e - amount) /\
  Enemy.maxHealth (fst (Enemy.takeDamage e amount)) = Enemy.maxHealth e /\
  snd (Enemy.takeDamage e amount)
    = (Enemy.currentHealth (fst (Enemy.takeDamage e amount)) <=? 0).
Proof.
  unfold Enemy.takeDamage, Enemy.isDestroyed. simpl.
  repeat split.
  destruct (Z.ltb_spec (Enemy.currentHealth e - amount) 0); lia.
Qed.

Lemma hits_health (n : nat) (e : Enemy.t) :
  0 <= Enemy.currentHealth e ->
  Enemy.currentHealth (hits n e)
    = Z.max 0 (Enemy.currentHealth e - Z.of_nat n) /\
  Enemy.maxHealth (hits n e) = Enemy.maxHealth e.
Proof.
  intros Hpos. induction n as [| n [IHc IHm]].
  - simpl. split; [lia | reflexivity].
  - unfold hits in *. rewrite Nat.iter_succ.
    destruct (takeDamage_health
                (Nat.iter n (fun e => fst (Enemy.takeDamage e 1)) e) 1)
      as (Hc & Hm & _).
    rewrite Hc, Hm, IHc, IHm. split; [lia | reflexivity].
Qed.

Lemma takeDamage_marks_bar (e : Enemy.t) (amount : Z) :
  Enemy.setHealthBarVisible (fst (Enemy.takeDamage e amount)) true
    = fst (Enemy.takeDamage e amount).
Proof. reflexivity. Qed.

(** C8.  An enemy is spawned with an integer [maxHealth] between 2 and 4;
    after [N] hits of 1 damage its [currentHealth] is
    [max(0, maxHealth - N)]; the hit that brings the health to 0 is the one
    for which [takeDamage] reports destruction, and the collision pass then
    removes the enemy and adds 10 to the score, while any other hit leaves
    the enemy in the list with the score unchanged. *)
Theorem enemy_health_after_hits
    (canvasWidth r1 r2 r3 : Q) (N : nat) (w : World) (j : nat) :
  (0 <= r3)%Q -> (r3 < 1)%Q ->
  enemies w !! j = Some (hits N (Enemy.new canvasWidth r1 r2 r3)) ->
  let e := Enemy.new canvasWidth r1 r2 r3 in
  2 <= Enemy.maxHealth e <= 4 /\
  Enemy.currentHealth (hits N e) = Z.max 0 (Enemy.maxHealth e - Z.of_nat N) /\
  Enemy.currentHealth (hits (S N) e)
    = Z.max 0 (Enemy.maxHealth e - Z.of_nat (S N)) /\
  snd (Enemy.takeDamage (hits N e) 1)
    = (Enemy.currentHealth (hits (S N) e) =? 0) /\
  (if Enemy.currentHealth (hits (S N) e) =? 0
   then enemies (hitEnemy j w) = delete j (enemies w) /\
        score (hitEnemy j w) = score w + 10
   else enemies (hitEnemy j w) = <[j := hits (S N) e]> (enemies w) /\
        score (hitEnemy j w) = score w).
Proof.
  intros H0 H1 Hj e.
  destruct (Enemy_new_health canvasWidth r1 r2 r3 H0 H1) as [Hmax Hcur].
  fold e in Hmax, Hcur, Hj.
  assert (Hpos : 0 <= Enemy.currentHealth e) by lia.
  destruct (hits_health N e Hpos) as [HN _].
  destruct (hits_health (S N) e Hpos) as [HS _].
  rewrite Hcur in HN, HS.
  destruct (takeDamage_health (hits N e) 1) as (Hc & _ & Hret).
  assert (Hstep : fst (Enemy.takeDamage (hits N e) 1) = hits (S N) e)
    by reflexivity.
  rewrite Hstep in Hret.
  assert (Hflag : snd (Enemy.takeDamage (hits N e) 1)
                  = (Enemy.currentHealth (hits (S N) e) =? 0)).
  { rewrite Hret.
    destruct (Z.leb_spec (Enemy.currentHealth (hits (S N) e)) 0);
      destruct (Z.eqb_spec (Enemy.currentHealth (hits (S N) e)) 0);
      try reflexivity; lia. }
  repeat split; try assumption; try lia.
  assert (Htd : Enemy.takeDamage (hits N e) 1
                = (hits (S N) e, Enemy.currentHealth (hits (S N) e) =? 0)).
  { rewrite <- Hflag, <- Hstep. apply surjective_pairing. }
  unfold hitEnemy. rewrite Hj, Htd.
  destruct (Enemy.currentHealth (hits (S N) e) =? 0); split; reflexivity.
Qed.

Lemma enemy_health_after_hits_witness :
  Enemy.maxHealth midEnemy = 3 /\
  Enemy.currentHealth (hits 2 midEnemy) = 1 /\
  Enemy.currentHealth (hits 3 midEnemy) = 0 /\
  enemies (hitEnemy 0 (set_enemies [hits 2 midEnemy] playWorld)) = [] /\
  score (hitEnemy 0 (set_enemies [hits 2 midEnemy] playWorld)) = 10.
Proof.
  destruct (enemy_health_after_hits 800 (1 # 2) (1 # 2) (1 # 2) 2
              (set_enemies [hits 2 midEnemy] playWorld) 0)
    as (_ & H2 & H3 & _ & Hpass).
  - discriminate.
  - reflexivity.
  - reflexivity.
  - split; [reflexivity |]. split; [exact H2 |]. split; [exact H3 |].
    exact Hpass.
Defined.

(** ** Pickups and the catalog *)

Lemma POWER_UP_TYPES_own (key : string) (c : PowerUpConfig.t) :
  POWER_UP_TYPES key = OwnConfig c -> In (key, c) CATALOG.
Proof.
  unfold POWER_UP_TYPES.
  destruct (assoc CATALOG key) as [c' |] eqn:Hassoc.
  - intros [= <-]. revert Hassoc. generalize CATALOG.
    induction l as [| [k v] l IH]; simpl; [discriminate |].
    destruct (String.eqb_spec k key) as [-> | _].
    + intros [= ->]. left. reflexivity.
    + intros H. right. apply IH. exact H.
  - destruct (existsb _ _); discriminate.
Qed.

(** For a string that names no property of [POWER_UP_TYPES], own or
    inherited, the constructor falls back to the Rapid Fire entry. *)
Lemma PowerUp_new_fallback (x y : Q) (type : string) :
  POWER_UP_TYPES type = Undefined ->
  PowerUp.typeConfig (PowerUp.new x y type) = OwnConfig RAPID_FIRE.
Proof. unfold PowerUp.new. intros ->. reflexivity. Qed.

(** C10 at the failing input: for the type string "constructor", which is
    outside the catalog, the lookup finds the member inherited from
    [Object.prototype], the fallback is skipped, and [typeConfig] is not one
    of the six catalog entries. *)
Theorem PowerUp_new_inherited_key :
  assoc CATALOG "constructor" = None /\
  PowerUp.typeConfig (PowerUp.new 0 0 "constructor")
    = Inherited "constructor" /\
  ~ isCatalogEntry (PowerUp.typeConfig (PowerUp.new 0 0 "constructor")).
Proof.
  split; [reflexivity |]. split; [reflexivity |].
  intros (k & c & _ & H). discriminate H.
Qed.

(** ** The table of active effects *)

Section JSMapFacts.
Context {V : Type}.
Implicit Types (m : JSMap.t V) (k : string) (v : V).

Lemma JSMap_has_In m k : JSMap.has m k = true <-> In k (JSMap.keys m).
Proof.
  unfold JSMap.has, JSMap.get, JSMap.keys.
  induction m as [| [k' v'] m IH]; simpl.
  - split; [discriminate | contradiction].
  - destruct (String.eqb_spec k' k) as [-> | Hne].
    + split; auto.
    + rewrite IH. split; [auto | intros [H | H]; [contradiction | exact H]].
Qed.

Lemma JSMap_get_set_eq m k v : JSMap.get (JSMap.set m k v) k = Some v.
Proof.
  unfold JSMap.get. induction m as [| [k' v'] m IH]; simpl.
  - rewrite String.eqb_refl. reflexivity.
  - destruct (String.eqb_spec k' k) as [-> | Hne]; simpl.
    + rewrite String.eqb_refl. reflexivity.
    + destruct (String.eqb_spec k' k); [contradiction | exact IH].
Qed.

Lemma JSMap_keys_set_present m k v :
  JSMap.has m k = true -> JSMap.keys (JSMap.set m k v) = JSMap.keys m.
Proof.
  unfold JSMap.has, JSMap.get, JSMap.keys.
  induction m as [| [k' v'] m IH]; simpl; [discriminate |].
  destruct (String.eqb_spec k' k) as [-> | Hne]; simpl; [reflexivity |].
  intros H. rewrite (IH H). reflexivity.
Qed.

Lemma JSMap_keys_set_absent m k v :
  JSMap.has m k = false -> JSMap.keys (JSMap.set m k v) = (JSMap.keys m ++ [k])%list.
Proof.
  unfold JSMap.has, JSMap.get, JSMap.keys.
  induction m as [| [k' v'] m IH]; simpl; [reflexivity |].
  destruct (String.eqb_spec k' k) as [-> | Hne]; simpl; [discriminate |].
  intros H. rewrite (IH H). reflexivity.
Qed.

Lemma JSMap_entries_keys m k :
  JSMap.entries m k = count_occ String.string_dec (JSMap.keys m) k.
Proof.
  unfold JSMap.entries, JSMap.keys.
  induction m as [| [k' v'] m IH]; simpl; [reflexivity |].
  destruct (String.eqb_spec k' k) as [E1 | E1];
    destruct (String.string_dec k' k) as [E2 | E2]; simpl; congruence.
Qed.

Lemma JSMap_entries_one m k :
  NoDup (JSMap.keys m) -> JSMap.has m k = true -> JSMap.entries m k = 1%nat.
Proof.
  intros Hnd Hhas. rewrite JSMap_entries_keys.
  apply JSMap_has_In in Hhas.
  pose proof (proj1 (NoDup_count_occ String.string_dec (JSMap.keys m)) Hnd k).
  pose proof (proj1 (count_occ_In String.string_dec (JSMap.keys m) k) Hhas).
  lia.
Qed.

Lemma JSMap_set_NoDup m k v :
  NoDup (JSMap.keys m) -> NoDup (JSMap.keys (JSMap.set m k v)).
Proof.
  intros Hnd. destruct (JSMap.has m k) eqn:Hhas.
  - rewrite JSMap_keys_set_present by exact Hhas. exact Hnd.
  - rewrite JSMap_keys_set_absent by exact Hhas.
    apply NoDup_app. repeat split.
    + exact Hnd.
    + constructor; [intros [] | constructor].
    + intros x Hx [<- | []]. apply JSMap_has_In in Hx. congruence.
Qed.
End JSMapFacts.

(** ** Picking up a power-up *)

Lemma catalog_lookup (type : string) (cfg : PowerUpConfig.t) :
  In (type, cfg) CATALOG ->
  POWER_UP_TYPES type = OwnConfig cfg /\ string_truthy type = true.
Proof.
  unfold CATALOG. simpl.
  intros H. repeat (destruct H as [H | H]; [inversion H; subst; clear H |]);
    try contradiction; split; reflexivity.
Qed.

Lemma applyPowerUpEffect_console (type : string) (activate : bool)
    (w : World) :
  console (applyPowerUpEffect type activate w)
    = (console w ++ [EffectHook type activate])%list.
Proof.
  unfold applyPowerUpEffect.
  repeat match goal with
         | |- context [String.eqb type ?s] => destruct (String.eqb type s)
         end;
    destruct activate; try reflexivity;
    unfold activateLaserBeam, deactivateLaserBeam;
    destruct (laserBeam (log _ w)); reflexivity.
Qed.

Lemma addPowerUp_refresh (type : string) (cfg : PowerUpConfig.t) (now : Z)
    (w : World) (existing : Effect.t) :
  In (type, cfg) CATALOG ->
  JSMap.get (activePowerUps w) type = Some existing ->
  addPowerUp type now w =
  (log (PowerUpRefreshed type)
       (set_activePowerUps
          (JSMap.set (activePowerUps w) type
             (Effect.setEndTime existing
                (Num (now + PowerUpConfig.duration cfg)))) w), true).
Proof.
  intros Hin Hget. destruct (catalog_lookup type cfg Hin) as [Hcfg Htruthy].
  unfold addPowerUp. rewrite Htruthy, Hcfg, Hget. reflexivity.
Qed.

Lemma addPowerUp_activate (type : string) (cfg : PowerUpConfig.t) (now : Z)
    (w : World) :
  In (type, cfg) CATALOG ->
  JSMap.get (activePowerUps w) type = None ->
  addPowerUp type now w =
  (log (PowerUpActivated type)
       (applyPowerUpEffect type true
          (set_activePowerUps
             (JSMap.set (activePowerUps w) type
                (Effect.mk type (OwnConfig cfg) now
                   (Num (now + PowerUpConfig.duration cfg)) true)) w)),
   true).
Proof.
  intros Hin Hget. destruct (catalog_lookup type cfg Hin) as [Hcfg Htruthy].
  unfold addPowerUp. rewrite Htruthy, Hcfg, Hget. reflexivity.
Qed.

(** C5.  For each of the six types: when a pickup activates the type at
    time [t1] and a second pickup of the same type arrives at [t2] while the
    effect is still in the table, both calls succeed, the table holds
    exactly one entry for the type and the same keys as after the first
    pickup, that entry ends at [t2 + duration] (it still starts at [t1]),
    the enable hook is logged by the first call only, and the refresh
    changes nothing of the player. *)
Theorem repeat_pickup_refreshes
    (w : World) (type : string) (cfg : PowerUpConfig.t) (t1 t2 : Z) :
  In (type, cfg) CATALOG ->
  NoDup (JSMap.keys (activePowerUps w)) ->
  JSMap.has (activePowerUps w) type = false ->
  let r1 := addPowerUp type t1 w in
  let r2 := addPowerUp type t2 (fst r1) in
  snd r1 = true /\ snd r2 = true /\
  JSMap.entries (activePowerUps (fst r2)) type = 1%nat /\
  JSMap.keys (activePowerUps (fst r2)) = JSMap.keys (activePowerUps (fst r1)) /\
  JSMap.get (activePowerUps (fst r2)) type
    = Some (Effect.mk type (OwnConfig cfg) t1
              (Num (t2 + PowerUpConfig.duration cfg)) true) /\
  console (fst r1)
    = (console w ++ [EffectHook type true; PowerUpActivated type])%list /\
  console (fst r2) = (console (fst r1) ++ [PowerUpRefreshed type])%list /\
  player (fst r2) = player (fst r1).
Proof.
  intros Hin Hnd Hhas r1 r2.
  assert (Hget : JSMap.get (activePowerUps w) type = None).
  { unfold JSMap.has in Hhas.
    destruct (JSMap.get (activePowerUps w) type); [discriminate | auto]. }
  set (first := Effect.mk type (OwnConfig cfg) t1
                  (Num (t1 + PowerUpConfig.duration cfg)) true).
  assert (Hr1 : r1 = (log (PowerUpActivated type)
                        (applyPowerUpEffect type true
                           (set_activePowerUps
                              (JSMap.set (activePowerUps w) type first) w)),
                      true))
    by (apply addPowerUp_activate; assumption).
  assert (Htable1 : activePowerUps (fst r1)
                    = JSMap.set (activePowerUps w) type first).
  { rewrite Hr1. unfold log. cbn [fst activePowerUps set_console].
    rewrite (proj2 (applyPowerUpEffect_sameSession type true _)).
    reflexivity. }
  assert (Hget1 : JSMap.get (activePowerUps (fst r1)) type = Some first)
    by (rewrite Htable1; apply JSMap_get_set_eq).
  assert (Hr2 : r2 = (log (PowerUpRefreshed type)
                        (set_activePowerUps
                           (JSMap.set (activePowerUps (fst r1)) type
                              (Effect.setEndTime first
                                 (Num (t2 + PowerUpConfig.duration cfg))))
                           (fst r1)), true))
    by (apply addPowerUp_refresh; assumption).
  assert (Hhas1 : JSMap.has (activePowerUps (fst r1)) type = true)
    by (unfold JSMap.has; rewrite Hget1; reflexivity).
  assert (Hkeys : JSMap.keys (activePowerUps (fst r2))
                  = JSMap.keys (activePowerUps (fst r1))).
  { rewrite Hr2. simpl. apply JSMap_keys_set_present. exact Hhas1. }
  split; [rewrite Hr1; reflexivity |].
  split; [rewrite Hr2; reflexivity |].
  split.
  { apply JSMap_entries_one.
    - rewrite Hkeys, Htable1. apply JSMap_set_NoDup. exact Hnd.
    - apply JSMap_has_In. rewrite Hkeys. apply JSMap_has_In. exact Hhas1. }
  split; [exact Hkeys |].
  split; [rewrite Hr2; simpl; apply JSMap_get_set_eq |].
  split.
  { rewrite Hr1. unfold log. cbn [fst console set_console].
    rewrite applyPowerUpEffect_console. cbn [console set_activePowerUps].
    rewrite <- app_assoc. reflexivity. }
  split; rewrite Hr2; reflexivity.
Qed.

Lemma repeat_pickup_refreshes_witness :
  let r1 := addPowerUp "SHIELD_GENERATOR" 1000 playWorld in
  let r2 := addPowerUp "SHIELD_GENERATOR" 3000 (fst r1) in
  snd r1 = true /\ snd r2 = true /\
  JSMap.entries (activePowerUps (fst r2)) "SHIELD_GENERATOR" = 1%nat /\
  JSMap.keys (activePowerUps (fst r2)) = JSMap.keys (activePowerUps (fst r1)) /\
  JSMap.get (activePowerUps (fst r2)) "SHIELD_GENERATOR"
    = Some (Effect.mk "SHIELD_GENERATOR" (OwnConfig SHIELD_GENERATOR) 1000
              (Num (3000 + PowerUpConfig.duration SHIELD_GENERATOR)) true) /\
  console (fst r1)
    = (console playWorld ++ [EffectHook "SHIELD_GENERATOR" true;
                             PowerUpActivated "SHIELD_GENERATOR"])%list /\
  console (fst r2)
    = (console (fst r1) ++ [PowerUpRefreshed "SHIELD_GENERATOR"])%list /\
  player (fst r2) = player (fst r1).
Proof.
  apply (repeat_pickup_refreshes playWorld "SHIELD_GENERATOR"
           SHIELD_GENERATOR 1000 3000).
  - unfold CATALOG. simpl. tauto.
  - constructor.
  - reflexivity.
Defined.

(** ** Clearing the power-ups *)

Lemma flagOf_after_effect (T : string) (cfg : PowerUpConfig.t)
    (type : string) (activate : bool) (w : World) :
  In (T, cfg) CATALOG ->
  flagOf T (player (applyPowerUpEffect type activate w))
    = if String.eqb type T then activate else flagOf T (player w).
Proof.
  unfold CATALOG. simpl. intros H.
  repeat (destruct H as [H | H]; [inversion H; subst; clear H |]);
    try contradiction;
    unfold applyPowerUpEffect;
    repeat match goal with
           | |- context [String.eqb type ?s] =>
               destruct (String.eqb_spec type s); [subst type |]
           end;
    destruct activate; try reflexivity;
    unfold activateLaserBeam, deactivateLaserBeam;
    destruct (laserBeam (log _ w)); reflexivity.
Qed.

Lemma flagOf_stays_off (T : string) (cfg : PowerUpConfig.t)
    (types : list string) (w : World) :
  In (T, cfg) CATALOG ->
  flagOf T (player w) = false ->
  flagOf T (player (deactivateAllEffects types w)) = false.
Proof.
  intros Hin. unfold deactivateAllEffects.
  revert w. induction types as [| type types IH]; intros w Hoff; simpl.
  - exact Hoff.
  - apply IH. rewrite (flagOf_after_effect T cfg type false w Hin).
    destruct (String.eqb type T); [reflexivity | exact Hoff].
Qed.

Lemma flagOf_off_after_loop (T : string) (cfg : PowerUpConfig.t)
    (types : list string) (w : World) :
  In (T, cfg) CATALOG ->
  In T types ->
  flagOf T (player (deactivateAllEffects types w)) = false.
Proof.
  intros Hin. revert w.
  induction types as [| type types IH]; intros w HT; [contradiction |].
  change (deactivateAllEffects (type :: types) w)
    with (deactivateAllEffects types (applyPowerUpEffect type false w)).
  destruct (String.eqb_spec type T) as [-> | Hne].
  - apply (flagOf_stays_off T cfg); [exact Hin |].
    rewrite (flagOf_after_effect T cfg T false w Hin), String.eqb_refl.
    reflexivity.
  - apply IH. destruct HT as [E | HT]; [contradiction | exact HT].
Qed.

Lemma deactivateAllEffects_console (types : list string) (w : World) :
  console (deactivateAllEffects types w)
    = (console w ++ map (fun type => EffectHook type false) types)%list.
Proof.
  unfold deactivateAllEffects.
  revert w. induction types as [| type types IH]; intros w; simpl.
  - rewrite app_nil_r. reflexivity.
  - rewrite IH, applyPowerUpEffect_console, <- app_assoc. reflexivity.
Qed.

Lemma flagsCoherent_spec (w : World) :
  flagsCoherent w = true <->
  forall T cfg, In (T, cfg) CATALOG ->
    flagOf T (player w) = true -> JSMap.has (activePowerUps w) T = true.
Proof.
  unfold flagsCoherent. rewrite forallb_forall. split.
  - intros H T cfg Hin Hflag. specialize (H (T, cfg) Hin). simpl in H.
    rewrite Hflag in H. exact H.
  - intros H [T cfg] Hin. simpl.
    destruct (flagOf T (player w)) eqn:Hflag; [| reflexivity].
    simpl. exact (H T cfg Hin Hflag).
Qed.

Lemma flagsOff_from_flagOf (p : Player.t) :
  (forall T cfg, In (T, cfg) CATALOG -> flagOf T p = false) ->
  Player.flagsOff p = true.
Proof.
  intros H. unfold Player.flagsOff.
  pose proof (H "RAPID_FIRE" RAPID_FIRE ltac:(simpl; tauto)) as H1.
  pose proof (H "MULTI_SHOT" MULTI_SHOT ltac:(simpl; tauto)) as H2.
  pose proof (H "LASER_BEAM" LASER_BEAM ltac:(simpl; tauto)) as H3.
  pose proof (H "SHIELD_GENERATOR" SHIELD_GENERATOR ltac:(simpl; tauto))
    as H4.
  pose proof (H "TIME_SLOW" TIME_SLOW ltac:(simpl; tauto)) as H5.
  pose proof (H "EXPLOSIVE_ROUNDS" EXPLOSIVE_ROUNDS ltac:(simpl; tauto))
    as H6.
  cbv [flagOf String.eqb Ascii.eqb Bool.eqb] in H1, H2, H3, H4, H5, H6.
  apply orb_false_elim in H4. destruct H4 as [H4 H4'].
  rewrite H1, H2, H3, H4, H4', H5, H6. reflexivity.
Qed.

(** In a world whose player flags are on only for types present in the
    table, [clearAllPowerUps()] returns [true] and leaves the table empty,
    all seven player flags off, the time-slow multiplier at 1 and the laser
    off; the disable hook of every active type has run, in table order,
    while the table was still intact, and the clearing is logged after
    them. *)
Lemma clearAllPowerUps_from_coherent (w : World) :
  flagsCoherent w = true ->
  let hooked := deactivateAllEffects (JSMap.keys (activePowerUps w)) w in
  let w' := fst (clearAllPowerUps w) in
  snd (clearAllPowerUps w) = true /\
  activePowerUps w' = [] /\
  Player.flagsOff (player w') = true /\
  timeSlowMultiplier w' = 1%Q /\
  laserActive w' = false /\
  activePowerUps hooked = activePowerUps w /\
  console hooked
    = (console w ++ map (fun type => EffectHook type false)
                        (JSMap.keys (activePowerUps w)))%list /\
  console w' = (console hooked ++ [AllPowerUpsCleared])%list.
Proof.
  intros Hcoh hooked w'.
  assert (Hflags : forall T cfg, In (T, cfg) CATALOG ->
                     flagOf T (player hooked) = false).
  { intros T cfg Hin. destruct (flagOf T (player w)) eqn:Hflag.
    - apply (flagOf_off_after_loop T cfg); [exact Hin |].
      apply JSMap_has_In.
      exact (proj1 (flagsCoherent_spec w) Hcoh T cfg Hin Hflag).
    - apply (flagOf_stays_off T cfg); assumption. }
  assert (Hplayer : player w' = player hooked).
  { subst w'. unfold clearAllPowerUps. fold hooked.
    destruct (laserBeam hooked); reflexivity. }
  split; [reflexivity |].
  split; [subst w'; unfold clearAllPowerUps; reflexivity |].
  split; [rewrite Hplayer; apply flagsOff_from_flagOf; exact Hflags |].
  split; [reflexivity |]. split; [reflexivity |].
  split; [apply deactivate_all_sameSession |].
  split; [apply deactivateAllEffects_console |].
  subst w'. unfold clearAllPowerUps. fold hooked.
  destruct (laserBeam hooked); reflexivity.
Qed.

(** Three effects active, then cleared. *)
Example clearAllPowerUps_of_three_effects :
  flagsCoherent poweredWorld = true /\
  JSMap.keys (activePowerUps poweredWorld)
    = ["SHIELD_GENERATOR"; "TIME_SLOW"; "LASER_BEAM"] /\
  timeSlowMultiplier poweredWorld = (1 # 2)%Q /\
  activePowerUps (fst (clearAllPowerUps poweredWorld)) = [] /\
  Player.flagsOff (player (fst (clearAllPowerUps poweredWorld))) = true /\
  timeSlowMultiplier (fst (clearAllPowerUps poweredWorld)) = 1%Q.
Proof.
  split; [reflexivity |]. split; [reflexivity |]. split; [reflexivity |].
  destruct (clearAllPowerUps_from_coherent poweredWorld)
    as (_ & Htable & Hflags & Hslow & _).
  - reflexivity.
  - split; [exact Htable |]. split; [exact Hflags | exact Hslow].
Qed.


(** ** Moving the player *)

Lemma Qltb_true (a b : Q) : Qltb a b = true <-> (a < b)%Q.
Proof.
  unfold Qltb. rewrite negb_true_iff.
  destruct (Qle_bool b a) eqn:E.
  - apply Qle_bool_iff in E. split; [discriminate | intros H; exfalso; lra].
  - split; [intros _ | reflexivity].
    apply Qnot_le_lt. intros H. apply Qle_bool_iff in H. congruence.
Qed.

Lemma Qltb_false (a b : Q) : Qltb a b = false <-> (b <= a)%Q.
Proof. unfold Qltb. rewrite negb_false_iff. apply Qle_bool_iff. Qed.

Lemma step_left (x limit : Q) (held : bool) :
  multipleOfSpeed x -> (0 <= x <= limit)%Q ->
  let x1 := if held && Qltb 0 x then (x - 5)%Q else x in
  multipleOfSpeed x1 /\ (0 <= x1 <= limit)%Q.
Proof.
  intros [k Hk] Hb. cbv zeta.
  destruct held; simpl; [| split; [exists k; exact Hk | exact Hb]].
  destruct (Qltb 0 x) eqn:E; [| split; [exists k; exact Hk | exact Hb]].
  apply Qltb_true in E. rewrite Hk in E.
  change 0%Q with (inject_Z 0) in E. rewrite <- Zlt_Qlt in E.
  split.
  - exists (k - 1). rewrite Hk.
    replace (5 * (k - 1)) with (5 * k + -5) by ring.
    rewrite inject_Z_plus. reflexivity.
  - assert (H5 : (5 <= x)%Q).
    { rewrite Hk. change 5%Q with (inject_Z 5). rewrite <- Zle_Qle. lia. }
    lra.
Qed.

Lemma step_right (x limit : Q) (held : bool) :
  multipleOfSpeed x -> multipleOfSpeed limit -> (0 <= x <= limit)%Q ->
  let x2 := if held && Qltb x limit then (x + 5)%Q else x in
  multipleOfSpeed x2 /\ (0 <= x2 <= limit)%Q.
Proof.
  intros [k Hk] [m Hm] Hb. cbv zeta.
  destruct held; simpl; [| split; [exists k; exact Hk | exact Hb]].
  destruct (Qltb x limit) eqn:E; [| split; [exists k; exact Hk | exact Hb]].
  apply Qltb_true in E.
  assert (Hkm : k + 1 <= m).
  { rewrite Hk, Hm in E. rewrite <- Zlt_Qlt in E. lia. }
  split.
  - exists (k + 1). rewrite Hk.
    replace (5 * (k + 1)) with (5 * k + 5) by ring.
    rewrite inject_Z_plus. reflexivity.
  - assert (H5 : (x + 5 <= limit)%Q).
    { rewrite Hk, Hm. change 5%Q with (inject_Z 5).
      rewrite <- inject_Z_plus, <- Zle_Qle. lia. }
    lra.
Qed.

Lemma movePlayer_onGrid (k : Keys.t) (canvasWidth canvasHeight : Q)
    (p : Player.t) :
  Player.width p = 30%Q -> Player.height p = 30%Q ->
  Player.speed p = 5%Q ->
  multipleOfSpeed (canvasWidth - 30) ->
  multipleOfSpeed (canvasHeight - 30) ->
  playerOnGrid canvasWidth canvasHeight p ->
  playerOnGrid canvasWidth canvasHeight
               (movePlayer k canvasWidth canvasHeight p).
Proof.
  intros Hw Hh Hs Hcw Hch (Hx & Hy & Hbx & Hby).
  unfold playerOnGrid, inBounds, movePlayer.
  cbn [Player.x Player.y Player.width Player.height Player.setPosition].
  rewrite Hw, Hh, Hs in *.
  destruct (step_left (Player.x p) (canvasWidth - 30) (Keys.ArrowLeft k)
              Hx Hbx) as [Hx1 Hbx1].
  destruct (step_right _ (canvasWidth - 30) (Keys.ArrowRight k)
              Hx1 Hcw Hbx1) as [Hx2 Hbx2].
  destruct (step_left (Player.y p) (canvasHeight - 30) (Keys.ArrowUp k)
              Hy Hby) as [Hy1 Hby1].
  destruct (step_right _ (canvasHeight - 30) (Keys.ArrowDown k)
              Hy1 Hch Hby1) as [Hy2 Hby2].
  auto.
Qed.

Lemma movePlayer_at_left_edge (k : Keys.t) (canvasWidth canvasHeight : Q)
    (p : Player.t) :
  (Player.x p == 0)%Q -> Keys.ArrowRight k = false ->
  Player.x (movePlayer k canvasWidth canvasHeight p) = Player.x p.
Proof.
  intros Hx Hr. unfold movePlayer. cbn [Player.x Player.setPosition].
  rewrite Hr. simpl.
  destruct (Keys.ArrowLeft k); simpl; [| reflexivity].
  destruct (Qltb 0 (Player.x p)) eqn:E; [| reflexivity].
  apply Qltb_true in E. rewrite Hx in E. discriminate E.
Qed.

Lemma shootBullet_player (Math_sin Math_cos : Q -> Q) (now : Z) (w : World) :
  player (shootBullet Math_sin Math_cos now w) = player w /\
  lives (shootBullet Math_sin Math_cos now w) = lives w /\
  gameStateManager (shootBullet Math_sin Math_cos now w)
    = gameStateManager w.
Proof.
  unfold shootBullet, createBullets.
  destruct (Qltb _ _); [| repeat split].
  destruct (getCurrentBulletPattern w); repeat split.
Qed.

Lemma handleInput_player (Math_sin Math_cos : Q -> Q) (now : Z) (w : World)
    (c : Canvas.t) :
  canvas w = Some c ->
  player (handleInput Math_sin Math_cos now w)
    = movePlayer (keys w) (canvasWidthOr c) (canvasHeightOr c) (player w).
Proof.
  intros Hc. unfold handleInput. rewrite Hc.
  cbn [keys set_player].
  destruct (Keys.Space (keys w)); [| reflexivity].
  cbn [player set_keys].
  rewrite (proj1 (shootBullet_player Math_sin Math_cos now _)).
  reflexivity.
Qed.

Lemma pause_keeps_player (w : World) :
  GameStateManager.states (gameStateManager w)
    = GameStateManager.states registeredManager ->
  player (fst (setState "PauseState" w)) = player w.
Proof.
  intros Hstates. unfold setState. rewrite Hstates.
  change (GameStateManager.states registeredManager !! "PauseState")
    with (Some (JSInstance PauseState 3)).
  cbn [string_truthy String.eqb negb state_truthy fst].
  destruct (GameStateManager.currentState (gameStateManager w))
    as [[| cls oid |] |]; try reflexivity.
  destruct cls; reflexivity.
Qed.

Lemma GameState_handleInput_player (Math_sin Math_cos : Q -> Q) (now : Z)
    (w : World) (c : Canvas.t) :
  canvas w = Some c ->
  GameStateManager.states (gameStateManager w)
    = GameStateManager.states registeredManager ->
  player (GameState_handleInput Math_sin Math_cos now w)
    = movePlayer (keys w) (canvasWidthOr c) (canvasHeightOr c) (player w).
Proof.
  intros Hc Hstates. unfold GameState_handleInput. rewrite Hc.
  cbv zeta. cbn [keys set_player].
  set (w1 := set_player _ w).
  assert (Hw2 : forall w2,
             player w2 = player w1 ->
             gameStateManager w2 = gameStateManager w1 ->
             player (if Keys.Escape (keys w2)
                     then fst (setState "PauseState"
                                 (set_keys (Keys.clearEscape (keys w2)) w2))
                     else w2) = player w1).
  { intros w2 Hp Hm. destruct (Keys.Escape (keys w2)); [| exact Hp].
    rewrite pause_keeps_player; [exact Hp |].
    cbn [gameStateManager set_keys]. rewrite Hm. exact Hstates. }
  destruct (Keys.Space (keys w)).
  - apply Hw2; cbn [player gameStateManager set_keys];
      apply shootBullet_player.
  - apply Hw2; reflexivity.
Qed.

(** C3, as stated, fails: with the left arrow held and the player at
    [x = 3 >= 0], both input handlers move the player to [x = -2]. *)
Lemma left_move_from_3_leaves_canvas :
  (0 <= Player.x (player offGridWorld))%Q /\
  Keys.ArrowLeft (keys offGridWorld) = true /\
  (Player.x (player (GameState_handleInput sampleSin sampleCos 0
                       offGridWorld)) == -2)%Q /\
  (Player.x (player (handleInput sampleSin sampleCos 0 offGridWorld))
     == -2)%Q /\
  ~ inBounds 800 600
      (player (GameState_handleInput sampleSin sampleCos 0 offGridWorld)).
Proof.
  split; [vm_compute; discriminate |].
  split; [reflexivity |].
  split; [vm_compute; reflexivity |].
  split; [vm_compute; reflexivity |].
  intros [[H _] _]. vm_compute in H. apply H. reflexivity.
Qed.

(** On a canvas whose free width and height are whole numbers of steps, a
    player of the source's size and speed that stands inside the canvas on
    a whole number of steps is still so after either input handler,
    whatever keys are held; a player at [x = 0] with the left arrow held
    (and the right one not) stays at [x = 0]. *)
Lemma input_keeps_player_on_grid
    (Math_sin Math_cos : Q -> Q) (now : Z) (w : World) (c : Canvas.t) :
  canvas w = Some c ->
  GameStateManager.states (gameStateManager w)
    = GameStateManager.states registeredManager ->
  Player.width (player w) = 30%Q ->
  Player.height (player w) = 30%Q ->
  Player.speed (player w) = 5%Q ->
  multipleOfSpeed (canvasWidthOr c - 30) ->
  multipleOfSpeed (canvasHeightOr c - 30) ->
  playerOnGrid (canvasWidthOr c) (canvasHeightOr c) (player w) ->
  let p1 := player (GameState_handleInput Math_sin Math_cos now w) in
  let p2 := player (handleInput Math_sin Math_cos now w) in
  playerOnGrid (canvasWidthOr c) (canvasHeightOr c) p1 /\
  inBounds (canvasWidthOr c) (canvasHeightOr c) p1 /\
  p2 = p1 /\
  ((Player.x (player w) == 0)%Q -> Keys.ArrowRight (keys w) = false ->
   Player.x p1 = Player.x (player w)).
Proof.
  intros Hc Hstates Hw Hh Hs Hcw Hch Hgrid p1 p2. subst p1 p2.
  rewrite (GameState_handleInput_player _ _ _ _ c Hc Hstates).
  rewrite (handleInput_player _ _ _ _ c Hc).
  pose proof (movePlayer_onGrid (keys w) _ _ _ Hw Hh Hs Hcw Hch Hgrid)
    as Hgrid'.
  split; [exact Hgrid' |]. split; [apply Hgrid' |].
  split; [reflexivity |].
  apply movePlayer_at_left_edge.
Qed.

(** On the left edge with the left arrow held. *)
Example input_on_the_left_edge :
  let p1 := player (GameState_handleInput sampleSin sampleCos 0 edgeWorld) in
  let p2 := player (handleInput sampleSin sampleCos 0 edgeWorld) in
  playerOnGrid 800 600 p1 /\ inBounds 800 600 p1 /\ p2 = p1 /\
  ((Player.x (player edgeWorld) == 0)%Q ->
   Keys.ArrowRight (keys edgeWorld) = false ->
   Player.x p1 = Player.x (player edgeWorld)).
Proof.
  apply (input_keeps_player_on_grid sampleSin sampleCos 0 edgeWorld
           (Canvas.mk 800 600)).
  - reflexivity.
  - reflexivity.
  - reflexivity.
  - reflexivity.
  - reflexivity.
  - exists 154. reflexivity.
  - exists 114. reflexivity.
  - split; [exists 0; reflexivity |].
    split; [exists 110; reflexivity |].
    split; split; vm_compute; discriminate.
Qed.


(** ** The bullet pass *)

Lemma findHit_Some (b : Bullet.t) (es : list Enemy.t) (n j : nat) :
  findHit b es n = Some j ->
  (j < n)%nat /\
  (exists e, es !! j = Some e /\ bulletHitsEnemy b e = true) /\
  (forall j' e', (j < j' < n)%nat -> es !! j' = Some e' ->
                 bulletHitsEnemy b e' = false).
Proof.
  induction n as [| n IH]; simpl; [discriminate |].
  destruct (es !! n) as [e |] eqn:He.
  - destruct (bulletHitsEnemy b e) eqn:Hhit.
    + intros [= <-]. split; [lia |]. split; [exists e; auto |].
      intros j' e' Hj'. lia.
    + intros H. destruct (IH H) as (Hlt & Hex & Hafter).
      split; [lia |]. split; [exact Hex |].
      intros j' e' Hj' He'.
      destruct (Nat.eq_dec j' n) as [-> | Hne].
      * rewrite He in He'. injection He' as <-. exact Hhit.
      * apply (Hafter j' e'); [lia | exact He'].
  - intros H. destruct (IH H) as (Hlt & Hex & Hafter).
    split; [lia |]. split; [exact Hex |].
    intros j' e' Hj' He'.
    destruct (Nat.eq_dec j' n) as [-> | Hne]; [congruence |].
    apply (Hafter j' e'); [lia | exact He'].
Qed.

Lemma findHit_None (b : Bullet.t) (es : list Enemy.t) (n : nat) :
  findHit b es n = None ->
  forall j e, (j < n)%nat -> es !! j = Some e -> bulletHitsEnemy b e = false.
Proof.
  induction n as [| n IH]; simpl; intros H j e Hj He; [lia |].
  destruct (Nat.eq_dec j n) as [-> | Hne].
  - rewrite He in H. destruct (bulletHitsEnemy b e); [discriminate | auto].
  - destruct (es !! n) as [en |].
    + destruct (bulletHitsEnemy b en); [discriminate |].
      apply (IH H j e); [lia | exact He].
    + apply (IH H j e); [lia | exact He].
Qed.

Lemma hitEnemy_enemies (j : nat) (w : World) (e : Enemy.t) :
  enemies w !! j = Some e ->
  enemies (hitEnemy j w)
    = (if Enemy.currentHealth e - 1 <=? 0 then delete j (enemies w)
       else <[j := fst (Enemy.takeDamage e 1)]> (enemies w)) /\
  score (hitEnemy j w)
    = (if Enemy.currentHealth e - 1 <=? 0 then score w + 10 else score w) /\
  lives (hitEnemy j w) = lives w /\ bullets (hitEnemy j w) = bullets w.
Proof.
  intros He. unfold hitEnemy. rewrite He.
  unfold Enemy.takeDamage, Enemy.isDestroyed.
  cbn [Enemy.currentHealth fst].
  destruct (Z.ltb_spec (Enemy.currentHealth e - 1) 0);
    destruct (Z.leb_spec (Enemy.currentHealth e - 1) 0);
    try lia.
  - destruct (Z.leb_spec 0 0); [| lia]. repeat split.
  - destruct (Z.leb_spec (Enemy.currentHealth e - 1) 0); [| lia].
    repeat split.
  - destruct (Z.leb_spec (Enemy.currentHealth e - 1) 0); [lia |].
    repeat split.
Qed.

(** C4, as stated, fails: with two enemies on one bullet, the scan from
    index 0 upward would pick enemy 0, but the pass picks enemy 1, damages
    it alone and leaves enemy 0 untouched.  The same happens in a session
    played from the start: in its last frame the only bullet overlaps both
    enemies, and the frame leaves enemy 0 at health 2 and enemy 1 at
    health 1. *)
Lemma bullet_hits_last_stored_enemy :
  (bulletHitsEnemy crossfireBullet crossfireEnemy0 = true /\
   bulletHitsEnemy crossfireBullet crossfireEnemy1 = true /\
   Player.explosiveRoundsActive (player crossfireWorld) = false /\
   firstOverlapFromZero crossfireBullet (enemies crossfireWorld)
     = Some 0%nat /\
   findHit crossfireBullet (enemies crossfireWorld) 2 = Some 1%nat /\
   bullets (checkCollisions sampleSqrt crossfireWorld) = [] /\
   enemies (checkCollisions sampleSqrt crossfireWorld)
     = [crossfireEnemy0; Enemy.mk 95 95 30 30 1 3 2 true]) /\
  let w := runSession sampleSqrt sampleSin sampleCos crossfireApproach
                      (loadedWorld (Canvas.mk 800 600)) in
  let atCollision := updateEnemies (updateBullets w) in
  let w' := applyEvent sampleSqrt sampleSin sampleCos crossfireFrame w in
  (Player.explosiveRoundsActive (player w),
   map Enemy.currentHealth (enemies w),
   length (bullets w),
   map (fun b => map (bulletHitsEnemy b) (enemies atCollision))
       (bullets atCollision),
   map (fun b => firstOverlapFromZero b (enemies atCollision))
       (bullets atCollision),
   map Enemy.currentHealth (enemies (checkCollisions sampleSqrt atCollision)),
   map Enemy.currentHealth (enemies w'),
   length (bullets w'))
  = (false, [2; 2], 1%nat, [[true; true]], [Some 0%nat], [2; 1], [2; 1],
     0%nat).
Proof.
  split; [repeat split; vm_compute; reflexivity |].
  vm_compute. reflexivity.
Qed.

(** C4, amended: the inner loop runs from the last index down and stops at
    its first match.  With Explosive Rounds inactive, a bullet that overlaps
    some enemy is consumed by the overlapping enemy of highest index: no
    enemy stored after it overlaps the bullet, the bullet is removed, and
    the flat 1 point of damage goes to that enemy alone, which is removed
    when its health reaches 0 and otherwise stays at its index; every other
    entry of the list is as before. *)
Theorem bullet_consumed_by_last_overlapping_enemy
    (Math_sqrt : Q -> Q) (w : World) (i : nat) (b : Bullet.t)
    (j0 : nat) (e0 : Enemy.t) :
  bullets w !! i = Some b ->
  enemies w !! j0 = Some e0 ->
  bulletHitsEnemy b e0 = true ->
  Player.explosiveRoundsActive (player w) = false ->
  exists (j : nat) (e : Enemy.t),
    findHit b (enemies w) (length (enemies w)) = Some j /\
    enemies w !! j = Some e /\ bulletHitsEnemy b e = true /\
    (j0 <= j)%nat /\
    (forall j' e', (j < j')%nat -> enemies w !! j' = Some e' ->
                   bulletHitsEnemy b e' = false) /\
    bullets (bulletStep Math_sqrt i w) = delete i (bullets w) /\
    enemies (bulletStep Math_sqrt i w)
      = (if Enemy.currentHealth e - 1 <=? 0 then delete j (enemies w)
         else <[j := fst (Enemy.takeDamage e 1)]> (enemies w)) /\
    Enemy.currentHealth (fst (Enemy.takeDamage e 1))
      = Z.max 0 (Enemy.currentHealth e - 1).
Proof.
  intros Hb He0 Hhit0 Hexp.
  destruct (findHit b (enemies w) (length (enemies w))) as [j |] eqn:Hfind.
  - destruct (findHit_Some b (enemies w) _ j Hfind)
      as (Hlt & (e & He & Hhit) & Hafter).
    exists j, e. split; [reflexivity |].
    split; [exact He |]. split; [exact Hhit |].
    split.
    { destruct (Nat.le_gt_cases j0 j) as [Hle | Hgt]; [exact Hle |].
      pose proof (lookup_lt_Some _ _ _ He0) as Hj0.
      rewrite (Hafter j0 e0 (conj Hgt Hj0) He0) in Hhit0. discriminate. }
    split.
    { intros j' e' Hj' He'. apply (Hafter j' e'); [| exact He'].
      split; [exact Hj' | exact (lookup_lt_Some _ _ _ He')]. }
    unfold bulletStep. rewrite Hb, Hfind. unfold resolveHit.
    cbn [player set_bullets]. rewrite Hexp.
    set (w1 := set_bullets (delete i (bullets w)) w).
    destruct (hitEnemy_enemies j w1 e He) as (Hen & _ & _ & Hbu).
    split; [exact Hbu |]. split; [exact Hen |].
    apply takeDamage_health.
  - pose proof (findHit_None b (enemies w) _ Hfind j0 e0
                  (lookup_lt_Some _ _ _ He0) He0) as Hno.
    congruence.
Qed.

Lemma bullet_consumed_by_last_overlapping_enemy_witness :
  exists (j : nat) (e : Enemy.t),
    findHit crossfireBullet (enemies crossfireWorld)
            (length (enemies crossfireWorld)) = Some j /\
    enemies crossfireWorld !! j = Some e /\
    bulletHitsEnemy crossfireBullet e = true /\
    (0 <= j)%nat /\
    (forall j' e', (j < j')%nat -> enemies crossfireWorld !! j' = Some e' ->
                   bulletHitsEnemy crossfireBullet e' = false) /\
    bullets (bulletStep sampleSqrt 0 crossfireWorld)
      = delete 0%nat (bullets crossfireWorld) /\
    enemies (bulletStep sampleSqrt 0 crossfireWorld)
      = (if Enemy.currentHealth e - 1 <=? 0
         then delete j (enemies crossfireWorld)
         else <[j := fst (Enemy.takeDamage e 1)]> (enemies crossfireWorld)) /\
    Enemy.currentHealth (fst (Enemy.takeDamage e 1))
      = Z.max 0 (Enemy.currentHealth e - 1).
Proof.
  apply (bullet_consumed_by_last_overlapping_enemy sampleSqrt crossfireWorld
           0 crossfireBullet 0 crossfireEnemy0); reflexivity.
Defined.

(** ** The player pass *)

Lemma gameOver_effect (w : World) :
  registered w ->
  lives (gameOver w) = lives w /\ enemies (gameOver w) = enemies w /\
  player (gameOver w) = player w /\ registered (gameOver w) /\
  score (gameOver w) = score w /\ bullets (gameOver w) = bullets w /\
  gameRunning (gameOver w) = false.
Proof.
  unfold registered. intros Hreg. unfold gameOver.
  destruct (GameStateManager.isReady (gameStateManager w));
    [| repeat split; exact Hreg].
  unfold setState. rewrite Hreg.
  change (GameStateManager.states registeredManager !! "GameOverState")
    with (Some (JSInstance GameOverState 4)).
  cbn [string_truthy String.eqb negb state_truthy fst].
  destruct (GameStateManager.currentState (gameStateManager w))
    as [[| cls oid |] |]; try (repeat split; exact Hreg).
  destruct cls; repeat split; exact Hreg.
Qed.

Lemma playerStep_effect (i : nat) (w : World) (e : Enemy.t) :
  registered w ->
  enemies w !! i = Some e ->
  let hit := enemyHitsPlayer e (player w) in
  let w' := playerStep i w in
  registered w' /\ player w' = player w /\
  enemies w' = (if hit then delete i (enemies w) else enemies w) /\
  lives w' = lives w - (if hit && negb (shielded (player w)) then 1 else 0).
Proof.
  intros Hreg He hit w'. subst hit w'. unfold playerStep, shielded.
  rewrite He.
  destruct (enemyHitsPlayer e (player w)); cbn [andb];
    [| repeat split; try exact Hreg; lia].
  destruct (Player.invincible (player w) && Player.shieldActive (player w));
    cbn [negb];
    [repeat split; try exact Hreg; cbn [lives set_enemies]; lia |].
  set (w2 := updateLives (-1) (set_enemies (delete i (enemies w)) w)).
  assert (Hreg2 : registered w2) by exact Hreg.
  assert (Hl2 : lives w2 = lives w - 1) by (cbn; lia).
  destruct (lives w2 <=? 0).
  - destruct (gameOver_effect w2 Hreg2) as (Hl & Hen & Hp & Hr & _).
    rewrite Hl, Hen, Hp. repeat split; try exact Hr; exact Hl2.
  - repeat split; try exact Hreg; exact Hl2.
Qed.

Lemma delete_middle {A : Type} (l1 l2 : list A) (a : A) :
  delete (length l1) (l1 ++ a :: l2)%list = (l1 ++ l2)%list.
Proof. induction l1 as [| x l1 IH]; simpl; [reflexivity | now rewrite IH]. Qed.

Lemma lookup_middle {A : Type} (l1 l2 : list A) (a : A) :
  (l1 ++ a :: l2)%list !! length l1 = Some a.
Proof. induction l1 as [| x l1 IH]; simpl; [reflexivity | exact IH]. Qed.

(** The loop over the first [length front] indices, from the last of them
    down: colliding enemies of [front] are removed, each costing a life
    unless the shield is up; the enemies behind are not visited. *)
Lemma playerLoop_effect (front back : list Enemy.t) (w : World) :
  registered w ->
  enemies w = (front ++ back)%list ->
  let w' := loopDown playerStep (length front) w in
  registered w' /\ player w' = player w /\
  enemies w'
    = (filter (fun e => negb (enemyHitsPlayer e (player w))) front
       ++ back)%list /\
  lives w'
    = lives w - (if shielded (player w) then 0
                 else Z.of_nat (collidingEnemies (player w) front)).
Proof.
  revert back w. induction front as [| e front IH] using rev_ind;
    intros back w Hreg Hen; cbv zeta.
  - simpl. repeat split; try assumption.
    unfold collidingEnemies. simpl. destruct (shielded (player w)); lia.
  - rewrite length_app. simpl length.
    replace (length front + 1)%nat with (S (length front)) by lia.
    cbn [loopDown].
    rewrite <- app_assoc in Hen. simpl in Hen.
    assert (He : enemies w !! length front = Some e)
      by (rewrite Hen; apply lookup_middle).
    destruct (playerStep_effect (length front) w e Hreg He)
      as (Hreg1 & Hp1 & Hen1 & Hl1).
    set (w1 := playerStep (length front) w) in *.
    rewrite Hen, delete_middle in Hen1.
    assert (Hen1' : enemies w1
              = (front ++ (if enemyHitsPlayer e (player w) then back
                           else e :: back))%list)
      by (rewrite Hen1; destruct (enemyHitsPlayer e (player w)); reflexivity).
    destruct (IH _ w1 Hreg1 Hen1') as (Hreg2 & Hp2 & Hen2 & Hl2).
    split; [exact Hreg2 |]. split; [congruence |].
    rewrite Hen2, Hl2, Hl1, Hp1.
    unfold collidingEnemies. rewrite !filter_app, length_app. simpl.
    destruct (enemyHitsPlayer e (player w)); simpl;
      destruct (shielded (player w)); simpl;
      rewrite <- ?app_assoc; simpl; split; try reflexivity; lia.
Qed.

Lemma loopDown_invariant {A : Type} (P : A -> Prop) (body : nat -> A -> A) :
  (forall i a, P a -> P (body i a)) ->
  forall n a, P a -> P (loopDown body n a).
Proof.
  intros Hbody n. induction n as [| n IH]; intros a Ha; simpl;
    [exact Ha | apply IH, Hbody, Ha].
Qed.

Lemma explodeAt_sameLives (Math_sqrt : Q -> Q) (cx cy radius : Q) (i : nat)
    (w0 w : World) :
  sameLives w0 w -> sameLives w0 (explodeAt Math_sqrt cx cy radius i w).
Proof.
  intros H. unfold explodeAt.
  destruct (enemies w !! i) as [e |]; [| exact H].
  destruct (Qle_bool _ radius); [| exact H].
  destruct (Enemy.takeDamage e _) as [e' destroyed].
  destruct destroyed; exact H.
Qed.

Lemma bulletStep_sameLives (Math_sqrt : Q -> Q) (i : nat) (w0 w : World) :
  sameLives w0 w -> sameLives w0 (bulletStep Math_sqrt i w).
Proof.
  intros H. unfold bulletStep.
  destruct (bullets w !! i) as [b |]; [| exact H].
  destruct (findHit b (enemies w) _) as [j |]; [| exact H].
  unfold resolveHit.
  destruct (Player.explosiveRoundsActive _).
  - unfold applyExplosiveDamage.
    apply (loopDown_invariant (sameLives w0)); [| exact H].
    intros k a. apply explodeAt_sameLives.
  - unfold hitEnemy. cbn [enemies set_bullets].
    destruct (enemies w !! j) as [e |]; [| exact H].
    destruct (Enemy.takeDamage e 1) as [e' destroyed].
    destruct destroyed; exact H.
Qed.

Lemma bulletEnemyCollisions_sameLives (Math_sqrt : Q -> Q) (w : World) :
  sameLives w (bulletEnemyCollisions Math_sqrt w).
Proof.
  unfold bulletEnemyCollisions.
  apply (loopDown_invariant (sameLives w)).
  - intros i a. apply bulletStep_sameLives.
  - repeat split.
Qed.

(** C1, as stated, fails: with one life left and two enemies on the
    unshielded player, one collision pass leaves [lives = -1], and so does
    the whole frame; four enemies do the same to the three lives held on
    entering the game state.  Such a world is reached in a session played
    from the start: after 275 frames the game is running with three lives
    and four enemies one step above the player, and the next frame ends
    with [lives = -1]. *)
Lemma lives_go_negative :
  (lives lastLifeWorld = 1 /\
   lives (checkCollisions sampleSqrt lastLifeWorld) = -1 /\
   lives (GameState_update sampleSqrt sampleSin sampleCos quietFrame
                           lastLifeWorld) = -1 /\
   lives swarmedWorld = 3 /\
   lives (checkCollisions sampleSqrt swarmedWorld) = -1) /\
  let w := runSession sampleSqrt sampleSin sampleCos swarmApproach
                      (loadedWorld (Canvas.mk 800 600)) in
  let w' := runSession sampleSqrt sampleSin sampleCos swarmRun
                       (loadedWorld (Canvas.mk 800 600)) in
  (lives w, gameRunning w, shielded (player w), length (enemies w),
   lives w', gameRunning w')
  = (3, true, false, 4%nat, -1, false).
Proof.
  split; [repeat split; vm_compute; reflexivity |].
  vm_compute. reflexivity.
Qed.

(** C1, amended: lives are 3 on entering the game state, the bullet pass
    does not change them, and the player pass subtracts exactly one life
    per enemy that overlaps an unshielded player (none under the shield),
    with no floor at zero; so lives are non-negative after the pass exactly
    when no more enemies collide than lives were held before it. *)
Theorem lives_after_collision_pass
    (Math_sqrt : Q -> Q) (w0 w : World) :
  registered w ->
  let lost := if shielded (player w) then 0
              else Z.of_nat (collidingEnemies (player w) (enemies w)) in
  lives (GameState_enter w0) = 3 /\
  lives (bulletEnemyCollisions Math_sqrt w) = lives w /\
  lives (playerEnemyCollisions w) = lives w - lost /\
  enemies (playerEnemyCollisions w)
    = filter (fun e => negb (enemyHitsPlayer e (player w))) (enemies w) /\
  (0 <= lives (playerEnemyCollisions w) <-> lost <= lives w).
Proof.
  intros Hreg lost.
  destruct (playerLoop_effect (enemies w) [] w Hreg
              (eq_sym (app_nil_r (enemies w))))
    as (_ & _ & Hen & Hl).
  rewrite app_nil_r in Hen. fold (playerEnemyCollisions w) in Hen, Hl.
  fold lost in Hl.
  split; [apply GameState_enter_session |].
  split; [apply bulletEnemyCollisions_sameLives |].
  split; [exact Hl |]. split; [exact Hen |].
  rewrite Hl. lia.
Qed.

Lemma lives_after_collision_pass_witness :
  lives (GameState_enter lastLifeWorld) = 3 /\
  lives (bulletEnemyCollisions sampleSqrt lastLifeWorld) = 1 /\
  lives (playerEnemyCollisions lastLifeWorld) = 1 - 2 /\
  enemies (playerEnemyCollisions lastLifeWorld) = [] /\
  (0 <= lives (playerEnemyCollisions lastLifeWorld) <-> 2 <= 1).
Proof.
  apply (lives_after_collision_pass sampleSqrt lastLifeWorld lastLifeWorld).
  reflexivity.
Defined.

(** ** Explosive rounds *)

Lemma explosiveDamage_monotone (d1 d2 radius : Q) :
  (0 < radius)%Q -> (d1 <= d2)%Q ->
  explosiveDamage d2 radius <= explosiveDamage d1 radius.
Proof.
  intros Hr Hd.
  unfold explosiveDamage, EXPLOSION_MAX_DAMAGE, EXPLOSION_MIN_DAMAGE.
  apply Qceiling_resp_le.
  assert (Hdiv : (d1 / radius <= d2 / radius)%Q).
  { unfold Qdiv. apply Qmult_le_compat_r; [exact Hd |].
    apply Qinv_le_0_compat. lra. }
  lra.
Qed.

Lemma explosiveDamage_centre (radius : Q) :
  (0 < radius)%Q -> explosiveDamage 0 radius = 3.
Proof.
  intros Hr.
  unfold explosiveDamage, EXPLOSION_MAX_DAMAGE, EXPLOSION_MIN_DAMAGE.
  assert (E : (1 + (3 - 1) * (1 - 0 / radius) == 3)%Q) by (field; lra).
  rewrite E. reflexivity.
Qed.

Lemma explosiveDamage_edge (radius : Q) :
  (0 < radius)%Q -> explosiveDamage radius radius = 1.
Proof.
  intros Hr.
  unfold explosiveDamage, EXPLOSION_MAX_DAMAGE, EXPLOSION_MIN_DAMAGE.
  assert (E : (1 + (3 - 1) * (1 - radius / radius) == 1)%Q) by (field; lra).
  rewrite E. reflexivity.
Qed.

Lemma insert_middle {A : Type} (l1 l2 : list A) (a a' : A) :
  <[length l1 := a']> (l1 ++ a :: l2)%list = (l1 ++ a' :: l2)%list.
Proof. induction l1 as [| x l1 IH]; simpl; [reflexivity | now rewrite IH]. Qed.

(** The loop of [applyExplosiveDamage] over the first [length front]
    indices treats each enemy of [front] on its own. *)
Lemma explosionLoop_effect (Math_sqrt : Q -> Q) (cx cy radius : Q)
    (front back : list Enemy.t) (w : World) :
  enemies w = (front ++ back)%list ->
  enemies (loopDown (explodeAt Math_sqrt cx cy radius) (length front) w)
    = (flat_map (explosionOutcome Math_sqrt cx cy radius) front
       ++ back)%list.
Proof.
  revert back w. induction front as [| e front IH] using rev_ind;
    intros back w Hen.
  - exact Hen.
  - rewrite length_app. simpl length.
    replace (length front + 1)%nat with (S (length front)) by lia.
    cbn [loopDown].
    rewrite <- app_assoc in Hen. simpl in Hen.
    rewrite flat_map_app. simpl flat_map. rewrite app_nil_r, <- app_assoc.
    set (w1 := explodeAt Math_sqrt cx cy radius (length front) w).
    assert (Hen1 : enemies w1
              = (front ++ explosionOutcome Math_sqrt cx cy radius e
                  ++ back)%list).
    { subst w1. unfold explodeAt, explosionOutcome.
      rewrite Hen, lookup_middle.
      destruct (Qle_bool _ radius); [| exact Hen].
      destruct (Enemy.takeDamage e _) as [e' destroyed].
      destruct destroyed; cbn [enemies set_enemies updateScore set_score].
      - apply delete_middle.
      - apply insert_middle. }
    apply IH. exact Hen1.
Qed.

(** C9.  An explosion of radius 50 treats every enemy on its own: one whose
    centre is farther than 50 from the impact point is left exactly as it
    was; one within reach takes [ceil(1 + (3 - 1) * (1 - d / 50))] damage
    for its distance [d].  That damage is 3 at distance 0, 2 at distance 25
    and 1 at the edge, lies between 1 and 3 in between, and does not grow
    with the distance. *)
Theorem explosive_damage_falloff
    (Math_sqrt : Q -> Q) (cx cy : Q) (w : World) (e : Enemy.t) (d1 d2 : Q) :
  (0 <= d1)%Q -> (d1 <= d2)%Q -> (d2 <= 50)%Q ->
  enemies (applyExplosiveDamage Math_sqrt cx cy 50 w)
    = flat_map (explosionOutcome Math_sqrt cx cy 50) (enemies w) /\
  ((50 < distanceTo Math_sqrt cx cy e)%Q ->
   explosionOutcome Math_sqrt cx cy 50 e = [e]) /\
  ((distanceTo Math_sqrt cx cy e <= 50)%Q ->
   explosionOutcome Math_sqrt cx cy 50 e
     = let hit := Enemy.takeDamage e
                    (explosiveDamage (distanceTo Math_sqrt cx cy e) 50) in
       if snd hit then [] else [fst hit]) /\
  explosiveDamage d1 50 = Qceiling (3 - d1 / 25) /\
  explosiveDamage d2 50 <= explosiveDamage d1 50 /\
  1 <= explosiveDamage d2 50 /\ explosiveDamage d1 50 <= 3 /\
  explosiveDamage 0 50 = 3 /\ explosiveDamage 25 50 = 2 /\
  explosiveDamage 50 50 = 1 /\
  explosiveDamage 25 50 < explosiveDamage 0 50.
Proof.
  intros H0 H12 H2.
  assert (Hr : (0 < 50)%Q) by reflexivity.
  split.
  { unfold applyExplosiveDamage.
    rewrite (explosionLoop_effect Math_sqrt cx cy 50 (enemies w) [] w)
      by (symmetry; apply app_nil_r).
    apply app_nil_r. }
  split.
  { intros Hfar. unfold explosionOutcome.
    destruct (Qle_bool _ 50) eqn:Hle; [| reflexivity].
    apply Qle_bool_iff in Hle. lra. }
  split.
  { intros Hnear. unfold explosionOutcome.
    apply Qle_bool_iff in Hnear. rewrite Hnear.
    destruct (Enemy.takeDamage e _) as [e' destroyed] eqn:Htd.
    cbn [fst snd]. destruct destroyed; [reflexivity |].
    unfold Enemy.takeDamage in Htd. injection Htd as <- _. reflexivity. }
  split.
  { unfold explosiveDamage, EXPLOSION_MAX_DAMAGE, EXPLOSION_MIN_DAMAGE.
    apply Qceiling_comp. field. }
  split; [apply explosiveDamage_monotone; assumption |].
  split.
  { rewrite <- (explosiveDamage_edge 50 Hr).
    apply explosiveDamage_monotone; assumption. }
  split.
  { rewrite <- (explosiveDamage_centre 50 Hr).
    apply explosiveDamage_monotone; assumption. }
  repeat split.
Qed.

Lemma explosive_damage_falloff_witness :
  (distanceTo sampleSqrt 115 115 (blastEnemy 100) == 0)%Q /\
  (distanceTo sampleSqrt 115 115 (blastEnemy 125) == 25)%Q /\
  (distanceTo sampleSqrt 115 115 (blastEnemy 160) == 60)%Q /\
  enemies (applyExplosiveDamage sampleSqrt 115 115 50 blastWorld)
    = [Enemy.mk 125 100 30 30 1 3 1 true; blastEnemy 160] /\
  explosiveDamage 25 50 <= explosiveDamage 0 50 /\
  explosiveDamage 25 50 < explosiveDamage 0 50.
Proof.
  destruct (explosive_damage_falloff sampleSqrt 115 115 blastWorld
              (blastEnemy 160) 0 25)
    as (Hloop & _ & _ & _ & Hmono & _ & _ & _ & _ & _ & Hstrict).
  - discriminate.
  - discriminate.
  - discriminate.
  - split; [vm_compute; reflexivity |].
    split; [vm_compute; reflexivity |].
    split; [vm_compute; reflexivity |].
    split; [rewrite Hloop; vm_compute; reflexivity |].
    split; [exact Hmono | exact Hstrict].
Defined.

(** ** Invariants of a session *)

Lemma sessionInvariant_core (c : Canvas.t) (w w' : World) :
  core w' = core w -> sessionInvariant c w -> sessionInvariant c w'.
Proof.
  unfold core. intros [= Hp Ht Hc Hr Hs].
  unfold sessionInvariant, gridInvariant, powerUpInvariant, flagsCoherent,
    registered.
  rewrite Hp, Ht, Hc, Hr, Hs. auto.
Qed.

Section JSMapMoreFacts.
Context {V : Type}.
Implicit Types (m : JSMap.t V) (k : string) (v : V).

Lemma JSMap_has_set m k v k' :
  JSMap.has (JSMap.set m k v) k' = String.eqb k k' || JSMap.has m k'.
Proof.
  unfold JSMap.has, JSMap.get.
  induction m as [| [k0 v0] m IH]; simpl.
  - destruct (String.eqb k k'); reflexivity.
  - destruct (String.eqb_spec k0 k) as [-> | Hne]; simpl.
    + destruct (String.eqb k k'); reflexivity.
    + destruct (String.eqb_spec k0 k') as [-> | Hne'].
      * destruct (String.eqb k k'); reflexivity.
      * exact IH.
Qed.

Lemma JSMap_delete_In m k k' :
  In k' (JSMap.keys (JSMap.delete m k)) -> In k' (JSMap.keys m).
Proof.
  unfold JSMap.keys. induction m as [| [k0 v0] m IH]; simpl; [auto |].
  destruct (String.eqb k0 k); simpl; [auto |].
  intros [H | H]; [auto | right; apply IH, H].
Qed.

Lemma JSMap_delete_NoDup m k :
  NoDup (JSMap.keys m) -> NoDup (JSMap.keys (JSMap.delete m k)).
Proof.
  unfold JSMap.keys. induction m as [| [k0 v0] m IH]; simpl; [auto |].
  intros Hnd. inversion Hnd as [| ? ? Hnotin Hnd']; subst.
  destruct (String.eqb k0 k); simpl; [exact Hnd' |].
  constructor; [| apply IH, Hnd'].
  intros Hin. apply Hnotin. apply (JSMap_delete_In m k). exact Hin.
Qed.

Lemma JSMap_has_delete_ne m k k' :
  k <> k' -> JSMap.has (JSMap.delete m k) k' = JSMap.has m k'.
Proof.
  intros Hne. unfold JSMap.has, JSMap.get.
  induction m as [| [k0 v0] m IH]; simpl; [reflexivity |].
  destruct (String.eqb_spec k0 k) as [-> | Hne0]; simpl.
  - destruct (String.eqb_spec k k'); [contradiction | reflexivity].
  - destruct (String.eqb k0 k'); [reflexivity | exact IH].
Qed.
End JSMapMoreFacts.

Lemma sameSession_grid (c : Canvas.t) (w w' : World) :
  sameSession w w' -> gridInvariant c w -> gridInvariant c w'.
Proof.
  unfold sameSession, gridInvariant, standardPlayer, playerOnGrid, inBounds.
  intros H [Hcan Hg].
  repeat match goal with H : _ /\ _ |- _ => destruct H end.
  split; [unfold registered in *; split; congruence |].
  intros Hc. specialize (Hg Hc).
  repeat match goal with H : _ = _ |- _ => rewrite H end.
  exact Hg.
Qed.

Lemma log_sameSession (ev : LogEvent) (w : World) :
  sameSession w (log ev w) /\ activePowerUps (log ev w) = activePowerUps w /\
  player (log ev w) = player w.
Proof. unfold sameSession. repeat split. Qed.

Lemma addPowerUp_sameSession (type : string) (now : Z) (w : World) :
  sameSession w (fst (addPowerUp type now w)).
Proof.
  unfold addPowerUp.
  destruct (negb (string_truthy type) || _); [apply sameSession_refl |].
  destruct (JSMap.get (activePowerUps w) type); cbn [fst].
  - unfold sameSession. repeat split.
  - eapply sameSession_trans; [| apply log_sameSession].
    eapply sameSession_trans; [| apply applyPowerUpEffect_sameSession].
    unfold sameSession. repeat split.
Qed.

Lemma removePowerUp_sameSession (type : string) (w : World) :
  sameSession w (fst (removePowerUp type w)).
Proof.
  unfold removePowerUp.
  destruct (negb (JSMap.has (activePowerUps w) type));
    [apply sameSession_refl |].
  cbn [fst].
  eapply sameSession_trans; [apply applyPowerUpEffect_sameSession |].
  unfold sameSession. repeat split.
Qed.

Lemma addPowerUp_powerUpInvariant (type : string) (now : Z) (w : World) :
  powerUpInvariant w -> powerUpInvariant (fst (addPowerUp type now w)).
Proof.
  intros [Hcoh Hnd]. unfold addPowerUp.
  destruct (negb (string_truthy type) || _); [split; assumption |].
  rewrite flagsCoherent_spec in Hcoh.
  destruct (JSMap.get (activePowerUps w) type) as [existing |]; cbn [fst].
  - split.
    + apply flagsCoherent_spec. intros T cfg Hin Hflag.
      cbn [log player activePowerUps set_console set_activePowerUps]
        in Hflag |- *.
      rewrite JSMap_has_set, (Hcoh T cfg Hin Hflag). apply orb_true_r.
    + cbn [log activePowerUps set_console set_activePowerUps].
      apply JSMap_set_NoDup, Hnd.
  - set (w1 := set_activePowerUps _ w).
    assert (Ht : activePowerUps (log (PowerUpActivated type)
                                   (applyPowerUpEffect type true w1))
                 = activePowerUps w1)
      by apply (proj2 (applyPowerUpEffect_sameSession type true w1)).
    split.
    + apply flagsCoherent_spec. intros T cfg Hin Hflag.
      rewrite Ht. change (player (log _ ?x)) with (player x) in Hflag.
      rewrite (flagOf_after_effect T cfg type true w1 Hin) in Hflag.
      subst w1. cbn [activePowerUps set_activePowerUps].
      rewrite JSMap_has_set.
      destruct (String.eqb type T); [reflexivity |].
      apply (Hcoh T cfg Hin Hflag).
    + rewrite Ht. subst w1. cbn [activePowerUps set_activePowerUps].
      apply JSMap_set_NoDup, Hnd.
Qed.

Lemma removePowerUp_powerUpInvariant (type : string) (w : World) :
  powerUpInvariant w -> powerUpInvariant (fst (removePowerUp type w)).
Proof.
  intros [Hcoh Hnd]. unfold removePowerUp.
  destruct (negb (JSMap.has (activePowerUps w) type)); [split; assumption |].
  rewrite flagsCoherent_spec in Hcoh. cbn [fst].
  set (w1 := applyPowerUpEffect type false w).
  assert (Ht : activePowerUps w1 = activePowerUps w)
    by apply (proj2 (applyPowerUpEffect_sameSession type false w)).
  cbn [log activePowerUps set_console set_activePowerUps].
  split.
  - apply flagsCoherent_spec. intros T cfg Hin Hflag.
    cbn [log player activePowerUps set_console set_activePowerUps]
      in Hflag |- *.
    subst w1. rewrite (flagOf_after_effect T cfg type false w Hin) in Hflag.
    rewrite Ht.
    destruct (String.eqb_spec type T) as [-> | Hne]; [discriminate |].
    rewrite JSMap_has_delete_ne by exact Hne.
    apply (Hcoh T cfg Hin Hflag).
  - rewrite Ht. apply JSMap_delete_NoDup, Hnd.
Qed.

Lemma fold_preserves {A B : Type} (P : A -> Prop) (f : A -> B -> A) :
  (forall a b, P a -> P (f a b)) ->
  forall l a, P a -> P (fold_left f l a).
Proof.
  intros Hf l. induction l as [| b l IH]; intros a Ha; simpl;
    [exact Ha | apply IH, Hf, Ha].
Qed.

(** The invariants without the part about the manager's table survive
    whatever leaves the session alone. *)
Lemma sameSession_invariant (c : Canvas.t) (w w' : World) :
  sameSession w w' -> powerUpInvariant w' ->
  sessionInvariant c w -> sessionInvariant c w'.
Proof.
  intros Hsame Hpu (Hg & _ & Hr).
  split; [eapply sameSession_grid; eassumption |].
  split; [exact Hpu |].
  destruct Hsame as (_ & _ & _ & _ & _ & _ & _ & _ & Hrate & _).
  rewrite Hrate. exact Hr.
Qed.

Lemma addPowerUp_invariant (c : Canvas.t) (type : string) (now : Z)
    (w : World) :
  sessionInvariant c w -> sessionInvariant c (fst (addPowerUp type now w)).
Proof.
  intros H. apply (sameSession_invariant c w); [| | exact H].
  - apply addPowerUp_sameSession.
  - apply addPowerUp_powerUpInvariant, H.
Qed.

Lemma removePowerUp_invariant (c : Canvas.t) (type : string) (w : World) :
  sessionInvariant c w -> sessionInvariant c (fst (removePowerUp type w)).
Proof.
  intros H. apply (sameSession_invariant c w); [| | exact H].
  - apply removePowerUp_sameSession.
  - apply removePowerUp_powerUpInvariant, H.
Qed.

Lemma PowerUpManager_updatePowerUps_invariant (c : Canvas.t) (now : Z)
    (w : World) :
  sessionInvariant c w ->
  sessionInvariant c (PowerUpManager_updatePowerUps now w).
Proof.
  unfold PowerUpManager_updatePowerUps.
  apply (fold_preserves (sessionInvariant c)).
  intros a type. apply removePowerUp_invariant.
Qed.

Lemma checkPowerUpCollisions_invariant (c : Canvas.t)
    (pickups : list (string * Z)) (w : World) :
  sessionInvariant c w ->
  sessionInvariant c (checkPowerUpCollisions pickups w).
Proof.
  unfold checkPowerUpCollisions.
  apply (fold_preserves (sessionInvariant c)).
  intros a [type now] Ha.
  destruct (powerUpManagerInitialized a);
    [apply addPowerUp_invariant, Ha | exact Ha].
Qed.

Lemma flagOf_setPosition (T : string) (p : Player.t) (x y : Q) :
  flagOf T (Player.setPosition p x y) = flagOf T p.
Proof. reflexivity. Qed.

Lemma flagOf_reset (T : string) (p : Player.t) :
  flagOf T (Player.reset p) = false.
Proof.
  unfold flagOf.
  repeat match goal with
         | |- context [String.eqb T ?s] => destruct (String.eqb T s)
         end; reflexivity.
Qed.

Lemma start_on_grid (c : Canvas.t) (p : Player.t) :
  goodCanvas c -> standardPlayer p ->
  standardPlayer (Player.reset p) /\
  playerOnGrid (canvasWidthOr c) (canvasHeightOr c) (Player.reset p).
Proof.
  intros (Hcw & Hch & Hx & Hy) (Hw & Hh & Hs).
  split; [repeat split; assumption |].
  unfold playerOnGrid, inBounds.
  cbn [Player.reset Player.x Player.y Player.width Player.height].
  rewrite Hw, Hh.
  split; [exists 77; reflexivity |].
  split; [exists 110; reflexivity |].
  split; (split; [discriminate | assumption]).
Qed.

Lemma GameState_enter_invariant (c : Canvas.t) (w : World) :
  sessionInvariant c w -> sessionInvariant c (GameState_enter w).
Proof.
  intros ((Hcan & Hgrid) & (_ & Hnd) & _).
  unfold GameState_enter. cbv zeta.
  set (w1 := set_timeSlowMultiplier 1 _).
  assert (H1 : sessionInvariant c w1).
  { split.
    { split; [exact Hcan |]. intros Hc.
      apply (start_on_grid c (player w) Hc), Hgrid, Hc. }
    split.
    - split; [| exact Hnd].
      apply flagsCoherent_spec. intros T cfg _ Hflag.
      change (player w1) with (Player.reset (player w)) in Hflag.
      rewrite flagOf_reset in Hflag. discriminate.
    - change (enemySpawnRate w1)
        with GAME_CONFIG.INITIAL_ENEMY_SPAWN_RATE.
      unfold spawnRateOnGrid, GAME_CONFIG.INITIAL_ENEMY_SPAWN_RATE,
        GAME_CONFIG.MIN_ENEMY_SPAWN_RATE.
      split; [lia | reflexivity]. }
  clearbody w1.
  assert (H2 : sessionInvariant c
                 (if powerUpManagerInitialized w1
                  then fst (clearAllPowerUps w1) else w1)).
  { destruct (powerUpManagerInitialized w1); [| exact H1].
    apply (sameSession_invariant c w1);
      [apply clearAllPowerUps_sameSession | | exact H1].
    destruct H1 as (_ & (Hcoh & _) & _).
    destruct (clearAllPowerUps_from_coherent w1 Hcoh)
      as (_ & Htable & Hoff & _).
    split; [| rewrite Htable; constructor].
    apply flagsCoherent_spec. intros T cfg Hin Hflag. exfalso.
    revert Hoff Hflag. generalize (player (fst (clearAllPowerUps w1))).
    intros p. unfold Player.flagsOff. revert Hin.
    unfold CATALOG. simpl. intros H.
    repeat (destruct H as [H | H]; [inversion H; subst; clear H |]);
      try contradiction;
      cbv [flagOf String.eqb Ascii.eqb Bool.eqb];
      destruct p as [? ? ? ? ? [] [] [] [] [] [] []]; simpl;
      intros; discriminate. }
  revert H2. apply sessionInvariant_core. reflexivity.
Qed.

Lemma exitState_core (cls : StateClass) (w : World) :
  core (exitState cls w) = core w.
Proof. destruct cls; reflexivity. Qed.

Lemma enterState_invariant (c : Canvas.t) (cls : StateClass) (w : World) :
  sessionInvariant c w -> sessionInvariant c (enterState cls w).
Proof.
  intros H. destruct cls; try exact H.
  apply GameState_enter_invariant; assumption.
Qed.

Lemma setState_invariant (c : Canvas.t) (stateName : string) (w : World) :
  sessionInvariant c w -> sessionInvariant c (fst (setState stateName w)).
Proof.
  intros H. unfold setState.
  destruct (negb (string_truthy stateName)); [exact H |].
  destruct (GameStateManager.states (gameStateManager w) !! stateName)
    as [newState |]; [| exact H].
  destruct (negb (state_truthy newState)); [exact H |].
  cbn [fst].
  set (w1 := match GameStateManager.currentState (gameStateManager w) with
             | Some (JSInstance cls _) => exitState cls w
             | _ => w
             end).
  assert (H1 : sessionInvariant c w1).
  { revert H. apply sessionInvariant_core. subst w1.
    destruct (GameStateManager.currentState (gameStateManager w))
      as [[| cls oid |] |]; try reflexivity.
    apply exitState_core. }
  clearbody w1.
  assert (H2 : sessionInvariant c (set_currentState (Some newState) w1))
    by (revert H1; apply sessionInvariant_core; reflexivity).
  destruct newState as [| cls oid |]; try exact H2.
  apply enterState_invariant; assumption.
Qed.

Lemma gameOver_invariant (c : Canvas.t) (w : World) :
  sessionInvariant c w -> sessionInvariant c (gameOver w).
Proof.
  intros H. unfold gameOver.
  destruct (GameStateManager.isReady (gameStateManager w)).
  - apply setState_invariant; assumption.
  - revert H. apply sessionInvariant_core. reflexivity.
Qed.

Lemma shootBullet_core (Math_sin Math_cos : Q -> Q) (now : Z) (w : World) :
  core (shootBullet Math_sin Math_cos now w) = core w.
Proof.
  unfold shootBullet, createBullets.
  destruct (Qltb _ _); [| reflexivity].
  destruct (getCurrentBulletPattern w); reflexivity.
Qed.

Lemma movePlayer_invariant (c : Canvas.t) (w : World) :
  sessionInvariant c w ->
  sessionInvariant c
    (set_player (movePlayer (keys w) (canvasWidthOr c) (canvasHeightOr c)
                            (player w)) w).
Proof.
  intros ((Hcan & Hgrid) & Hp & Hr).
  split; [| split; [exact Hp | exact Hr]].
  split; [exact Hcan |]. intros Hc.
  destruct (Hgrid Hc) as ((Hw & Hh & Hs) & Hg).
  destruct Hc as (Hcw & Hch & _).
  split; [repeat split; assumption |].
  cbn [player set_player].
  apply movePlayer_onGrid; assumption.
Qed.

Lemma GameState_handleInput_invariant (Math_sin Math_cos : Q -> Q)
    (c : Canvas.t) (now : Z) (w : World) :
  sessionInvariant c w ->
  sessionInvariant c (GameState_handleInput Math_sin Math_cos now w).
Proof.
  intros H. unfold GameState_handleInput.
  assert (Hcan : canvas w = Some c) by apply H. rewrite Hcan. cbv zeta.
  pose proof (movePlayer_invariant c w H) as H1.
  set (w1 := set_player _ w) in *. clearbody w1.
  set (w2 := if Keys.Space (keys w1) then _ else w1).
  assert (H2 : sessionInvariant c w2).
  { subst w2. destruct (Keys.Space (keys w1)); [| exact H1].
    revert H1. apply sessionInvariant_core.
    apply (shootBullet_core Math_sin Math_cos now w1). }
  clearbody w2.
  destruct (Keys.Escape (keys w2)); [| exact H2].
  apply setState_invariant.
  revert H2. apply sessionInvariant_core. reflexivity.
Qed.

Lemma spawnEnemy_invariant (c : Canvas.t) (now : Z) (r1 r2 r3 : Q)
    (w : World) :
  sessionInvariant c w -> sessionInvariant c (spawnEnemy now r1 r2 r3 w).
Proof.
  intros (Hg & Hp & Hr).
  pose proof (spawnEnemy_keeps_grid now r1 r2 r3 w Hr) as Hr'.
  revert Hr'. unfold spawnEnemy.
  destruct (enemySpawnRate w <? now - lastEnemySpawn w);
    [| intros _; split; [exact Hg | split; [exact Hp | exact Hr]]].
  cbv zeta.
  destruct (GAME_CONFIG.MIN_ENEMY_SPAWN_RATE <? _); intros Hr';
    (split; [exact Hg | split; [exact Hp | exact Hr']]).
Qed.

Lemma loopDown_core {n : nat} (body : nat -> World -> World) (w : World) :
  (forall i a, core (body i a) = core a) ->
  core (loopDown body n w) = core w.
Proof.
  intros Hbody.
  apply (loopDown_invariant (fun a => core a = core w)); [| reflexivity].
  intros i a Ha. rewrite Hbody. exact Ha.
Qed.

Lemma updateBullets_core (w : World) : core (updateBullets w) = core w.
Proof.
  unfold updateBullets. apply loopDown_core. intros i a.
  destruct (bullets a !! i) as [b |]; [| reflexivity].
  destruct (Qltb _ 0); reflexivity.
Qed.

Lemma updateEnemies_core (w : World) : core (updateEnemies w) = core w.
Proof.
  unfold updateEnemies. apply loopDown_core. intros i a.
  destruct (enemies a !! i) as [e |]; [| reflexivity].
  destruct (Qltb _ _); reflexivity.
Qed.

Lemma explodeAt_core (Math_sqrt : Q -> Q) (cx cy radius : Q) (i : nat)
    (w : World) :
  core (explodeAt Math_sqrt cx cy radius i w) = core w.
Proof.
  unfold explodeAt.
  destruct (enemies w !! i) as [e |]; [| reflexivity].
  destruct (Qle_bool _ radius); [| reflexivity].
  destruct (Enemy.takeDamage e _) as [e' destroyed].
  destruct destroyed; reflexivity.
Qed.

Lemma bulletEnemyCollisions_core (Math_sqrt : Q -> Q) (w : World) :
  core (bulletEnemyCollisions Math_sqrt w) = core w.
Proof.
  unfold bulletEnemyCollisions. apply loopDown_core. intros i a.
  unfold bulletStep.
  destruct (bullets a !! i) as [b |]; [| reflexivity].
  destruct (findHit b (enemies a) _) as [j |]; [| reflexivity].
  unfold resolveHit.
  destruct (Player.explosiveRoundsActive _).
  - unfold applyExplosiveDamage.
    rewrite loopDown_core by (intros; apply explodeAt_core). reflexivity.
  - unfold hitEnemy. cbn [enemies set_bullets].
    destruct (enemies a !! j) as [e |]; [| reflexivity].
    destruct (Enemy.takeDamage e 1) as [e' destroyed].
    destruct destroyed; reflexivity.
Qed.

Lemma playerEnemyCollisions_invariant (c : Canvas.t) (w : World) :
  sessionInvariant c w -> sessionInvariant c (playerEnemyCollisions w).
Proof.
  unfold playerEnemyCollisions.
  apply (loopDown_invariant (sessionInvariant c)).
  intros i a Ha. unfold playerStep.
  destruct (enemies a !! i) as [e |]; [| exact Ha].
  destruct (enemyHitsPlayer e (player a)); [| exact Ha].
  destruct (Player.invincible (player a) && Player.shieldActive (player a)).
  - revert Ha. apply sessionInvariant_core. reflexivity.
  - cbv zeta.
    set (a2 := updateLives (-1) _).
    assert (H2 : sessionInvariant c a2)
      by (revert Ha; apply sessionInvariant_core; reflexivity).
    destruct (lives a2 <=? 0); [apply gameOver_invariant; assumption |].
    exact H2.
Qed.

Section SessionInvariant.
Variables Math_sqrt Math_sin Math_cos : Q -> Q.
Variable c : Canvas.t.

Lemma GameState_update_invariant (inp : FrameInput) (w : World) :
  sessionInvariant c w ->
  sessionInvariant c
    (GameState_update Math_sqrt Math_sin Math_cos inp w).
Proof.
  intros H. unfold GameState_update.
  destruct (negb (gameRunning w)); [exact H |]. cbv zeta.
  apply (GameState_handleInput_invariant Math_sin Math_cos c (nowShoot inp))
    in H.
  apply (spawnEnemy_invariant c (nowSpawn inp) (randomX inp)
           (randomSpeed inp) (randomHealth inp)) in H.
  apply (sessionInvariant_core c _ _ (updateBullets_core _)) in H.
  apply (sessionInvariant_core c _ _ (updateEnemies_core _)) in H.
  match type of H with
  | sessionInvariant c ?w4 =>
      assert (H5 : sessionInvariant c
                     (if powerUpManagerInitialized w4
                      then PowerUpManager_updatePowerUps (nowPowerUps inp) w4
                      else w4))
        by (destruct (powerUpManagerInitialized w4);
            [apply PowerUpManager_updatePowerUps_invariant |]; exact H)
  end.
  clear H.
  unfold checkCollisions.
  apply (sessionInvariant_core c _ _
           (bulletEnemyCollisions_core Math_sqrt _)) in H5.
  apply playerEnemyCollisions_invariant in H5.
  apply (checkPowerUpCollisions_invariant c (collected inp)) in H5.
  match goal with
  | |- sessionInvariant c (if ?b then _ else _) => destruct b
  end; [apply setState_invariant |]; exact H5.
Qed.

Lemma applyEvent_invariant (ev : SessionEvent) (w : World) :
  sessionInvariant c w ->
  sessionInvariant c (applyEvent Math_sqrt Math_sin Math_cos ev w).
Proof.
  intros H. destruct ev as [held | stateName | inp]; simpl.
  - revert H. apply sessionInvariant_core. reflexivity.
  - apply setState_invariant, H.
  - unfold managerUpdate.
    destruct (GameStateManager.currentState (gameStateManager w))
      as [[| cls oid |] |]; try exact H.
    destruct cls; try exact H.
    apply GameState_update_invariant, H.
Qed.

Lemma loadedWorld_invariant : sessionInvariant c (loadedWorld c).
Proof.
  unfold loadedWorld. apply setState_invariant.
  split; [| split].
  - split; [split; reflexivity |]. intros (Hcw & Hch & Hx & Hy).
    split; [repeat split |].
    split; [exists 77; reflexivity |].
    split; [exists 110; reflexivity |].
    split; (split; [discriminate | assumption]).
  - split; [reflexivity | constructor].
  - split; [unfold GAME_CONFIG.MIN_ENEMY_SPAWN_RATE,
             GAME_CONFIG.INITIAL_ENEMY_SPAWN_RATE; simpl; lia
           | reflexivity].
Qed.

(** Every world of a session satisfies the invariants. *)
Lemma runSession_invariant (events : list SessionEvent) :
  sessionInvariant c
    (runSession Math_sqrt Math_sin Math_cos events (loadedWorld c)).
Proof.
  unfold runSession.
  apply (fold_preserves (sessionInvariant c)).
  - intros a ev. apply applyEvent_invariant.
  - apply loadedWorld_invariant.
Qed.
End SessionInvariant.

(** ** Properties of whole sessions *)

(** C3, amended: the handlers guard each move ([x > 0] before a left move)
    and do not clamp the result.  On a canvas whose free width and height
    are whole numbers of 5-pixel steps and hold the start position (800 x
    600 is one), in every world of a session the player is within the
    canvas, and is still within it after the input handling of the next
    frame, whatever keys are held; in particular [x] does not become
    negative, and a player at [x = 0] with the left arrow held (and the
    right one not) stays at [x = 0]. *)
Theorem input_keeps_player_in_bounds
    (Math_sqrt Math_sin Math_cos : Q -> Q) (c : Canvas.t)
    (events : list SessionEvent) (now : Z) :
  goodCanvas c ->
  let w := runSession Math_sqrt Math_sin Math_cos events (loadedWorld c) in
  let p1 := player (GameState_handleInput Math_sin Math_cos now w) in
  let p2 := player (handleInput Math_sin Math_cos now w) in
  inBounds (canvasWidthOr c) (canvasHeightOr c) (player w) /\
  inBounds (canvasWidthOr c) (canvasHeightOr c) p1 /\
  p2 = p1 /\
  (0 <= Player.x p1)%Q /\
  ((Player.x (player w) == 0)%Q -> Keys.ArrowRight (keys w) = false ->
   Player.x p1 = Player.x (player w)).
Proof.
  intros Hc w p1 p2.
  destruct (runSession_invariant Math_sqrt Math_sin Math_cos c events)
    as (((Hcan & Hreg) & Hgrid) & _).
  fold w in Hcan, Hreg, Hgrid.
  destruct (Hgrid Hc) as ((Hw & Hh & Hs) & Hon).
  destruct Hc as (Hcw & Hch & _).
  destruct (input_keeps_player_on_grid Math_sin Math_cos now w c
              Hcan Hreg Hw Hh Hs Hcw Hch Hon)
    as (_ & Hin & Heq & Hedge).
  fold p1 in Hin, Heq, Hedge. fold p2 in Heq.
  split; [apply Hon |]. split; [exact Hin |]. split; [exact Heq |].
  split; [apply Hin | exact Hedge].
Qed.

Lemma input_keeps_player_in_bounds_witness :
  let w := runSession sampleSqrt sampleSin sampleCos leftRun
                      (loadedWorld (Canvas.mk 800 600)) in
  let p1 := player (GameState_handleInput sampleSin sampleCos 0 w) in
  let p2 := player (handleInput sampleSin sampleCos 0 w) in
  (Player.x (player w) == 0)%Q /\
  Keys.ArrowLeft (keys w) = true /\
  inBounds 800 600 (player w) /\
  inBounds 800 600 p1 /\
  p2 = p1 /\
  (0 <= Player.x p1)%Q /\
  ((Player.x (player w) == 0)%Q -> Keys.ArrowRight (keys w) = false ->
   Player.x p1 = Player.x (player w)).
Proof.
  split; [vm_compute; reflexivity |].
  split; [vm_compute; reflexivity |].
  apply (input_keeps_player_in_bounds sampleSqrt sampleSin sampleCos
           (Canvas.mk 800 600) leftRun 0).
  split; [exists 154; reflexivity |].
  split; [exists 114; reflexivity |].
  split; discriminate.
Defined.

(** C6.  In every world of a session, whatever effects are active,
    [clearAllPowerUps()] returns [true] and leaves the table empty, all
    seven player flags off, the time-slow multiplier at 1 and the laser off;
    the disable hook of every active type has run, in table order, while
    the table was still intact, and the clearing is logged after them. *)
Theorem clearAllPowerUps_resets
    (Math_sqrt Math_sin Math_cos : Q -> Q) (c : Canvas.t)
    (events : list SessionEvent) :
  let w := runSession Math_sqrt Math_sin Math_cos events (loadedWorld c) in
  let hooked := deactivateAllEffects (JSMap.keys (activePowerUps w)) w in
  let w' := fst (clearAllPowerUps w) in
  snd (clearAllPowerUps w) = true /\
  activePowerUps w' = [] /\
  Player.flagsOff (player w') = true /\
  timeSlowMultiplier w' = 1%Q /\
  laserActive w' = false /\
  activePowerUps hooked = activePowerUps w /\
  console hooked
    = (console w ++ map (fun type => EffectHook type false)
                        (JSMap.keys (activePowerUps w)))%list /\
  console w' = (console hooked ++ [AllPowerUpsCleared])%list.
Proof.
  intros w. apply clearAllPowerUps_from_coherent.
  apply (runSession_invariant Math_sqrt Math_sin Math_cos c events).
Qed.

(** A session in which two effects are active when the table is cleared. *)
Example clearAllPowerUps_after_pickups :
  let w := runSession sampleSqrt sampleSin sampleCos pickupRun
                      (loadedWorld (Canvas.mk 800 600)) in
  JSMap.keys (activePowerUps w) = ["SHIELD_GENERATOR"; "TIME_SLOW"] /\
  Player.shieldActive (player w) = true /\
  timeSlowMultiplier w = (1 # 2)%Q /\
  activePowerUps (fst (clearAllPowerUps w)) = [] /\
  Player.flagsOff (player (fst (clearAllPowerUps w))) = true /\
  timeSlowMultiplier (fst (clearAllPowerUps w)) = 1%Q /\
  console (fst (clearAllPowerUps w))
    = [AllPowerUpsCleared; EffectHook "SHIELD_GENERATOR" true;
       PowerUpActivated "SHIELD_GENERATOR";
       EffectHook "TIME_SLOW" true; PowerUpActivated "TIME_SLOW";
       EffectHook "SHIELD_GENERATOR" false; EffectHook "TIME_SLOW" false;
       AllPowerUpsCleared].
Proof. repeat split; vm_compute; reflexivity. Qed.

(** * Further properties of the source *)

(** ** Loops that splice while they run *)

(** A loop from the last index down whose body replaces the element at its
    index by zero or one elements acts on each element on its own. *)
Lemma loopDown_flat_map {St A : Type} (I : St -> Prop)
    (get : St -> list A) (body : nat -> St -> St) (out : A -> list A) :
  (forall i s, I s -> I (body i s)) ->
  (forall s a front back, I s -> get s = (front ++ a :: back)%list ->
     get (body (length front) s) = (front ++ out a ++ back)%list) ->
  forall front back s, I s -> get s = (front ++ back)%list ->
    get (loopDown body (length front) s) = (flat_map out front ++ back)%list.
Proof.
  intros HI Hstep front.
  induction front as [| a front IH] using rev_ind; intros back s Hs Hget.
  - exact Hget.
  - rewrite length_app. simpl length.
    replace (length front + 1)%nat with (S (length front)) by lia.
    cbn [loopDown].
    rewrite <- app_assoc in Hget. simpl in Hget.
    rewrite flat_map_app. simpl flat_map. rewrite app_nil_r, <- app_assoc.
    apply IH; [apply HI, Hs |].
    apply Hstep; assumption.
Qed.

Lemma flat_map_filter_map {A : Type} (f : A -> A) (keep : A -> bool)
    (l : list A) :
  flat_map (fun a => if keep (f a) then [f a] else []) l
    = filter keep (map f l).
Proof.
  induction l as [| a l IH]; simpl; [reflexivity |].
  rewrite IH. destruct (keep (f a)); reflexivity.
Qed.

(** X1.  [updateBullets()] moves every bullet by its velocity and drops
    exactly those that end above the top edge; the others keep their
    order, and none of them is above the top edge. *)
Theorem updateBullets_moves_and_drops (w : World) :
  bullets (updateBullets w)
    = filter (fun b => negb (Qltb (Bullet.y b) 0))
             (map Bullet.update (bullets w)) /\
  Forall (fun b => (0 <= Bullet.y b)%Q) (bullets (updateBullets w)).
Proof.
  assert (Heq : bullets (updateBullets w)
                = filter (fun b => negb (Qltb (Bullet.y b) 0))
                         (map Bullet.update (bullets w))).
  { rewrite <- flat_map_filter_map. unfold updateBullets.
    rewrite <- (app_nil_r (flat_map _ _)).
    apply (loopDown_flat_map (fun _ => True) bullets); try easy.
    - intros s a front back _ Hget. rewrite Hget, lookup_middle.
      destruct (Qltb (Bullet.y (Bullet.update a)) 0);
        cbn [bullets set_bullets negb app].
      + apply delete_middle.
      + apply insert_middle.
    - symmetry. apply app_nil_r. }
  split; [exact Heq |].
  rewrite Heq. apply Forall_forall. intros b Hb.
  apply filter_In in Hb. destruct Hb as [_ Hb].
  apply negb_true_iff, Qltb_false in Hb. exact Hb.
Qed.

(** X2.  [updateEnemies()] moves every enemy down by its speed times the
    time-slow multiplier (a zero multiplier counts as one), hides the health
    bar of an enemy at full health, and drops exactly those that end below
    the bottom edge of the canvas (600 without a canvas); health is not
    touched. *)
Theorem updateEnemies_moves_and_drops (w : World) :
  let canvasHeight := match canvas w with
                      | Some c => Canvas.height c
                      | None => GAME_CONFIG.CANVAS_HEIGHT
                      end in
  let moved e := Enemy.updateHealthBarVisibility
                   (Enemy.update (timeSlowMultiplier w) e) in
  enemies (updateEnemies w)
    = filter (fun e => negb (Qltb canvasHeight (Enemy.y e)))
             (map moved (enemies w)) /\
  Forall (fun e => (Enemy.y e <= canvasHeight)%Q)
         (enemies (updateEnemies w)) /\
  (forall e, Enemy.currentHealth (moved e) = Enemy.currentHealth e /\
             Enemy.maxHealth (moved e) = Enemy.maxHealth e /\
             (Enemy.y (moved e) ==
              Enemy.y e + Enemy.speed e
                          * (if Qeq_bool (timeSlowMultiplier w) 0 then 1
                             else timeSlowMultiplier w))%Q).
Proof.
  intros canvasHeight moved.
  assert (Heq : enemies (updateEnemies w)
                = filter (fun e => negb (Qltb canvasHeight (Enemy.y e)))
                         (map moved (enemies w))).
  { rewrite <- flat_map_filter_map. unfold updateEnemies.
    fold canvasHeight.
    rewrite <- (app_nil_r (flat_map _ _)).
    apply (loopDown_flat_map
             (fun s => timeSlowMultiplier s = timeSlowMultiplier w) enemies).
    - intros i s Hs. destruct (enemies s !! i) as [e |]; [| exact Hs].
      destruct (Qltb canvasHeight _); exact Hs.
    - intros s a front back Hs Hget. rewrite Hget, lookup_middle, Hs.
      fold (moved a).
      destruct (Qltb canvasHeight (Enemy.y (moved a)));
        cbn [enemies set_enemies negb app].
      + apply delete_middle.
      + apply insert_middle.
    - reflexivity.
    - symmetry. apply app_nil_r. }
  split; [exact Heq |]. split.
  - rewrite Heq. apply Forall_forall. intros e He.
    apply filter_In in He. destruct He as [_ He].
    apply negb_true_iff, Qltb_false in He. exact He.
  - intros e. subst moved. unfold Enemy.updateHealthBarVisibility.
    destruct (Enemy.maxHealth (Enemy.update (timeSlowMultiplier w) e)
              <=? Enemy.currentHealth
                    (Enemy.update (timeSlowMultiplier w) e));
      repeat split; reflexivity.
Qed.


(** ** Score and kills *)

(** The score plus ten times the number of enemies, and the number of
    enemies as a bound. *)
Lemma hit_or_blast_account (w : World) (j : nat) (e e' : Enemy.t)
    (destroyed : bool) :
  enemies w !! j = Some e ->
  let w' := if destroyed
            then updateScore 10 (set_enemies (delete j (enemies w)) w)
            else set_enemies (<[j := e']> (enemies w)) w in
  score w' + 10 * Z.of_nat (length (enemies w'))
    = score w + 10 * Z.of_nat (length (enemies w)) /\
  (length (enemies w') <= length (enemies w))%nat.
Proof.
  intros He. pose proof (lookup_lt_Some _ _ _ He) as Hlt.
  destruct destroyed; cbn [score enemies updateScore set_score set_enemies].
  - rewrite length_delete by (eexists; exact He). lia.
  - rewrite length_insert. lia.
Qed.

Lemma explodeAt_account (Math_sqrt : Q -> Q) (cx cy radius : Q) (i : nat)
    (w : World) :
  let w' := explodeAt Math_sqrt cx cy radius i w in
  score w' + 10 * Z.of_nat (length (enemies w'))
    = score w + 10 * Z.of_nat (length (enemies w)) /\
  (length (enemies w') <= length (enemies w))%nat.
Proof.
  unfold explodeAt.
  destruct (enemies w !! i) as [e |] eqn:He; [| split; reflexivity].
  destruct (Qle_bool _ radius); [| split; reflexivity].
  destruct (Enemy.takeDamage e _) as [e' destroyed].
  apply (hit_or_blast_account w i e _ destroyed He).
Qed.

Lemma applyExplosiveDamage_account (Math_sqrt : Q -> Q) (cx cy radius : Q)
    (w : World) :
  let w' := applyExplosiveDamage Math_sqrt cx cy radius w in
  score w' + 10 * Z.of_nat (length (enemies w'))
    = score w + 10 * Z.of_nat (length (enemies w)) /\
  (length (enemies w') <= length (enemies w))%nat.
Proof.
  unfold applyExplosiveDamage.
  apply (loopDown_invariant
           (fun a => score a + 10 * Z.of_nat (length (enemies a))
                     = score w + 10 * Z.of_nat (length (enemies w)) /\
                     (length (enemies a) <= length (enemies w))%nat)).
  - intros i a [Ha1 Ha2].
    destruct (explodeAt_account Math_sqrt cx cy radius i a) as [H1 H2].
    split; [congruence | lia].
  - split; [reflexivity | lia].
Qed.

Lemma bulletStep_account (Math_sqrt : Q -> Q) (i : nat) (w : World) :
  let w' := bulletStep Math_sqrt i w in
  score w' + 10 * Z.of_nat (length (enemies w'))
    = score w + 10 * Z.of_nat (length (enemies w)) /\
  (length (enemies w') <= length (enemies w))%nat.
Proof.
  unfold bulletStep.
  destruct (bullets w !! i) as [b |]; [| split; reflexivity].
  destruct (findHit b (enemies w) _) as [j |] eqn:Hfind;
    [| split; reflexivity].
  unfold resolveHit.
  set (w1 := set_bullets (delete i (bullets w)) w).
  destruct (Player.explosiveRoundsActive (player w1)).
  - apply (applyExplosiveDamage_account Math_sqrt _ _ 50 w1).
  - unfold hitEnemy.
    destruct (findHit_Some b (enemies w) _ j Hfind)
      as (_ & (e & He & _) & _).
    change (enemies w1) with (enemies w). rewrite He.
    destruct (Enemy.takeDamage e 1) as [e' destroyed].
    apply (hit_or_blast_account w1 j e _ destroyed He).
Qed.

(** X3.  The bullet pass, with or without Explosive Rounds, adds exactly 10
    points for every enemy it removes and never adds an enemy; so the score
    does not go down, and an explosion obeys the same account. *)
Theorem bullet_pass_scores_ten_per_kill
    (Math_sqrt : Q -> Q) (cx cy radius : Q) (w : World) :
  let after := bulletEnemyCollisions Math_sqrt w in
  let blasted := applyExplosiveDamage Math_sqrt cx cy radius w in
  (length (enemies after) <= length (enemies w))%nat /\
  score after
    = score w + 10 * (Z.of_nat (length (enemies w))
                      - Z.of_nat (length (enemies after))) /\
  score w <= score after /\
  (length (enemies blasted) <= length (enemies w))%nat /\
  score blasted
    = score w + 10 * (Z.of_nat (length (enemies w))
                      - Z.of_nat (length (enemies blasted))).
Proof.
  intros after blasted.
  assert (H : score after + 10 * Z.of_nat (length (enemies after))
              = score w + 10 * Z.of_nat (length (enemies w)) /\
              (length (enemies after) <= length (enemies w))%nat).
  { subst after. unfold bulletEnemyCollisions.
    apply (loopDown_invariant
             (fun a => score a + 10 * Z.of_nat (length (enemies a))
                       = score w + 10 * Z.of_nat (length (enemies w)) /\
                       (length (enemies a) <= length (enemies w))%nat)).
    - intros i a [Ha1 Ha2].
      destruct (bulletStep_account Math_sqrt i a) as [H1 H2].
      split; [congruence | lia].
    - split; [reflexivity | lia]. }
  destruct (applyExplosiveDamage_account Math_sqrt cx cy radius w)
    as [Hb1 Hb2].
  fold blasted in Hb1, Hb2. destruct H as [H1 H2].
  repeat split; lia.
Qed.


(** ** Fire control *)

Lemma shootBullet_keeps_policy (Math_sin Math_cos : Q -> Q) (now : Z)
    (w : World) :
  let w' := shootBullet Math_sin Math_cos now w in
  getCurrentShootCooldown w' = getCurrentShootCooldown w /\
  getCurrentBulletPattern w' = getCurrentBulletPattern w /\
  player w' = player w /\ keys w' = keys w /\ canvas w' = canvas w.
Proof.
  unfold shootBullet, createBullets.
  destruct (Qltb _ _); [| repeat split].
  destruct (getCurrentBulletPattern w) eqn:Hp; repeat split; try exact Hp.
Qed.

Lemma shootBullet_honoured (Math_sin Math_cos : Q -> Q) (now : Z)
    (w : World) :
  (getCurrentShootCooldown w < inject_Z (now - lastShot w))%Q ->
  let w' := shootBullet Math_sin Math_cos now w in
  let fired := match getCurrentBulletPattern w with
               | laser => 0%nat | spread => 3%nat | single => 1%nat
               end in
  lastShot w' = now /\
  exists new, bullets w' = (bullets w ++ new)%list /\ length new = fired /\
    Forall (fun b => Bullet.x b
                       = (Player.x (player w) + Player.width (player w) / 2
                          - 2)%Q /\
                     Bullet.y b = Player.y (player w) /\
                     Bullet.width b = 4%Q /\ Bullet.height b = 10%Q) new.
Proof.
  intros Hcool. apply Qltb_true in Hcool.
  unfold shootBullet, createBullets. rewrite Hcool.
  destruct (getCurrentBulletPattern w); cbn [lastShot set_lastShot bullets
                                            set_bullets];
    (split; [reflexivity |]).
  - exists []. rewrite app_nil_r. repeat split. constructor.
  - eexists. split; [reflexivity |]. split; [reflexivity |].
    repeat constructor.
  - eexists. split; [reflexivity |]. split; [reflexivity |].
    repeat constructor.
Qed.

(** X4.  A fire request is honoured exactly when more time than the
    cooldown has passed since the last honoured one: the cooldown is 200 ms,
    or a quarter of it while Rapid Fire is active.  An honoured request
    records its time and adds one bullet (three with Multi-Shot, none with
    the Laser Beam), each 4 x 10 and starting at the player's muzzle; a
    request that comes within the cooldown of an honoured one changes
    nothing, and one that comes later is honoured in turn. *)
Theorem fire_requests_respect_cooldown
    (Math_sin Math_cos : Q -> Q) (now1 now2 : Z) (w : World) :
  (getCurrentShootCooldown w < inject_Z (now1 - lastShot w))%Q ->
  let w1 := shootBullet Math_sin Math_cos now1 w in
  let fired := match getCurrentBulletPattern w with
               | laser => 0%nat | spread => 3%nat | single => 1%nat
               end in
  (getCurrentShootCooldown w ==
   if powerUpManagerInitialized w && isPowerUpActive "RAPID_FIRE" w
   then 50 else 200)%Q /\
  lastShot w1 = now1 /\
  (exists new, bullets w1 = (bullets w ++ new)%list /\ length new = fired /\
     Forall (fun b => Bullet.x b
                        = (Player.x (player w) + Player.width (player w) / 2
                           - 2)%Q /\
                      Bullet.y b = Player.y (player w) /\
                      Bullet.width b = 4%Q /\ Bullet.height b = 10%Q) new) /\
  ((inject_Z (now2 - now1) <= getCurrentShootCooldown w)%Q ->
   shootBullet Math_sin Math_cos now2 w1 = w1) /\
  ((getCurrentShootCooldown w < inject_Z (now2 - now1))%Q ->
   lastShot (shootBullet Math_sin Math_cos now2 w1) = now2 /\
   length (bullets (shootBullet Math_sin Math_cos now2 w1))
     = (length (bullets w1) + fired)%nat).
Proof.
  intros Hcool w1 fired.
  destruct (shootBullet_honoured Math_sin Math_cos now1 w Hcool)
    as (Hlast & Hnew).
  fold w1 in Hlast, Hnew. fold fired in Hnew.
  destruct (shootBullet_keeps_policy Math_sin Math_cos now1 w)
    as (Hc & Hp & _).
  fold w1 in Hc, Hp.
  split.
  { unfold getCurrentShootCooldown.
    destruct (powerUpManagerInitialized w && isPowerUpActive "RAPID_FIRE" w);
      reflexivity. }
  split; [exact Hlast |]. split; [exact Hnew |]. split.
  - intros Hearly. unfold shootBullet. rewrite Hc, Hlast.
    apply Qltb_false in Hearly. rewrite Hearly. reflexivity.
  - intros Hlate.
    assert (Hlate' : (getCurrentShootCooldown w1
                      < inject_Z (now2 - lastShot w1))%Q)
      by (rewrite Hc, Hlast; exact Hlate).
    destruct (shootBullet_honoured Math_sin Math_cos now2 w1 Hlate')
      as (Hlast2 & new2 & Hb2 & Hlen2 & _).
    split; [exact Hlast2 |].
    rewrite Hb2, length_app, Hlen2, Hp. reflexivity.
Qed.

Lemma fire_requests_respect_cooldown_witness :
  let w1 := shootBullet sampleSin sampleCos 1000 playWorld in
  lastShot w1 = 1000 /\
  length (bullets w1) = 1%nat /\
  shootBullet sampleSin sampleCos 1200 w1 = w1 /\
  length (bullets (shootBullet sampleSin sampleCos 1201 w1)) = 2%nat.
Proof.
  destruct (fire_requests_respect_cooldown sampleSin sampleCos 1000 1200
              playWorld) as (_ & Hlast & (new & Hb & Hlen & _) & Hdrop & _).
  - reflexivity.
  - destruct (fire_requests_respect_cooldown sampleSin sampleCos 1000 1201
                playWorld) as (_ & _ & _ & _ & Hlate).
    + reflexivity.
    + split; [exact Hlast |].
      split; [rewrite Hb, length_app, Hlen; reflexivity |].
      split; [apply Hdrop; discriminate |].
      destruct Hlate as [_ Hlen2]; [reflexivity |].
      rewrite Hlen2, Hb, length_app, Hlen. reflexivity.
Defined.

(** ** Keys are consumed *)









(** ** Expiry and removal of effects *)

Section JSMapDeleteFacts.
Context {V : Type}.
Implicit Types (m : JSMap.t V) (k : string) (v : V).

Lemma JSMap_delete_absent m k : JSMap.has m k = false -> JSMap.delete m k = m.
Proof.
  unfold JSMap.has, JSMap.get.
  induction m as [| [k0 v0] m IH]; simpl; [reflexivity |].
  destruct (String.eqb k0 k); [discriminate |].
  intros H. rewrite (IH H). reflexivity.
Qed.

Lemma JSMap_delete_set_absent m k v :
  JSMap.has m k = false -> JSMap.delete (JSMap.set m k v) k = m.
Proof.
  unfold JSMap.has, JSMap.get.
  induction m as [| [k0 v0] m IH]; simpl.
  - rewrite String.eqb_refl. reflexivity.
  - destruct (String.eqb k0 k) eqn:E; [discriminate |].
    intros H. simpl. rewrite E, (IH H). reflexivity.
Qed.

Lemma JSMap_delete_all_cons m (ks : list string) k v :
  ~ In k ks ->
  fold_left JSMap.delete ks ((k, v) :: m)
    = (k, v) :: fold_left JSMap.delete ks m.
Proof.
  revert m. induction ks as [| k' ks IH]; intros m Hk; [reflexivity |].
  simpl. destruct (String.eqb_spec k k') as [-> | Hne].
  - exfalso. apply Hk. left. reflexivity.
  - apply IH. intros Hin. apply Hk. right. exact Hin.
Qed.

(** Deleting the keys of the entries that satisfy [p] leaves the entries
    that do not. *)
Lemma JSMap_delete_selected m (p : string * V -> bool) :
  NoDup (JSMap.keys m) ->
  fold_left JSMap.delete (map fst (filter p m)) m
    = filter (fun kv => negb (p kv)) m.
Proof.
  unfold JSMap.keys. induction m as [| [k v] m IH]; intros Hnd;
    [reflexivity |].
  inversion Hnd as [| ? ? Hnotin Hnd']; subst. simpl.
  destruct (p (k, v)); simpl.
  - rewrite String.eqb_refl. apply IH, Hnd'.
  - rewrite JSMap_delete_all_cons, (IH Hnd'); [reflexivity |].
    intros Hin. apply Hnotin. apply in_map_iff in Hin.
    destruct Hin as ([k' v'] & Hk & Hin). simpl in Hk. subst k'.
    apply filter_In in Hin. apply in_map_iff. exists (k, v'). tauto.
Qed.

Lemma JSMap_get_In m k v :
  JSMap.get m k = Some v -> In (k, v) m.
Proof.
  unfold JSMap.get. induction m as [| [k0 v0] m IH]; simpl; [discriminate |].
  destruct (String.eqb_spec k0 k) as [-> | Hne].
  - intros [= ->]. left. reflexivity.
  - intros H. right. apply IH, H.
Qed.

Lemma JSMap_In_unique m k v v' :
  NoDup (JSMap.keys m) -> In (k, v) m -> In (k, v') m -> v = v'.
Proof.
  unfold JSMap.keys. induction m as [| [k0 v0] m IH]; simpl; [tauto |].
  intros Hnd. inversion Hnd as [| ? ? Hnotin Hnd']; subst.
  intros [H1 | H1] [H2 | H2].
  - congruence.
  - injection H1 as -> ->. exfalso. apply Hnotin.
    apply in_map_iff. exists (k, v'). tauto.
  - injection H2 as -> ->. exfalso. apply Hnotin.
    apply in_map_iff. exists (k, v). tauto.
  - apply IH; assumption.
Qed.
End JSMapDeleteFacts.

Lemma removePowerUp_table (type : string) (w : World) :
  activePowerUps (fst (removePowerUp type w))
    = JSMap.delete (activePowerUps w) type.
Proof.
  unfold removePowerUp.
  destruct (JSMap.has (activePowerUps w) type) eqn:Hhas; cbn [negb fst].
  - cbn [log activePowerUps set_console set_activePowerUps].
    rewrite (proj2 (applyPowerUpEffect_sameSession type false w)).
    reflexivity.
  - symmetry. apply JSMap_delete_absent, Hhas.
Qed.

Lemma removeAll_table (types : list string) (w : World) :
  activePowerUps (fold_left (fun w type => fst (removePowerUp type w))
                            types w)
    = fold_left JSMap.delete types (activePowerUps w).
Proof.
  revert w. induction types as [| type types IH]; intros w; [reflexivity |].
  simpl. rewrite IH, removePowerUp_table. reflexivity.
Qed.

(** X6.  The manager's per-frame update removes exactly the effects whose
    end time has been reached ([now >= endTime]) and keeps the others in
    their order; it keeps the table free of duplicate keys and the flags
    consistent with it, so every catalog type that expired is gone from the
    table and has its player flag off. *)
Theorem expired_effects_are_removed (now : Z) (w : World) :
  powerUpInvariant w ->
  let w' := PowerUpManager_updatePowerUps now w in
  activePowerUps w'
    = filter (fun kv => negb (geNumber now (Effect.endTime (snd kv))))
             (activePowerUps w) /\
  powerUpInvariant w' /\
  (forall T cfg eff, In (T, cfg) CATALOG ->
     JSMap.get (activePowerUps w) T = Some eff ->
     geNumber now (Effect.endTime eff) = true ->
     JSMap.has (activePowerUps w') T = false /\
     flagOf T (player w') = false) /\
  (forall T eff, JSMap.get (activePowerUps w) T = Some eff ->
     geNumber now (Effect.endTime eff) = false ->
     JSMap.has (activePowerUps w') T = true).
Proof.
  intros Hinv w'.
  assert (Htable : activePowerUps w'
            = filter (fun kv => negb (geNumber now (Effect.endTime (snd kv))))
                     (activePowerUps w)).
  { subst w'. unfold PowerUpManager_updatePowerUps, expiredTypes.
    rewrite removeAll_table. apply JSMap_delete_selected, Hinv. }
  assert (Hinv' : powerUpInvariant w').
  { subst w'. unfold PowerUpManager_updatePowerUps.
    apply (fold_preserves powerUpInvariant); [| exact Hinv].
    intros a type. apply removePowerUp_powerUpInvariant. }
  split; [exact Htable |]. split; [exact Hinv' |]. split.
  - intros T cfg eff Hin Hget Hexp.
    assert (Hgone : JSMap.has (activePowerUps w') T = false).
    { destruct (JSMap.has (activePowerUps w') T) eqn:Hhas; [| reflexivity].
      exfalso. unfold JSMap.has in Hhas.
      destruct (JSMap.get (activePowerUps w') T) as [eff' |] eqn:Hget';
        [| discriminate].
      apply JSMap_get_In in Hget'. rewrite Htable in Hget'.
      apply filter_In in Hget'. destruct Hget' as [Hin' Hkeep].
      apply JSMap_get_In in Hget.
      rewrite (JSMap_In_unique _ T eff' eff (proj2 Hinv) Hin' Hget) in Hkeep.
      simpl in Hkeep. rewrite Hexp in Hkeep. discriminate. }
    split; [exact Hgone |].
    destruct (flagOf T (player w')) eqn:Hflag; [| reflexivity].
    rewrite (proj1 (flagsCoherent_spec w') (proj1 Hinv') T cfg Hin Hflag)
      in Hgone.
    discriminate.
  - intros T eff Hget Hlive. apply JSMap_has_In.
    rewrite Htable. apply in_map_iff. exists (T, eff).
    split; [reflexivity |]. apply filter_In.
    split; [apply JSMap_get_In, Hget |]. simpl. rewrite Hlive. reflexivity.
Qed.

Lemma expired_effects_are_removed_witness :
  JSMap.keys (activePowerUps poweredWorld)
    = ["SHIELD_GENERATOR"; "TIME_SLOW"; "LASER_BEAM"] /\
  JSMap.keys (activePowerUps (PowerUpManager_updatePowerUps 6000 poweredWorld))
    = ["TIME_SLOW"; "LASER_BEAM"] /\
  powerUpInvariant (PowerUpManager_updatePowerUps 6000 poweredWorld).
Proof.
  split; [reflexivity |].
  destruct (expired_effects_are_removed 6000 poweredWorld)
    as (Htable & Hinv & _).
  - split; [reflexivity |]. repeat constructor; simpl; intuition discriminate.
  - split; [rewrite Htable; reflexivity | exact Hinv].
Defined.

Lemma applyPowerUpEffect_player_ext (type : string) (b : bool)
    (w1 w2 : World) :
  player w1 = player w2 ->
  player (applyPowerUpEffect type b w1) = player (applyPowerUpEffect type b w2).
Proof.
  intros H. unfold applyPowerUpEffect.
  repeat (match goal with
          | |- context [String.eqb ?a ?b] => destruct (String.eqb a b)
          end);
    destruct b; cbn; rewrite ?H; try reflexivity;
    unfold activateLaserBeam, deactivateLaserBeam; cbn;
    destruct (laserBeam w1), (laserBeam w2); cbn; rewrite ?H; reflexivity.
Qed.

Lemma effect_off_after_on (type : string) (cfg : PowerUpConfig.t)
    (w : World) :
  In (type, cfg) CATALOG ->
  flagOf type (player w) = false ->
  player (applyPowerUpEffect type false (applyPowerUpEffect type true w))
    = player w.
Proof.
  intros Hin. unfold CATALOG in Hin. simpl in Hin.
  destruct w as [? ? ? ? ? p ? ? ? lb ? ? ? ? ? ? ? ?].
  destruct p as [? ? ? ? ? r m l s i t e].
  repeat (destruct Hin as [Hin | Hin]; [inversion Hin; subst; clear Hin |]);
    try contradiction; cbn; intros Hflag;
    try (apply orb_false_elim in Hflag; destruct Hflag);
    subst; try reflexivity; destruct lb; reflexivity.
Qed.

(** X7.  Picking up a catalog type that is not active and removing it again
    is a round trip for the table and the player: both calls succeed, the
    table and every player field are as before, and the console shows the
    enable hook, the activation, the disable hook and the deactivation, in
    this order. *)
Theorem add_then_remove_round_trip
    (type : string) (cfg : PowerUpConfig.t) (now : Z) (w : World) :
  In (type, cfg) CATALOG ->
  JSMap.has (activePowerUps w) type = false ->
  flagOf type (player w) = false ->
  let r1 := addPowerUp type now w in
  let r2 := removePowerUp type (fst r1) in
  snd r1 = true /\ snd r2 = true /\
  JSMap.has (activePowerUps (fst r1)) type = true /\
  flagOf type (player (fst r1)) = true /\
  activePowerUps (fst r2) = activePowerUps w /\
  player (fst r2) = player w /\
  console (fst r2)
    = (console w ++ [EffectHook type true; PowerUpActivated type;
                     EffectHook type false; PowerUpDeactivated type])%list.
Proof.
  intros Hin Hhas Hflag r1 r2.
  assert (Hget : JSMap.get (activePowerUps w) type = None).
  { unfold JSMap.has in Hhas.
    destruct (JSMap.get (activePowerUps w) type); [discriminate | auto]. }
  pose proof (addPowerUp_activate type cfg now w Hin Hget) as Hr1.
  fold r1 in Hr1.
  set (eff := Effect.mk type (OwnConfig cfg) now
                (Num (now + PowerUpConfig.duration cfg)) true) in *.
  set (w0 := set_activePowerUps (JSMap.set (activePowerUps w) type eff) w)
    in *.
  assert (Ht1 : activePowerUps (fst r1)
                = JSMap.set (activePowerUps w) type eff).
  { rewrite Hr1. unfold log. cbn [fst activePowerUps set_console].
    rewrite (proj2 (applyPowerUpEffect_sameSession type true w0)).
    reflexivity. }
  assert (Hhas1 : JSMap.has (activePowerUps (fst r1)) type = true).
  { rewrite Ht1, JSMap_has_set, String.eqb_refl. reflexivity. }
  assert (Hr2 : r2 = (log (PowerUpDeactivated type)
                        (set_activePowerUps
                           (JSMap.delete
                              (activePowerUps
                                 (applyPowerUpEffect type false (fst r1)))
                              type)
                           (applyPowerUpEffect type false (fst r1))), true)).
  { subst r2. unfold removePowerUp. rewrite Hhas1. reflexivity. }
  split; [rewrite Hr1; reflexivity |]. split; [rewrite Hr2; reflexivity |].
  split; [exact Hhas1 |].
  split.
  { rewrite Hr1. change (player (fst (log ?e ?x, true))) with (player x).
    rewrite (flagOf_after_effect type cfg type true w0 Hin), String.eqb_refl.
    reflexivity. }
  split.
  { change (activePowerUps (fst (removePowerUp type (fst r1)))
            = activePowerUps w).
    rewrite removePowerUp_table, Ht1.
    apply JSMap_delete_set_absent, Hhas. }
  split.
  { rewrite Hr2, Hr1.
    cbn [fst log player set_console set_activePowerUps].
    rewrite <- (effect_off_after_on type cfg w Hin Hflag).
    apply applyPowerUpEffect_player_ext.
    cbn [player set_console].
    apply applyPowerUpEffect_player_ext. reflexivity. }
  rewrite Hr2, Hr1. unfold log.
  cbn [fst console set_console set_activePowerUps].
  rewrite !applyPowerUpEffect_console.
  cbn [console set_console set_activePowerUps].
  rewrite <- !app_assoc. reflexivity.
Qed.

Lemma add_then_remove_round_trip_witness :
  let r1 := addPowerUp "TIME_SLOW" 1000 playWorld in
  let r2 := removePowerUp "TIME_SLOW" (fst r1) in
  Player.timeSlowActive (player (fst r1)) = true /\
  activePowerUps (fst r2) = activePowerUps playWorld /\
  player (fst r2) = player playWorld.
Proof.
  split; [reflexivity |].
  destruct (add_then_remove_round_trip "TIME_SLOW" TIME_SLOW 1000 playWorld)
    as (_ & _ & _ & _ & Ht & Hp & _).
  - unfold CATALOG. simpl. tauto.
  - reflexivity.
  - reflexivity.
  - split; [exact Ht | exact Hp].
Defined.


(** ** Transitions *)

Lemma registered_lookup (name : string) :
  GameStateManager.states registeredManager !! name
    = if String.eqb name "GameOverState" then Some (JSInstance GameOverState 4)
      else if String.eqb name "PauseState" then Some (JSInstance PauseState 3)
      else if String.eqb name "GameState" then Some (JSInstance GameState 2)
      else if String.eqb name "CharacterSelectState"
           then Some (JSInstance CharacterSelectState 1)
      else if String.eqb name "IntroState" then Some (JSInstance IntroState 0)
      else None.
Proof.
  change (GameStateManager.states registeredManager)
    with (<["GameOverState" := JSInstance GameOverState 4]>
          (<["PauseState" := JSInstance PauseState 3]>
           (<["GameState" := JSInstance GameState 2]>
            (<["CharacterSelectState" := JSInstance CharacterSelectState 1]>
             (<["IntroState" := JSInstance IntroState 0]>
              (∅ : gmap string JSState)))))).
  repeat (match goal with
          | |- context [String.eqb name ?s] =>
              destruct (String.eqb_spec name s) as [-> | ?];
              [apply lookup_insert_eq | rewrite lookup_insert_ne by congruence]
          end).
  apply lookup_empty.
Qed.

Lemma managerReady_isReady (w : World) :
  managerReady w -> GameStateManager.isReady (gameStateManager w) = true.
Proof.
  intros [Hreg Hinit]. unfold GameStateManager.isReady.
  rewrite Hinit, Hreg. reflexivity.
Qed.

(** What a successful [setState] does, for the manager of a session. *)
Lemma setState_registered (stateName : string) (cls : StateClass) (oid : nat)
    (w : World) :
  registered w ->
  GameStateManager.states registeredManager !! stateName
    = Some (JSInstance cls oid) ->
  setState stateName w
    = (enterState cls
         (set_currentState (Some (JSInstance cls oid))
            (match currentClass w with
             | Some old => exitState old w
             | None => w
             end)), true).
Proof.
  unfold registered. intros Hreg Hlook. unfold setState.
  assert (Hname : string_truthy stateName = true).
  { destruct stateName; [| reflexivity].
    rewrite registered_lookup in Hlook. discriminate. }
  rewrite Hname, Hreg, Hlook. cbn [negb state_truthy]. unfold currentClass.
  destruct (GameStateManager.currentState (gameStateManager w))
    as [[| old ? |] |]; reflexivity.
Qed.

Lemma setState_unregistered (stateName : string) (w : World) :
  registered w ->
  GameStateManager.states registeredManager !! stateName = None ->
  setState stateName w = (w, false).
Proof.
  unfold registered. intros Hreg Hlook. unfold setState.
  rewrite Hreg, Hlook. destruct (negb (string_truthy stateName)); reflexivity.
Qed.

Lemma registered_names (stateName : string) :
  In stateName STATE_NAMES <->
  exists cls oid,
    GameStateManager.states registeredManager !! stateName
      = Some (JSInstance cls oid).
Proof.
  rewrite registered_lookup. unfold STATE_NAMES. split.
  - intros H. simpl in H.
    repeat (destruct H as [<- | H]; [eexists _, _; reflexivity |]).
    contradiction.
  - intros (cls & oid & H). simpl.
    repeat (match type of H with
            | context [String.eqb stateName ?s] =>
                destruct (String.eqb_spec stateName s) as [-> | ?]; [tauto |]
            end).
    discriminate.
Qed.

Lemma GameState_enter_manager (w : World) :
  gameStateManager (GameState_enter w) = gameStateManager w.
Proof.
  unfold GameState_enter. cbv zeta.
  set (w1 := set_timeSlowMultiplier 1 _).
  assert (H1 : gameStateManager w1 = gameStateManager w) by reflexivity.
  clearbody w1.
  set (w2 := if powerUpManagerInitialized w1 then _ else _).
  assert (H2 : sameSession w1 w2).
  { subst w2. destruct (powerUpManagerInitialized w1).
    - apply clearAllPowerUps_sameSession.
    - apply sameSession_refl. }
  clearbody w2. unfold sameSession in H2.
  unfold updateLives, updateScore.
  cbn [gameStateManager set_lives set_score].
  intuition congruence.
Qed.

(** X8.  With the five registered states, [setState] succeeds exactly for
    their names.  A refused request, such as an unknown or empty name,
    leaves the world as it was; an accepted one makes the named state
    current and keeps the registered states. *)
Theorem setState_accepts_registered_names (stateName : string) (w : World) :
  registered w ->
  let r := setState stateName w in
  (snd r = true <-> In stateName STATE_NAMES) /\
  (snd r = false -> fst r = w) /\
  (snd r = true ->
   GameStateManager.currentState (gameStateManager (fst r))
     = GameStateManager.states registeredManager !! stateName /\
   currentClass (fst r) <> None) /\
  registered (fst r).
Proof.
  intros Hreg r.
  destruct (GameStateManager.states registeredManager !! stateName)
    as [st |] eqn:Hlook.
  - assert (Hin : In stateName STATE_NAMES).
    { rewrite registered_lookup in Hlook. unfold STATE_NAMES. simpl.
      repeat (match type of Hlook with
              | context [String.eqb stateName ?s] =>
                  destruct (String.eqb_spec stateName s) as [-> | ?];
                  [tauto |]
              end).
      discriminate. }
    destruct (proj1 (registered_names stateName) Hin) as (cls & oid & Hl).
    rewrite Hlook in Hl. injection Hl as ->.
    assert (Hr : r = _) by exact (setState_registered _ cls oid w Hreg Hlook).
    set (w1 := match currentClass w with
               | Some old => exitState old w
               | None => w
               end) in Hr.
    assert (H1 : gameStateManager w1 = gameStateManager w).
    { subst w1. destruct (currentClass w) as [[] |]; reflexivity. }
    assert (H2 : gameStateManager
                   (enterState cls
                      (set_currentState (Some (JSInstance cls oid)) w1))
                 = gameStateManager
                     (set_currentState (Some (JSInstance cls oid)) w1)).
    { destruct cls; try reflexivity.
      apply GameState_enter_manager. }
    rewrite Hr. cbn [fst snd].
    split; [tauto |]. split; [discriminate |].
    unfold currentClass, registered. rewrite H2.
    cbn [gameStateManager set_currentState set_gameStateManager
         GameStateManager.currentState GameStateManager.states].
    rewrite H1. split; [intros _; split; [reflexivity | discriminate] |].
    exact Hreg.
  - assert (Hr : r = (w, false))
      by exact (setState_unregistered _ w Hreg Hlook).
    rewrite Hr. cbn [fst snd].
    split; [| split; [reflexivity | split; [discriminate | exact Hreg]]].
    split; [discriminate |]. intros Hin.
    destruct (proj1 (registered_names stateName) Hin) as (cls & oid & Hl).
    congruence.
Qed.

Lemma setState_accepts_registered_names_witness :
  snd (setState "PauseState" playWorld) = true /\
  snd (setState "OptionsState" playWorld) = false /\
  snd (setState "" playWorld) = false /\
  fst (setState "OptionsState" playWorld) = playWorld.
Proof.
  destruct (setState_accepts_registered_names "PauseState" playWorld)
    as (Hp & _); [reflexivity |].
  destruct (setState_accepts_registered_names "OptionsState" playWorld)
    as (Ho & Hsame & _); [reflexivity |].
  destruct (setState_accepts_registered_names "" playWorld)
    as (He & _); [reflexivity |].
  assert (Hno : snd (setState "OptionsState" playWorld) = false).
  { destruct (snd (setState "OptionsState" playWorld)); [| reflexivity].
    exfalso. destruct (proj1 Ho eq_refl) as [H | H];
      repeat (try discriminate H; destruct H as [H | H]); contradiction. }
  split; [apply Hp; unfold STATE_NAMES; simpl; tauto |].
  split; [exact Hno |]. split; [| exact (Hsame Hno)].
  destruct (snd (setState "" playWorld)); [| reflexivity].
  exfalso. destruct (proj1 He eq_refl) as [H | H];
    repeat (try discriminate H; destruct H as [H | H]); contradiction.
Defined.


(** ** Score, lives and the current state over a frame *)

Lemma StateClass_eq_dec (a b : StateClass) : {a = b} + {a <> b}.
Proof. decide equality. Defined.

Lemma advances_refl (w : World) : managerReady w -> advances w w.
Proof.
  intros H. unfold advances. rewrite Z.sub_diag.
  split; [exact H |]. split; [lia |]. split; [reflexivity |].
  split; [lia | tauto].
Qed.

Lemma advances_trans (w1 w2 w3 : World) :
  advances w1 w2 -> advances w2 w3 -> advances w1 w3.
Proof.
  intros (_ & Hs1 & Hm1 & Hl1 & Hg1 & Ho1)
         (Hr & Hs2 & Hm2 & Hl2 & Hg2 & Ho2).
  split; [exact Hr |]. split; [lia |]. split.
  - replace (score w3 - score w1)
      with ((score w3 - score w2) + (score w2 - score w1)) by lia.
    rewrite Z.add_mod, Hm1, Hm2 by lia. reflexivity.
  - split; [lia |]. split.
    + intros H3. destruct (Hg2 H3) as [H2 Hrun2].
      destruct (Hg1 H2) as [H1 Hrun1]. split; [exact H1 | congruence].
    + intros H3. destruct (Ho2 H3) as [H2 | H2]; [| right; exact H2].
      destruct (Ho1 H2) as [H1 | H1]; [left; exact H1 | right; lia].
Qed.

Lemma ledger_advances (w w' : World) :
  managerReady w -> ledger w' = ledger w -> advances w w'.
Proof.
  unfold ledger. intros Hr [= Hs Hl Hm Hg].
  unfold advances, managerReady, registered, inGame, currentClass.
  rewrite Hs, Hl, Hm, Hg, Z.sub_diag.
  split; [exact Hr |]. split; [lia |]. split; [reflexivity |].
  split; [lia | tauto].
Qed.

Lemma sameSession_ledger (w w' : World) :
  sameSession w w' -> ledger w' = ledger w.
Proof.
  unfold sameSession, ledger.
  intros (Hg & Hs & Hl & _ & _ & _ & _ & _ & _ & _ & Hm & _).
  rewrite Hg, Hs, Hl, Hm. reflexivity.
Qed.

Lemma exitState_ledger (cls : StateClass) (w : World) :
  score (exitState cls w) = score w /\ lives (exitState cls w) = lives w /\
  gameStateManager (exitState cls w) = gameStateManager w.
Proof. destruct cls; repeat split. Qed.

(** A transition to a registered state other than [GameState] keeps the
    score and the lives and leaves the game. *)
Lemma leave_game (stateName : string) (cls : StateClass) (oid : nat)
    (w : World) :
  managerReady w ->
  GameStateManager.states registeredManager !! stateName
    = Some (JSInstance cls oid) ->
  cls <> GameState ->
  let w' := fst (setState stateName w) in
  managerReady w' /\ score w' = score w /\ lives w' = lives w /\
  currentClass w' = Some cls /\
  (cls = GameOverState -> gameRunning w' = false) /\
  (inGame w = true -> gameRunning w' = false) /\
  (inGame w = false -> cls <> GameOverState ->
   gameRunning w' = gameRunning w).
Proof.
  intros [Hreg Hinit] Hlook Hcls w'. subst w'.
  rewrite (setState_registered stateName cls oid w Hreg Hlook). cbn [fst].
  unfold inGame.
  set (w1 := match currentClass w with
             | Some old => exitState old w
             | None => w
             end).
  assert (H1 : score w1 = score w /\ lives w1 = lives w /\
               gameStateManager w1 = gameStateManager w /\
               (currentClass w = Some GameState -> gameRunning w1 = false) /\
               (currentClass w <> Some GameState ->
                gameRunning w1 = gameRunning w)).
  { subst w1. destruct (currentClass w) as [[] |];
      repeat split; try reflexivity; try discriminate; congruence. }
  clearbody w1. destruct H1 as (Hs & Hl & Hm & Hrun1 & Hrun2).
  unfold managerReady, registered, currentClass in *.
  destruct cls; try congruence;
    cbn [enterState set_currentState set_gameStateManager set_gameRunning
         score lives gameStateManager gameRunning
         GameStateManager.currentState GameStateManager.states
         GameStateManager.initialized];
    rewrite Hm;
    (split; [split; assumption |]);
    (split; [exact Hs |]); (split; [exact Hl |]);
    (split; [reflexivity |]);
    (split; [try reflexivity; discriminate |]);
    (split; [| intros Hout Hne; try (exfalso; apply Hne; reflexivity);
               apply Hrun2; intros Hcur; rewrite Hcur in Hout;
               discriminate]);
    try reflexivity;
    intros Hin; apply Hrun1;
    destruct (GameStateManager.currentState (gameStateManager w))
      as [[| [] ? |] |]; try discriminate; reflexivity.
Qed.

Lemma leave_game_advances (stateName : string) (cls : StateClass) (oid : nat)
    (w : World) :
  managerReady w ->
  GameStateManager.states registeredManager !! stateName
    = Some (JSInstance cls oid) ->
  cls <> GameState ->
  (cls = GameOverState -> lives w <= 0) ->
  advances w (fst (setState stateName w)).
Proof.
  intros Hr Hlook Hcls Hover.
  destruct (leave_game stateName cls oid w Hr Hlook Hcls)
    as (Hr' & Hs & Hl & Hcur & _).
  unfold advances. rewrite Hs, Hl, Z.sub_diag.
  split; [exact Hr' |]. split; [lia |]. split; [reflexivity |].
  split; [lia |]. unfold inGame. rewrite Hcur.
  split; [destruct cls; congruence |].
  intros [= ->]. right. apply Hover. reflexivity.
Qed.

Lemma gameOver_advances (w : World) :
  managerReady w -> lives w <= 0 -> advances w (gameOver w).
Proof.
  intros Hr Hl. unfold gameOver. rewrite (managerReady_isReady w Hr).
  apply (leave_game_advances "GameOverState" GameOverState 4 w Hr);
    [reflexivity | discriminate | intros _; exact Hl].
Qed.

Lemma loopDown_ledger (body : nat -> World -> World) (n : nat) (w : World) :
  (forall i a, ledger (body i a) = ledger a) ->
  ledger (loopDown body n w) = ledger w.
Proof.
  intros Hbody.
  apply (loopDown_invariant (fun a => ledger a = ledger w)); [| reflexivity].
  intros i a Ha. rewrite Hbody. exact Ha.
Qed.

Lemma shootBullet_ledger (Math_sin Math_cos : Q -> Q) (now : Z) (w : World) :
  ledger (shootBullet Math_sin Math_cos now w) = ledger w.
Proof.
  unfold shootBullet, createBullets.
  destruct (Qltb _ _); [| reflexivity].
  destruct (getCurrentBulletPattern w); reflexivity.
Qed.

Lemma GameState_handleInput_advances (Math_sin Math_cos : Q -> Q) (now : Z)
    (w : World) :
  managerReady w ->
  advances w (GameState_handleInput Math_sin Math_cos now w).
Proof.
  intros Hr. unfold GameState_handleInput.
  destruct (canvas w) as [c |]; [| apply advances_refl, Hr]. cbv zeta.
  set (w1 := set_player _ w).
  assert (H1 : ledger w1 = ledger w) by reflexivity. clearbody w1.
  set (w2 := if Keys.Space (keys w1) then _ else w1).
  assert (H2 : ledger w2 = ledger w).
  { subst w2. destruct (Keys.Space (keys w1)); [| exact H1].
    rewrite <- H1.
    apply (shootBullet_ledger Math_sin Math_cos now w1). }
  clearbody w2.
  destruct (Keys.Escape (keys w2)); [| apply ledger_advances; assumption].
  set (w3 := set_keys _ w2).
  assert (H3 : advances w w3) by (apply ledger_advances; assumption).
  eapply advances_trans; [exact H3 |].
  apply (leave_game_advances "PauseState" PauseState 3 w3);
    [apply H3 | reflexivity | discriminate | discriminate].
Qed.

Lemma spawnEnemy_ledger (now : Z) (r1 r2 r3 : Q) (w : World) :
  ledger (spawnEnemy now r1 r2 r3 w) = ledger w.
Proof.
  unfold spawnEnemy.
  destruct (enemySpawnRate w <? now - lastEnemySpawn w); [| reflexivity].
  cbv zeta. destruct (GAME_CONFIG.MIN_ENEMY_SPAWN_RATE <? _); reflexivity.
Qed.

Lemma updateBullets_ledger (w : World) : ledger (updateBullets w) = ledger w.
Proof.
  unfold updateBullets. apply loopDown_ledger. intros i a.
  destruct (bullets a !! i) as [b |]; [| reflexivity].
  destruct (Qltb _ 0); reflexivity.
Qed.

Lemma updateEnemies_ledger (w : World) : ledger (updateEnemies w) = ledger w.
Proof.
  unfold updateEnemies. apply loopDown_ledger. intros i a.
  destruct (enemies a !! i) as [e |]; [| reflexivity].
  destruct (Qltb _ _); reflexivity.
Qed.

Lemma PowerUpManager_updatePowerUps_sameSession (now : Z) (w : World) :
  sameSession w (PowerUpManager_updatePowerUps now w).
Proof.
  unfold PowerUpManager_updatePowerUps.
  apply (fold_preserves (sameSession w)); [| apply sameSession_refl].
  intros a type Ha. eapply sameSession_trans; [exact Ha |].
  apply removePowerUp_sameSession.
Qed.

Lemma checkPowerUpCollisions_sameSession (pickups : list (string * Z))
    (w : World) :
  sameSession w (checkPowerUpCollisions pickups w).
Proof.
  unfold checkPowerUpCollisions.
  apply (fold_preserves (sameSession w)); [| apply sameSession_refl].
  intros a [type now] Ha.
  destruct (powerUpManagerInitialized a); [| exact Ha].
  eapply sameSession_trans; [exact Ha | apply addPowerUp_sameSession].
Qed.

(** The bullet pass touches neither the lives, nor the manager, nor
    [gameRunning]. *)
Lemma explodeAt_outer (Math_sqrt : Q -> Q) (cx cy radius : Q) (i : nat)
    (w : World) :
  let w' := explodeAt Math_sqrt cx cy radius i w in
  (lives w', gameStateManager w', gameRunning w')
    = (lives w, gameStateManager w, gameRunning w).
Proof.
  unfold explodeAt.
  destruct (enemies w !! i) as [e |]; [| reflexivity].
  destruct (Qle_bool _ radius); [| reflexivity].
  destruct (Enemy.takeDamage e _) as [e' destroyed].
  destruct destroyed; reflexivity.
Qed.

Lemma bulletStep_outer (Math_sqrt : Q -> Q) (i : nat) (w : World) :
  let w' := bulletStep Math_sqrt i w in
  (lives w', gameStateManager w', gameRunning w')
    = (lives w, gameStateManager w, gameRunning w).
Proof.
  unfold bulletStep.
  destruct (bullets w !! i) as [b |]; [| reflexivity].
  destruct (findHit b (enemies w) _) as [j |]; [| reflexivity].
  unfold resolveHit.
  set (w1 := set_bullets (delete i (bullets w)) w).
  change (lives w, gameStateManager w, gameRunning w)
    with (lives w1, gameStateManager w1, gameRunning w1).
  clearbody w1.
  destruct (Player.explosiveRoundsActive (player w1)).
  - unfold applyExplosiveDamage.
    apply (loopDown_invariant
             (fun a => (lives a, gameStateManager a, gameRunning a)
                       = (lives w1, gameStateManager w1, gameRunning w1)));
      [| reflexivity].
    intros k a Ha. rewrite <- Ha. apply explodeAt_outer.
  - unfold hitEnemy.
    destruct (enemies w1 !! j) as [e |]; [| reflexivity].
    destruct (Enemy.takeDamage e 1) as [e' destroyed].
    destruct destroyed; reflexivity.
Qed.

Lemma bulletEnemyCollisions_advances (Math_sqrt : Q -> Q) (w : World) :
  managerReady w -> advances w (bulletEnemyCollisions Math_sqrt w).
Proof.
  intros Hr. unfold bulletEnemyCollisions.
  assert (H : let a := loopDown (bulletStep Math_sqrt) (length (bullets w)) w
              in
              (score a + 10 * Z.of_nat (length (enemies a))
               = score w + 10 * Z.of_nat (length (enemies w)) /\
               (length (enemies a) <= length (enemies w))%nat) /\
              (lives a, gameStateManager a, gameRunning a)
                = (lives w, gameStateManager w, gameRunning w)).
  { apply (loopDown_invariant
             (fun a =>
                (score a + 10 * Z.of_nat (length (enemies a))
                 = score w + 10 * Z.of_nat (length (enemies w)) /\
                 (length (enemies a) <= length (enemies w))%nat) /\
                (lives a, gameStateManager a, gameRunning a)
                  = (lives w, gameStateManager w, gameRunning w))).
    - intros i a [[Ha1 Ha2] Ha3].
      destruct (bulletStep_account Math_sqrt i a) as [H1 H2].
      split; [split; [congruence | lia] |].
      rewrite <- Ha3. apply bulletStep_outer.
    - split; [split; [reflexivity | lia] | reflexivity]. }
  cbv zeta in H.
  set (a := loopDown _ _ w) in *. clearbody a.
  destruct H as [[H1 H2] [= Hl Hm Hg]].
  unfold advances, managerReady, registered, inGame, currentClass.
  rewrite Hl, Hm, Hg.
  split; [exact Hr |]. split; [lia |]. split.
  - replace (score a - score w)
      with ((Z.of_nat (length (enemies w))
             - Z.of_nat (length (enemies a))) * 10) by lia.
    apply Z.mod_mul. lia.
  - split; [lia | tauto].
Qed.

Lemma playerStep_advances (i : nat) (w : World) :
  managerReady w -> advances w (playerStep i w).
Proof.
  intros Hr. unfold playerStep.
  destruct (enemies w !! i) as [e |]; [| apply advances_refl, Hr].
  destruct (enemyHitsPlayer e (player w)); [| apply advances_refl, Hr].
  destruct (Player.invincible (player w) && Player.shieldActive (player w));
    [apply ledger_advances; [exact Hr | reflexivity] |].
  cbv zeta.
  set (w2 := updateLives (-1) _).
  assert (H2 : advances w w2).
  { unfold advances, managerReady, registered, inGame, currentClass.
    subst w2.
    cbn [updateLives set_lives set_enemies score lives gameStateManager
         gameRunning].
    rewrite Z.sub_diag.
    split; [exact Hr |]. split; [lia |]. split; [reflexivity |].
    split; [lia | tauto]. }
  clearbody w2.
  destruct (lives w2 <=? 0) eqn:Hl; [| exact H2].
  eapply advances_trans; [exact H2 |].
  apply gameOver_advances; [apply H2 | apply Z.leb_le, Hl].
Qed.

Lemma playerEnemyCollisions_advances (w : World) :
  managerReady w -> advances w (playerEnemyCollisions w).
Proof.
  intros Hr. unfold playerEnemyCollisions.
  apply (loopDown_invariant (advances w)); [| apply advances_refl, Hr].
  intros i a Ha. eapply advances_trans; [exact Ha |].
  apply playerStep_advances, Ha.
Qed.

Section Tally.
Variables Math_sqrt Math_sin Math_cos : Q -> Q.

(** The frame up to the test of the lives that ends it. *)
Lemma GameState_update_split (inp : FrameInput) (w : World) :
  managerReady w -> gameRunning w = true ->
  exists x,
    advances w x /\
    GameState_update Math_sqrt Math_sin Math_cos inp w
      = if lives x <=? 0 then fst (setState "GameOverState" x) else x.
Proof.
  intros Hr Hrun. unfold GameState_update. rewrite Hrun. cbn [negb].
  cbv zeta.
  pose proof (GameState_handleInput_advances Math_sin Math_cos
                (nowShoot inp) w Hr) as H.
  set (w1 := GameState_handleInput _ _ _ w) in *. clearbody w1.
  assert (Hstep : forall a b, advances w a -> ledger b = ledger a ->
                              advances w b).
  { intros a b Ha Hb. eapply advances_trans; [exact Ha |].
    apply ledger_advances; [apply Ha | exact Hb]. }
  pose proof (Hstep w1 _ H
                (spawnEnemy_ledger (nowSpawn inp) (randomX inp)
                   (randomSpeed inp) (randomHealth inp) w1)) as H2.
  set (w2 := spawnEnemy _ _ _ _ w1) in *. clearbody w2.
  pose proof (Hstep w2 _ H2 (updateBullets_ledger w2)) as H3.
  set (w3 := updateBullets w2) in *. clearbody w3.
  pose proof (Hstep w3 _ H3 (updateEnemies_ledger w3)) as H4.
  set (w4 := updateEnemies w3) in *. clearbody w4.
  set (w5 := if powerUpManagerInitialized w4 then _ else w4).
  assert (H5 : advances w w5).
  { apply (Hstep w4 w5 H4). subst w5.
    destruct (powerUpManagerInitialized w4); [| reflexivity].
    apply sameSession_ledger, PowerUpManager_updatePowerUps_sameSession. }
  clearbody w5. unfold checkCollisions.
  assert (H6 : advances w (bulletEnemyCollisions Math_sqrt w5)).
  { eapply advances_trans; [exact H5 |].
    apply bulletEnemyCollisions_advances, H5. }
  set (w6 := bulletEnemyCollisions Math_sqrt w5) in *. clearbody w6.
  assert (H7 : advances w (playerEnemyCollisions w6)).
  { eapply advances_trans; [exact H6 |].
    apply playerEnemyCollisions_advances, H6. }
  set (w7 := playerEnemyCollisions w6) in *. clearbody w7.
  exists (checkPowerUpCollisions (collected inp) w7).
  split; [| reflexivity].
  apply (Hstep w7 _ H7).
  apply sameSession_ledger, checkPowerUpCollisions_sameSession.
Qed.

Lemma managerUpdate_idle (inp : FrameInput) (w : World) :
  inGame w = false -> managerUpdate Math_sqrt Math_sin Math_cos inp w = w.
Proof.
  unfold inGame, currentClass, managerUpdate.
  destruct (GameStateManager.currentState (gameStateManager w))
    as [[| [] ? |] |]; try reflexivity.
  discriminate.
Qed.

Lemma managerUpdate_inGame (inp : FrameInput) (w : World) :
  inGame w = true ->
  managerUpdate Math_sqrt Math_sin Math_cos inp w
    = GameState_update Math_sqrt Math_sin Math_cos inp w.
Proof.
  unfold inGame, currentClass, managerUpdate.
  destruct (GameStateManager.currentState (gameStateManager w))
    as [[| [] ? |] |]; try discriminate.
  reflexivity.
Qed.





Lemma loadedWorld_tally (c : Canvas.t) : tallyInvariant (loadedWorld c).
Proof.
  unfold loadedWorld.
  match goal with
  | |- tallyInvariant (fst (setState _ ?b)) => set (base := b)
  end.
  assert (Hr : managerReady base) by (split; reflexivity).
  destruct (leave_game "IntroState" IntroState 0 base Hr)
    as (Hr' & Hs & Hl & Hcur & _); [reflexivity | discriminate |].
  unfold tallyInvariant, inGame. rewrite Hs, Hl, Hcur.
  split; [exact Hr' |]. cbn [base score lives].
  repeat split; try lia; discriminate.
Qed.

Lemma setState_tally (stateName : string) (w : World) :
  tallyInvariant w -> tallyInvariant (fst (setState stateName w)).
Proof.
  intros Hw. pose proof Hw as (Hr & Hs & Hm & Hl & Hg).
  destruct (GameStateManager.states registeredManager !! stateName)
    as [st |] eqn:Hlook;
    [| rewrite (setState_unregistered stateName w (proj1 Hr) Hlook);
       exact Hw].
  assert (Hst : exists cls oid, st = JSInstance cls oid).
  { rewrite registered_lookup in Hlook.
    repeat (match type of Hlook with
            | context [String.eqb stateName ?s] =>
                destruct (String.eqb stateName s);
                [injection Hlook as <-; eexists _, _; reflexivity |]
            end).
    discriminate. }
  destruct Hst as (cls & oid & ->).
  destruct (StateClass_eq_dec cls GameState) as [-> | Hcls].
  - rewrite (setState_registered stateName GameState oid w (proj1 Hr) Hlook).
    cbn [fst enterState].
    set (w1 := match currentClass w with
               | Some old => exitState old w
               | None => w
               end).
    assert (H1 : gameStateManager w1 = gameStateManager w).
    { subst w1. destruct (currentClass w) as [[] |]; reflexivity. }
    clearbody w1.
    set (w2 := set_currentState (Some (JSInstance GameState oid)) w1).
    destruct (GameState_enter_session w2) as (Hrun & Hsc & Hli & _).
    pose proof (GameState_enter_manager w2) as Hman.
    unfold tallyInvariant, managerReady, registered, inGame, currentClass.
    rewrite Hrun, Hsc, Hli, Hman. subst w2.
    cbn [gameStateManager set_currentState set_gameStateManager
         GameStateManager.currentState GameStateManager.states
         GameStateManager.initialized].
    rewrite H1. split; [exact Hr |].
    repeat split; lia.
  - destruct (leave_game stateName cls oid w Hr Hlook Hcls)
      as (Hr' & Hs' & Hl' & Hcur & _).
    unfold tallyInvariant, inGame. rewrite Hs', Hl', Hcur.
    split; [exact Hr' |]. split; [exact Hs |]. split; [exact Hm |].
    split; [exact Hl |]. destruct cls; congruence.
Qed.

Lemma applyEvent_tally (ev : SessionEvent) (w : World) :
  tallyInvariant w ->
  tallyInvariant (applyEvent Math_sqrt Math_sin Math_cos ev w).
Proof.
  intros Hw. destruct ev as [held | stateName | inp]; cbn [applyEvent].
  - exact Hw.
  - apply setState_tally, Hw.
  - destruct (inGame w) eqn:Hin;
      [| rewrite managerUpdate_idle by exact Hin; exact Hw].
    rewrite managerUpdate_inGame by exact Hin.
    destruct Hw as (Hr & Hs & Hm & Hl & Hg).
    destruct (Hg Hin) as [Hrun Hpos].
    destruct (GameState_update_split inp w Hr Hrun) as (x & Hx & ->).
    destruct Hx as (Hrx & Hsx & Hmx & Hlx & Hgx & _).
    assert (Hmodx : score x mod 10 = 0).
    { replace (score x) with ((score x - score w) + score w) by lia.
      rewrite Z.add_mod, Hmx, Hm by lia. reflexivity. }
    destruct (lives x <=? 0) eqn:Hlives.
    + destruct (leave_game "GameOverState" GameOverState 4 x Hrx)
        as (Hr' & Hs' & Hl' & Hcur & _); [reflexivity | discriminate |].
      unfold tallyInvariant, inGame. rewrite Hs', Hl', Hcur.
      split; [exact Hr' |]. repeat split; try lia; discriminate.
    + apply Z.leb_gt in Hlives.
      split; [exact Hrx |]. split; [lia |]. split; [exact Hmodx |].
      split; [lia |]. intros Hinx. destruct (Hgx Hinx) as [_ Hsame].
      split; [congruence | lia].
Qed.

(** X11.  In every world of a session the score is a non-negative multiple
    of 10 and there are at most 3 lives; and whenever [GameState] is the
    current state between two events, the game is running with at least
    one life. *)
Theorem session_keeps_the_tally (c : Canvas.t)
    (events : list SessionEvent) :
  let w := runSession Math_sqrt Math_sin Math_cos events (loadedWorld c) in
  0 <= score w /\ score w mod 10 = 0 /\ lives w <= 3 /\
  (inGame w = true -> gameRunning w = true /\ 0 < lives w) /\
  managerReady w.
Proof.
  intros w.
  assert (H : tallyInvariant w).
  { subst w. unfold runSession.
    apply (fold_preserves tallyInvariant).
    - intros a ev. apply applyEvent_tally.
    - apply loadedWorld_tally. }
  destruct H as (Hr & Hs & Hm & Hl & Hg). tauto.
Qed.

End Tally.





(** ** Enemies stay well formed *)






Lemma setState_enemies (stateName : string) (w : World) :
  enemies (fst (setState stateName w)) = enemies w \/
  enemies (fst (setState stateName w)) = [].
Proof.
  unfold setState.
  destruct (negb (string_truthy stateName)); [left; reflexivity |].
  destruct (GameStateManager.states (gameStateManager w) !! stateName)
    as [newState |]; [| left; reflexivity].
  destruct (negb (state_truthy newState)); [left; reflexivity |].
  cbn [fst].
  set (w1 := match GameStateManager.currentState (gameStateManager w) with
             | Some (JSInstance cls _) => exitState cls w
             | _ => w
             end).
  assert (H1 : enemies w1 = enemies w).
  { subst w1.
    destruct (GameStateManager.currentState (gameStateManager w))
      as [[| [] ? |] |]; reflexivity. }
  clearbody w1. rewrite <- H1.
  destruct newState as [| [] oid |]; try (left; reflexivity).
  right. apply (GameState_enter_session (set_currentState _ w1)).
Qed.

Section WellFormedEnemies.
Variables Math_sqrt Math_sin Math_cos : Q -> Q.
Variable c : Canvas.t.
Hypothesis wideCanvas : (30 <= Canvas.width c)%Q.





Lemma updateBullets_enemies (w : World) :
  enemies (updateBullets w) = enemies w.
Proof.
  unfold updateBullets.
  apply (loopDown_invariant (fun a => enemies a = enemies w));
    [| reflexivity].
  intros i a Ha. destruct (bullets a !! i) as [b |]; [| exact Ha].
  destruct (Qltb _ 0); exact Ha.
Qed.









End WellFormedEnemies.



(** ** How long an effect lasts *)

Lemma addPowerUp_endTime (type : string) (cfg : PowerUpConfig.t) (now : Z)
    (w : World) :
  In (type, cfg) CATALOG ->
  exists effect,
    JSMap.get (activePowerUps (fst (addPowerUp type now w))) type
      = Some effect /\
    Effect.endTime effect = Num (now + PowerUpConfig.duration cfg).
Proof.
  intros Hin.
  destruct (JSMap.get (activePowerUps w) type) as [existing |] eqn:Hget.
  - rewrite (addPowerUp_refresh type cfg now w existing Hin Hget).
    cbn [fst log activePowerUps set_console set_activePowerUps].
    rewrite JSMap_get_set_eq. eexists. split; reflexivity.
  - rewrite (addPowerUp_activate type cfg now w Hin Hget).
    cbn [fst log activePowerUps set_console].
    rewrite (proj2 (applyPowerUpEffect_sameSession type true _)).
    cbn [activePowerUps set_activePowerUps].
    rewrite JSMap_get_set_eq. eexists. split; reflexivity.
Qed.

Lemma JSMap_has_filter {V : Type} (m : JSMap.t V) (keep : string * V -> bool)
    (k : string) (v : V) :
  NoDup (JSMap.keys m) -> JSMap.get m k = Some v ->
  JSMap.has (filter keep m) k = keep (k, v).
Proof.
  intros Hnd Hget.
  destruct (keep (k, v)) eqn:Hkeep.
  - apply JSMap_has_In, in_map_iff. exists (k, v).
    split; [reflexivity |]. apply filter_In.
    split; [apply JSMap_get_In, Hget | exact Hkeep].
  - destruct (JSMap.has (filter keep m) k) eqn:Hhas; [| reflexivity].
    exfalso. unfold JSMap.has in Hhas.
    destruct (JSMap.get (filter keep m) k) as [v' |] eqn:Hget';
      [| discriminate].
    apply JSMap_get_In, filter_In in Hget'. destruct Hget' as [Hin' Hk'].
    rewrite (JSMap_In_unique m k v' v Hnd Hin' (JSMap_get_In m k v Hget))
      in Hk'.
    congruence.
Qed.

Lemma PowerUpManager_updatePowerUps_table (now : Z) (w : World) :
  NoDup (JSMap.keys (activePowerUps w)) ->
  activePowerUps (PowerUpManager_updatePowerUps now w)
    = filter (fun kv => negb (geNumber now (Effect.endTime (snd kv))))
             (activePowerUps w).
Proof.
  intros Hnd. unfold PowerUpManager_updatePowerUps, expiredTypes.
  rewrite removeAll_table. apply JSMap_delete_selected, Hnd.
Qed.

(** X14.  A catalog power-up picked up at time [t0], whether new or a
    repeat, lasts exactly its catalog duration: at any time [t],
    [getRemainingTime] reports [max(0, t0 + duration - t)], the manager's
    update at [t] keeps the effect exactly if [t < t0 + duration], and the
    update removes it exactly when the reported remaining time is 0. *)
Theorem effect_lasts_its_duration
    (type : string) (cfg : PowerUpConfig.t) (t0 t : Z) (w : World) :
  In (type, cfg) CATALOG ->
  powerUpInvariant w ->
  let w1 := fst (addPowerUp type t0 w) in
  let endTime := t0 + PowerUpConfig.duration cfg in
  getRemainingTime type t w1 = Num (Z.max 0 (endTime - t)) /\
  isPowerUpActive type (PowerUpManager_updatePowerUps t w1)
    = (t <? endTime) /\
  (getRemainingTime type t w1 = Num 0 <->
   isPowerUpActive type (PowerUpManager_updatePowerUps t w1) = false).
Proof.
  intros Hin Hinv w1 endTime.
  destruct (addPowerUp_endTime type cfg t0 w Hin) as (effect & Hget & Hend).
  fold w1 in Hget. fold endTime in Hend.
  pose proof (addPowerUp_powerUpInvariant type t0 w Hinv) as [_ Hnd].
  fold w1 in Hnd.
  assert (Hrem : getRemainingTime type t w1 = Num (Z.max 0 (endTime - t))).
  { unfold getRemainingTime. rewrite Hget, Hend. reflexivity. }
  assert (Hact : isPowerUpActive type (PowerUpManager_updatePowerUps t w1)
                 = (t <? endTime)).
  { unfold isPowerUpActive.
    rewrite (PowerUpManager_updatePowerUps_table t w1 Hnd).
    rewrite (JSMap_has_filter _ _ type effect Hnd Hget).
    cbn [snd]. rewrite Hend. cbn [geNumber].
    destruct (Z.leb_spec endTime t), (Z.ltb_spec t endTime);
      try reflexivity; lia. }
  split; [exact Hrem |]. split; [exact Hact |].
  rewrite Hrem, Hact. split.
  - intros [= H]. apply Z.ltb_ge. lia.
  - intros H. apply Z.ltb_ge in H. f_equal. lia.
Qed.

Lemma effect_lasts_its_duration_witness :
  let w1 := fst (addPowerUp "SHIELD_GENERATOR" 1000 playWorld) in
  getRemainingTime "SHIELD_GENERATOR" 5999 w1 = Num 1 /\
  isPowerUpActive "SHIELD_GENERATOR"
    (PowerUpManager_updatePowerUps 5999 w1) = true /\
  isPowerUpActive "SHIELD_GENERATOR"
    (PowerUpManager_updatePowerUps 6000 w1) = false.
Proof.
  assert (Hin : In ("SHIELD_GENERATOR", SHIELD_GENERATOR) CATALOG)
    by (unfold CATALOG; simpl; tauto).
  assert (Hinv : powerUpInvariant playWorld)
    by (split; [reflexivity | constructor]).
  destruct (effect_lasts_its_duration "SHIELD_GENERATOR" SHIELD_GENERATOR
              1000 5999 playWorld Hin Hinv) as (Hrem & Hact & _).
  destruct (effect_lasts_its_duration "SHIELD_GENERATOR" SHIELD_GENERATOR
              1000 6000 playWorld Hin Hinv) as (_ & Hgone & _).
  split; [exact Hrem |]. split; [exact Hact | exact Hgone].
Defined.


(** ** The laser sweep *)

Lemma laserStep_account (beam : LaserBeam.t) (i : nat) (w : World) :
  let w' := laserStep beam i w in
  (score w' + 10 * Z.of_nat (length (enemies w'))
   = score w + 10 * Z.of_nat (length (enemies w)) /\
   (length (enemies w') <= length (enemies w))%nat) /\
  lives w' = lives w /\ player w' = player w /\ bullets w' = bullets w.
Proof.
  unfold laserStep.
  destruct (enemies w !! i) as [e |] eqn:He;
    [| repeat split; reflexivity].
  destruct (laserHitsEnemy (player w) e); [| repeat split; reflexivity].
  cbv zeta.
  split;
    [apply (hit_or_blast_account w i e _ (Enemy.isDestroyed _) He) |].
  destruct (Enemy.isDestroyed _); repeat split.
Qed.

(** X15.  [checkLaserCollisions()] does nothing for an inactive beam.  An
    active beam acts on each enemy on its own: an enemy outside the column
    of the beam is left as it is, one inside takes the beam's damage and
    is removed, for 10 points, exactly if that destroys it; the order of
    the enemies, the lives, the player and the bullets are untouched. *)
Theorem laser_sweep_acts_on_each_enemy (beam : LaserBeam.t) (w : World) :
  let w' := checkLaserCollisions beam w in
  enemies w'
    = (if LaserBeam.active beam
       then flat_map (laserOutcome (player w) (LaserBeam.damage beam))
                     (enemies w)
       else enemies w) /\
  score w'
    = score w + 10 * (Z.of_nat (length (enemies w))
                      - Z.of_nat (length (enemies w'))) /\
  (length (enemies w') <= length (enemies w))%nat /\
  lives w' = lives w /\ player w' = player w /\ bullets w' = bullets w /\
  (if LaserBeam.active beam then True else w' = w).
Proof.
  intros w'. subst w'. unfold checkLaserCollisions.
  destruct (LaserBeam.active beam); cbn [negb];
    [| repeat split; lia].
  assert (Hacc : let a := loopDown (laserStep beam) (length (enemies w)) w in
                 (score a + 10 * Z.of_nat (length (enemies a))
                  = score w + 10 * Z.of_nat (length (enemies w)) /\
                  (length (enemies a) <= length (enemies w))%nat) /\
                 lives a = lives w /\ player a = player w /\
                 bullets a = bullets w).
  { apply (loopDown_invariant
             (fun a =>
                (score a + 10 * Z.of_nat (length (enemies a))
                 = score w + 10 * Z.of_nat (length (enemies w)) /\
                 (length (enemies a) <= length (enemies w))%nat) /\
                lives a = lives w /\ player a = player w /\
                bullets a = bullets w)).
    - intros i a ((Ha1 & Ha2) & Hl & Hp & Hb).
      destruct (laserStep_account beam i a) as ((H1 & H2) & Hl' & Hp' & Hb').
      repeat split; try congruence; lia.
    - repeat split; lia. }
  cbv zeta in Hacc. destruct Hacc as ((H1 & H2) & Hl & Hp & Hb).
  split; [| repeat split; try assumption; lia].
  rewrite <- (app_nil_r (flat_map _ _)).
  apply (loopDown_flat_map (fun s => player s = player w) enemies).
  - intros i s Hs. rewrite <- Hs.
    apply (laserStep_account beam i s).
  - intros s a front back Hs Hget. unfold laserStep, laserOutcome.
    rewrite Hget, lookup_middle, Hs.
    destruct (laserHitsEnemy (player w) a); [| exact Hget].
    cbv zeta. destruct (Enemy.isDestroyed _);
      cbn [enemies set_enemies set_score app].
    + apply delete_middle.
    + apply insert_middle.
  - reflexivity.
  - symmetry. apply app_nil_r.
Qed.

Example laser_sweep_of_three_enemies :
  let w' := checkLaserCollisions (LaserBeam.mk true 1) sweptWorld in
  enemies w' = [Enemy.mk 390 300 30 30 1 3 2 true;
                Enemy.mk 500 200 30 30 1 3 3 false] /\
  score w' = 10.
Proof. vm_compute. split; reflexivity. Qed.

(** ** The game without a state manager *)

Lemma shootBullet_laserActive (Math_sin Math_cos : Q -> Q) (now : Z)
    (w : World) :
  laserActive (shootBullet Math_sin Math_cos now w) = laserActive w.
Proof.
  unfold shootBullet, createBullets.
  destruct (Qltb _ _); [| reflexivity].
  destruct (getCurrentBulletPattern w); reflexivity.
Qed.

Lemma handleInput_laserActive (Math_sin Math_cos : Q -> Q) (now : Z)
    (w : World) :
  laserActive (handleInput Math_sin Math_cos now w) = laserActive w.
Proof.
  unfold handleInput. destruct (canvas w) as [c |]; [| reflexivity].
  cbv zeta. set (w1 := set_player _ w).
  change (laserActive w) with (laserActive w1). clearbody w1.
  destruct (Keys.Space (keys w1)); [| reflexivity].
  apply (shootBullet_laserActive Math_sin Math_cos now w1).
Qed.

Lemma spawnEnemy_laserActive (now : Z) (r1 r2 r3 : Q) (w : World) :
  laserActive (spawnEnemy now r1 r2 r3 w) = laserActive w.
Proof.
  unfold spawnEnemy.
  destruct (enemySpawnRate w <? now - lastEnemySpawn w); [| reflexivity].
  cbv zeta. destruct (GAME_CONFIG.MIN_ENEMY_SPAWN_RATE <? _); reflexivity.
Qed.

Lemma updateBullets_laserActive (w : World) :
  laserActive (updateBullets w) = laserActive w.
Proof.
  unfold updateBullets.
  apply (loopDown_invariant (fun a => laserActive a = laserActive w));
    [| reflexivity].
  intros i a Ha. destruct (bullets a !! i) as [b |]; [| exact Ha].
  destruct (Qltb _ 0); exact Ha.
Qed.

Lemma updateEnemies_laserActive (w : World) :
  laserActive (updateEnemies w) = laserActive w.
Proof.
  unfold updateEnemies.
  apply (loopDown_invariant (fun a => laserActive a = laserActive w));
    [| reflexivity].
  intros i a Ha. destruct (enemies a !! i) as [e |]; [| exact Ha].
  destruct (Qltb _ _); exact Ha.
Qed.

Lemma GameState_handleInput_without_pause (Math_sin Math_cos : Q -> Q)
    (now : Z) (w : World) :
  Keys.Escape (keys w) = false ->
  GameState_handleInput Math_sin Math_cos now w
    = handleInput Math_sin Math_cos now w.
Proof.
  intros Hesc. unfold GameState_handleInput, handleInput.
  destruct (canvas w) as [c |]; [| reflexivity]. cbv zeta.
  set (w1 := set_player _ w).
  assert (H1 : Keys.Escape (keys w1) = false) by exact Hesc. clearbody w1.
  set (w2 := if Keys.Space (keys w1) then _ else w1).
  assert (H2 : Keys.Escape (keys w2) = false).
  { subst w2. destruct (Keys.Space (keys w1)); [| exact H1].
    cbn [keys set_keys]. unfold Keys.clearSpace.
    cbn [Keys.Escape]. exact H1. }
  rewrite H2. reflexivity.
Qed.

(** X16.  The fallback [update()] and [GameState.update()] are the same
    frame as long as Escape is not held, the laser is not active and a life
    is left at the end: [GameState.update()] differs from the fallback only
    by the pause key, the missing laser sweep and the test of the lives
    that ends the game. *)
Theorem fallback_update_agrees_with_GameState_update
    (Math_sqrt Math_sin Math_cos : Q -> Q) (inp : FrameInput) (w : World) :
  Keys.Escape (keys w) = false ->
  laserActive w = false ->
  0 < lives (update Math_sqrt Math_sin Math_cos inp w) ->
  GameState_update Math_sqrt Math_sin Math_cos inp w
    = update Math_sqrt Math_sin Math_cos inp w.
Proof.
  intros Hesc Hlaser. unfold update, GameState_update.
  destruct (negb (gameRunning w)); [reflexivity |]. cbv zeta.
  rewrite (GameState_handleInput_without_pause Math_sin Math_cos
             (nowShoot inp) w Hesc).
  set (w4 := updateEnemies _).
  assert (H4 : laserActive w4 = false).
  { subst w4.
    rewrite updateEnemies_laserActive, updateBullets_laserActive,
      spawnEnemy_laserActive, handleInput_laserActive.
    exact Hlaser. }
  clearbody w4. rewrite H4.
  replace (match laserBeam w4 with Some _ => w4 | None => w4 end) with w4
    by (destruct (laserBeam w4); reflexivity).
  intros Hlives. apply Z.leb_gt in Hlives. rewrite Hlives. reflexivity.
Qed.

Lemma fallback_update_agrees_with_GameState_update_witness :
  GameState_update sampleSqrt sampleSin sampleCos quietFrame crossfireWorld
    = update sampleSqrt sampleSin sampleCos quietFrame crossfireWorld /\
  length (enemies (update sampleSqrt sampleSin sampleCos quietFrame
                          crossfireWorld)) = 2%nat.
Proof.
  split; [| vm_compute; reflexivity].
  apply fallback_update_agrees_with_GameState_update.
  - reflexivity.
  - reflexivity.
  - vm_compute. reflexivity.
Defined.

(** The reset of the player and of the multiplier commutes with the
    disable hooks. *)
Lemma hook_after_reset (type : string) (w : World) :
  applyPowerUpEffect type false
    (set_timeSlowMultiplier 1 (set_player (Player.reset (player w)) w))
  = set_timeSlowMultiplier 1
      (set_player
         (Player.reset (player (applyPowerUpEffect type false w)))
         (applyPowerUpEffect type false w)).
Proof.
  unfold applyPowerUpEffect.
  repeat (match goal with
          | |- context [String.eqb type ?s] => destruct (String.eqb type s)
          end); try reflexivity.
  unfold deactivateLaserBeam. cbn [laserBeam log set_console
    set_timeSlowMultiplier set_player].
  destruct (laserBeam w); reflexivity.
Qed.

Lemma hooks_after_reset (types : list string) (w : World) :
  deactivateAllEffects types
    (set_timeSlowMultiplier 1 (set_player (Player.reset (player w)) w))
  = set_timeSlowMultiplier 1
      (set_player
         (Player.reset (player (deactivateAllEffects types w)))
         (deactivateAllEffects types w)).
Proof.
  unfold deactivateAllEffects. revert w.
  induction types as [| type types IH]; intros w; [reflexivity |].
  cbn [fold_left]. rewrite hook_after_reset. apply IH.
Qed.

Lemma clearAllPowerUps_after_reset (w : World) :
  fst (clearAllPowerUps
         (set_timeSlowMultiplier 1 (set_player (Player.reset (player w)) w)))
  = set_timeSlowMultiplier 1
      (set_player (Player.reset (player (fst (clearAllPowerUps w))))
                  (fst (clearAllPowerUps w))).
Proof.
  unfold clearAllPowerUps. cbv zeta.
  change (JSMap.keys
            (activePowerUps
               (set_timeSlowMultiplier 1
                  (set_player (Player.reset (player w)) w))))
    with (JSMap.keys (activePowerUps w)).
  rewrite hooks_after_reset.
  set (d := deactivateAllEffects _ w). clearbody d.
  cbn [laserBeam set_timeSlowMultiplier set_player].
  destruct (laserBeam d); reflexivity.
Qed.

(** X17.  Without a ready state manager, [restartGame()] leaves exactly the
    world that [GameState.enter()] would: the fallback clears the power-ups
    before it resets the player and [GameState.enter()] after, with the
    same result.  In particular the score is 0, there are 3 lives, no
    bullets and no enemies, and the manager is not touched. *)
Theorem restartGame_fallback_is_GameState_enter (w : World) :
  GameStateManager.isReady (gameStateManager w) = false ->
  restartGame w = GameState_enter w /\
  score (restartGame w) = 0 /\ lives (restartGame w) = 3 /\
  bullets (restartGame w) = [] /\ enemies (restartGame w) = [] /\
  gameRunning (restartGame w) = true /\
  gameStateManager (restartGame w) = gameStateManager w.
Proof.
  intros Hready.
  assert (Heq : restartGame w = GameState_enter w).
  { unfold restartGame, GameState_enter. rewrite Hready. cbv zeta.
    set (w1 := set_enemySpawnRate _ _). clearbody w1.
    change (powerUpManagerInitialized
              (set_timeSlowMultiplier 1
                 (set_player (Player.reset (player w1)) w1)))
      with (powerUpManagerInitialized w1).
    destruct (powerUpManagerInitialized w1); [| reflexivity].
    rewrite clearAllPowerUps_after_reset. reflexivity. }
  split; [exact Heq |]. rewrite Heq.
  destruct (GameState_enter_session w)
    as (Hrun & Hs & Hl & Hb & He & _).
  repeat (split; [assumption |]). apply GameState_enter_manager.
Qed.

Lemma restartGame_fallback_is_GameState_enter_witness :
  score fallbackWorld = 70 /\
  restartGame fallbackWorld = GameState_enter fallbackWorld /\
  score (restartGame fallbackWorld) = 0.
Proof.
  split; [reflexivity |].
  destruct (restartGame_fallback_is_GameState_enter fallbackWorld)
    as (Heq & Hs & _); [reflexivity |].
  split; [exact Heq | exact Hs].
Defined.


(** ** The pickups on screen *)

(** X18.  The global [updatePowerUps()] moves every pickup down by its
    speed and drops exactly those that end below the canvas (600 without a
    canvas) or are marked as collected; the others keep their order, type
    and configuration. *)
Theorem updatePowerUps_moves_and_drops
    (canvas : option Canvas.t) (powerUps : list PowerUp.t) :
  let keep u := negb (PowerUp_isOffScreen canvas u || PowerUp.collected u) in
  updatePowerUps canvas powerUps
    = filter keep (map PowerUp_update powerUps) /\
  Forall (fun u => PowerUp_isOffScreen canvas u = false /\
                   PowerUp.collected u = false)
         (updatePowerUps canvas powerUps) /\
  (forall u, (PowerUp.y (PowerUp_update u)
              == PowerUp.y u + PowerUp.speed u)%Q /\
             PowerUp.type (PowerUp_update u) = PowerUp.type u /\
             PowerUp.typeConfig (PowerUp_update u) = PowerUp.typeConfig u).
Proof.
  intros keep.
  assert (Heq : updatePowerUps canvas powerUps
                = filter keep (map PowerUp_update powerUps)).
  { rewrite <- flat_map_filter_map. unfold updatePowerUps.
    rewrite <- (app_nil_r (flat_map _ _)).
    apply (loopDown_flat_map (fun _ => True) (fun l => l)).
    - trivial.
    - intros s a front back _ ->. rewrite lookup_middle. cbv zeta.
      rewrite insert_middle. subst keep. cbv beta.
      destruct (PowerUp_isOffScreen canvas (PowerUp_update a)
                || PowerUp.collected (PowerUp_update a)); cbn [negb app].
      + apply delete_middle.
      + reflexivity.
    - exact I.
    - symmetry. apply app_nil_r. }
  split; [exact Heq |]. split.
  - rewrite Heq. apply Forall_forall. intros u Hu.
    apply filter_In in Hu. destruct Hu as [_ Hu]. subst keep.
    apply negb_true_iff, orb_false_elim in Hu. exact Hu.
  - intros u. repeat split.
Qed.

Lemma touchedPickups_prefix (clock : nat -> Z) (p : Player.t)
    (front back : list PowerUp.t) (n : nat) :
  (n <= length front)%nat ->
  touchedPickups clock p n (front ++ back)
    = touchedPickups clock p n front.
Proof.
  induction n as [| n IH]; intros Hn; [reflexivity |].
  cbn [touchedPickups].
  rewrite lookup_app_l by lia. rewrite IH by lia. reflexivity.
Qed.

Lemma playerTouches_sameSession (w w' : World) (u : PowerUp.t) :
  sameSession w w' ->
  playerTouches (player w') u = playerTouches (player w) u.
Proof.
  unfold sameSession, playerTouches.
  intros (_ & _ & _ & _ & _ & _ & _ & _ & _ & _ & _ & _
          & -> & -> & -> & -> & _).
  reflexivity.
Qed.

Lemma pickupStep_middle (clock : nat -> Z) (p : Player.t)
    (front back : list PowerUp.t) (a : PowerUp.t) (w : World) :
  (forall u, playerTouches (player w) u = playerTouches p u) ->
  pickupStep clock (length front) ((front ++ a :: back)%list, w)
    = if touched p a
      then ((front ++ back)%list,
            if powerUpManagerInitialized w
            then fst (addPowerUp (PowerUp.type a) (clock (length front)) w)
            else w)
      else ((front ++ a :: back)%list, w).
Proof.
  intros Hp. unfold pickupStep, touched.
  rewrite lookup_middle, (Hp a), delete_middle.
  destruct (PowerUp.collected a); [reflexivity |].
  destruct (playerTouches p a); reflexivity.
Qed.

Lemma collectPowerUps_front (clock : nat -> Z) (p : Player.t)
    (front back : list PowerUp.t) (w : World) :
  (forall u, playerTouches (player w) u = playerTouches p u) ->
  loopDown (pickupStep clock) (length front) ((front ++ back)%list, w)
    = ((filter (fun u => negb (touched p u)) front ++ back)%list,
       checkPowerUpCollisions
         (touchedPickups clock p (length front) front) w).
Proof.
  revert back w.
  induction front as [| a front IH] using rev_ind; intros back w Hp;
    [reflexivity |].
  rewrite length_app. cbn [length].
  replace (length front + 1)%nat with (S (length front)) by lia.
  cbn [loopDown touchedPickups].
  rewrite (lookup_middle front [] a).
  rewrite (touchedPickups_prefix clock p front [a] (length front))
    by lia.
  rewrite filter_app, <- !app_assoc. cbn [app filter].
  rewrite (pickupStep_middle clock p front back a w Hp).
  destruct (touched p a); cbn [negb app].
  - set (w1 := if powerUpManagerInitialized w then _ else w).
    assert (H1 : sameSession w w1).
    { subst w1. destruct (powerUpManagerInitialized w);
        [apply addPowerUp_sameSession | apply sameSession_refl]. }
    rewrite (IH back w1).
    + reflexivity.
    + intros u. rewrite (playerTouches_sameSession w w1 u H1). apply Hp.
  - apply (IH (a :: back) w Hp).
Qed.

(** X19.  [checkPowerUpCollisions()] removes from the screen exactly the
    pickups that overlap the player and are not marked as collected, keeps
    the others in their order, and changes the world as one [addPowerUp]
    per removed pickup does, from the last index to the first; without an
    initialized manager the world is left as it is. *)
Theorem collectPowerUps_collects_what_is_touched
    (clock : nat -> Z) (powerUps : list PowerUp.t) (w : World) :
  let r := collectPowerUps clock powerUps w in
  fst r = filter (fun u => negb (touched (player w) u)) powerUps /\
  snd r = checkPowerUpCollisions
            (touchedPickups clock (player w) (length powerUps) powerUps) w /\
  sameSession w (snd r) /\
  (powerUpManagerInitialized w = false -> snd r = w) /\
  (forall u, In u powerUps -> touched (player w) u = false -> In u (fst r)).
Proof.
  intros r.
  assert (Hr : r = (filter (fun u => negb (touched (player w) u)) powerUps,
                    checkPowerUpCollisions
                      (touchedPickups clock (player w) (length powerUps)
                                      powerUps) w)).
  { subst r. unfold collectPowerUps.
    rewrite <- (app_nil_r powerUps) at 2.
    rewrite (collectPowerUps_front clock (player w) powerUps [] w)
      by reflexivity.
    rewrite app_nil_r. reflexivity. }
  rewrite Hr. cbn [fst snd].
  split; [reflexivity |]. split; [reflexivity |].
  split; [apply checkPowerUpCollisions_sameSession |]. split.
  - intros Hinit. unfold checkPowerUpCollisions.
    apply (fold_preserves (fun a => a = w)); [| reflexivity].
    intros a [type now] ->. rewrite Hinit. reflexivity.
  - intros u Hin Hu. apply filter_In. rewrite Hu. split; [exact Hin |].
    reflexivity.
Qed.

Example pickups_of_one_frame :
  let moved := updatePowerUps (canvas playWorld) samplePickups in
  let r := collectPowerUps (fun _ => 1000) moved playWorld in
  map PowerUp.type moved = ["TIME_SLOW"; "SHIELD_GENERATOR"] /\
  map PowerUp.type (fst r) = [] /\
  JSMap.keys (activePowerUps (snd r)) = ["SHIELD_GENERATOR"; "TIME_SLOW"].
Proof. vm_compute. repeat split. Qed.


(** ** After the collision pass *)

Lemma In_delete {A : Type} (i : nat) (l : list A) (a : A) :
  In a (delete i l) -> In a l.
Proof.
  revert i. induction l as [| x l IH]; intros [| i]; simpl; auto.
  intros [-> | H]; [left; reflexivity | right; eapply IH, H].
Qed.

Lemma In_insert {A : Type} (i : nat) (l : list A) (x a : A) :
  In a (<[i := x]> l) -> a = x \/ In a l.
Proof.
  revert i. induction l as [| y l IH]; intros [| i]; simpl; auto.
  - intros [<- | H]; auto.
  - intros [<- | H]; auto. destruct (IH i H); auto.
Qed.

Lemma In_lookup {A : Type} (l : list A) (a : A) :
  In a l -> exists i, l !! i = Some a.
Proof.
  induction l as [| x l IH]; simpl; [contradiction |].
  intros [-> | H]; [exists 0%nat; reflexivity |].
  destruct (IH H) as [i Hi]. exists (S i). exact Hi.
Qed.

Lemma lookup_In {A : Type} (l : list A) (i : nat) (a : A) :
  l !! i = Some a -> In a l.
Proof.
  revert i. induction l as [| x l IH]; intros [| i]; simpl;
    try discriminate.
  - intros [= ->]. left. reflexivity.
  - intros H. right. eapply IH, H.
Qed.

Lemma boxesWithin_refl (es : list Enemy.t) : boxesWithin es es.
Proof. intros e He. exists e. split; [exact He | reflexivity]. Qed.

Lemma boxesWithin_trans (es1 es2 es3 : list Enemy.t) :
  boxesWithin es1 es2 -> boxesWithin es2 es3 -> boxesWithin es1 es3.
Proof.
  intros H12 H23 e1 H1. destruct (H12 e1 H1) as (e2 & H2 & Hb12).
  destruct (H23 e2 H2) as (e3 & H3 & Hb23).
  exists e3. split; [exact H3 | congruence].
Qed.

Lemma bulletHitsEnemy_box (b : Bullet.t) (e e' : Enemy.t) :
  box e' = box e -> bulletHitsEnemy b e' = bulletHitsEnemy b e.
Proof.
  unfold box, bulletHitsEnemy. intros [= -> -> -> ->]. reflexivity.
Qed.

Lemma clearOf_within (bs : list Bullet.t) (es es' : list Enemy.t) :
  clearOf bs es -> boxesWithin es' es -> clearOf bs es'.
Proof.
  intros Hclear Hwithin b e' Hb He'.
  destruct (Hwithin e' He') as (e & He & Hbox).
  rewrite (bulletHitsEnemy_box b e e' Hbox). apply Hclear; assumption.
Qed.

(** A hit leaves the bullets alone and every enemy where it stands. *)
Lemma hit_keeps_boxes (j : nat) (e : Enemy.t) (amount : Z) (w : World) :
  enemies w !! j = Some e ->
  let w' := let (e', enemyDestroyed) := Enemy.takeDamage e amount in
            if enemyDestroyed
            then updateScore 10 (set_enemies (delete j (enemies w)) w)
            else set_enemies
                   (<[j := Enemy.setHealthBarVisible e' true]> (enemies w))
                   w in
  bullets w' = bullets w /\ boxesWithin (enemies w') (enemies w).
Proof.
  intros He. unfold Enemy.takeDamage.
  destruct (Enemy.isDestroyed _);
    cbn [bullets enemies updateScore set_score set_enemies];
    (split; [reflexivity |]); intros e' He'.
  - exists e'. split; [eapply In_delete, He' | reflexivity].
  - apply In_insert in He'. destruct He' as [-> | He'].
    + exists e. split; [eapply lookup_In, He | reflexivity].
    + exists e'. split; [exact He' | reflexivity].
Qed.

Lemma explodeAt_keeps_boxes (Math_sqrt : Q -> Q) (cx cy radius : Q)
    (i : nat) (w : World) :
  let w' := explodeAt Math_sqrt cx cy radius i w in
  bullets w' = bullets w /\ boxesWithin (enemies w') (enemies w).
Proof.
  unfold explodeAt.
  destruct (enemies w !! i) as [e |] eqn:He;
    [| split; [reflexivity | apply boxesWithin_refl]].
  destruct (Qle_bool _ radius);
    [| split; [reflexivity | apply boxesWithin_refl]].
  apply (hit_keeps_boxes i e _ w He).
Qed.

Lemma bulletStep_keeps_boxes (Math_sqrt : Q -> Q) (i : nat) (w : World) :
  boxesWithin (enemies (bulletStep Math_sqrt i w)) (enemies w) /\
  (forall b, In b (bullets (bulletStep Math_sqrt i w)) -> In b (bullets w)).
Proof.
  unfold bulletStep.
  destruct (bullets w !! i) as [b |];
    [| split; [apply boxesWithin_refl | auto]].
  destruct (findHit b (enemies w) _) as [j |];
    [| split; [apply boxesWithin_refl | auto]].
  unfold resolveHit.
  set (w1 := set_bullets (delete i (bullets w)) w).
  assert (H1 : enemies w1 = enemies w /\
               forall b', In b' (bullets w1) -> In b' (bullets w)).
  { split; [reflexivity |]. intros b'. apply In_delete. }
  clearbody w1. destruct H1 as [He1 Hb1]. rewrite <- He1.
  assert (H : let w' := if Player.explosiveRoundsActive (player w1)
                        then applyExplosiveDamage Math_sqrt
                               (Bullet.x b + Bullet.width b / 2)
                               (Bullet.y b + Bullet.height b / 2) 50 w1
                        else hitEnemy j w1 in
              bullets w' = bullets w1 /\
              boxesWithin (enemies w') (enemies w1)).
  { destruct (Player.explosiveRoundsActive (player w1)).
    - unfold applyExplosiveDamage.
      apply (loopDown_invariant
               (fun a => bullets a = bullets w1 /\
                         boxesWithin (enemies a) (enemies w1)));
        [| split; [reflexivity | apply boxesWithin_refl]].
      intros k a [Hb Hw].
      destruct (explodeAt_keeps_boxes Math_sqrt
                  (Bullet.x b + Bullet.width b / 2)
                  (Bullet.y b + Bullet.height b / 2) 50 k a) as [Hb' Hw'].
      split; [congruence | eapply boxesWithin_trans; eassumption].
    - unfold hitEnemy.
      destruct (enemies w1 !! j) as [e |] eqn:He;
        [| split; [reflexivity | apply boxesWithin_refl]].
      apply (hit_keeps_boxes j e 1 w1 He). }
  cbv zeta in H. destruct H as [Hb Hw].
  split; [exact Hw |]. rewrite Hb. exact Hb1.
Qed.

Lemma bulletStep_middle (Math_sqrt : Q -> Q) (front back : list Bullet.t)
    (a : Bullet.t) (w : World) :
  bullets w = (front ++ a :: back)%list ->
  let w' := bulletStep Math_sqrt (length front) w in
  (bullets w' = (front ++ a :: back)%list /\ enemies w' = enemies w /\
   forall e, In e (enemies w) -> bulletHitsEnemy a e = false) \/
  bullets w' = (front ++ back)%list.
Proof.
  intros Hb. unfold bulletStep. rewrite Hb, lookup_middle.
  destruct (findHit a (enemies w) _) as [j |] eqn:Hfind.
  - right. unfold resolveHit. rewrite Hb, delete_middle.
    set (w1 := set_bullets (front ++ back) w).
    change (front ++ back)%list with (bullets w1). clearbody w1.
    destruct (Player.explosiveRoundsActive (player w1)).
    + unfold applyExplosiveDamage.
      apply (loopDown_invariant (fun s => bullets s = bullets w1));
        [| reflexivity].
      intros k s <-. apply explodeAt_keeps_boxes.
    + unfold hitEnemy.
      destruct (enemies w1 !! j) as [e |] eqn:He; [| reflexivity].
      apply (hit_keeps_boxes j e 1 w1 He).
  - left. split; [exact Hb |]. split; [reflexivity |].
    intros e He. destruct (In_lookup _ _ He) as [k Hk].
    apply (findHit_None a (enemies w) _ Hfind k e);
      [eapply lookup_lt_Some, Hk | exact Hk].
Qed.

Lemma bulletLoop_clear (Math_sqrt : Q -> Q) (front back : list Bullet.t)
    (w : World) :
  bullets w = (front ++ back)%list ->
  clearOf back (enemies w) ->
  let w' := loopDown (bulletStep Math_sqrt) (length front) w in
  clearOf (bullets w') (enemies w').
Proof.
  revert back w.
  induction front as [| a front IH] using rev_ind; intros back w Hb Hclear.
  - cbn [length loopDown]. rewrite Hb. exact Hclear.
  - rewrite length_app. cbn [length].
    replace (length front + 1)%nat with (S (length front)) by lia.
    cbn [loopDown].
    rewrite <- app_assoc in Hb. cbn [app] in Hb.
    pose proof (bulletStep_keeps_boxes Math_sqrt (length front) w)
      as [Hwithin _].
    destruct (bulletStep_middle Math_sqrt front back a w Hb)
      as [(Hb' & He' & Hmiss) | Hb'].
    + apply (IH (a :: back) _ Hb'). rewrite He'.
      intros b e [<- | Hin] He; [apply Hmiss, He | apply Hclear; assumption].
    + apply (IH back _ Hb').
      eapply clearOf_within; [exact Hclear | exact Hwithin].
Qed.

Lemma playerStep_keeps_bullets (i : nat) (w : World) :
  registered w ->
  registered (playerStep i w) /\ bullets (playerStep i w) = bullets w.
Proof.
  intros Hreg. unfold playerStep.
  destruct (enemies w !! i) as [e |]; [| split; [exact Hreg | reflexivity]].
  destruct (enemyHitsPlayer e (player w));
    [| split; [exact Hreg | reflexivity]].
  destruct (Player.invincible (player w) && Player.shieldActive (player w));
    [split; [exact Hreg | reflexivity] |].
  cbv zeta. set (w2 := updateLives (-1) _).
  assert (H2 : registered w2 /\ bullets w2 = bullets w)
    by (split; [exact Hreg | reflexivity]).
  clearbody w2. destruct H2 as [Hreg2 Hb2].
  destruct (lives w2 <=? 0); [| split; assumption].
  destruct (gameOver_effect w2 Hreg2) as (_ & _ & _ & Hr & _ & Hb & _).
  split; [exact Hr | congruence].
Qed.

(** X20.  After the bullet pass no bullet is left that overlaps an enemy:
    a bullet either found no enemy when its turn came, and the enemies
    never move during the pass, or it was removed.  The pass adds no
    bullet and leaves every enemy where it stood.  With the five registered
    states the same holds after the whole of [checkCollisions()], and no
    enemy that is left overlaps the player. *)
Theorem no_bullet_left_inside_an_enemy (Math_sqrt : Q -> Q) (w : World) :
  registered w ->
  let w1 := bulletEnemyCollisions Math_sqrt w in
  let w2 := checkCollisions Math_sqrt w in
  clearOf (bullets w1) (enemies w1) /\
  (forall b, In b (bullets w1) -> In b (bullets w)) /\
  boxesWithin (enemies w1) (enemies w) /\
  clearOf (bullets w2) (enemies w2) /\
  (forall e, In e (enemies w2) -> enemyHitsPlayer e (player w2) = false).
Proof.
  intros Hreg w1 w2.
  assert (Hclear : clearOf (bullets w1) (enemies w1)).
  { subst w1. unfold bulletEnemyCollisions.
    apply (bulletLoop_clear Math_sqrt (bullets w) [] w).
    - symmetry. apply app_nil_r.
    - intros b e []. }
  assert (Hkeep : boxesWithin (enemies w1) (enemies w) /\
                  forall b, In b (bullets w1) -> In b (bullets w)).
  { subst w1. unfold bulletEnemyCollisions.
    apply (loopDown_invariant
             (fun a => boxesWithin (enemies a) (enemies w) /\
                       forall b, In b (bullets a) -> In b (bullets w)));
      [| split; [apply boxesWithin_refl | auto]].
    intros i a [Hw Hb].
    destruct (bulletStep_keeps_boxes Math_sqrt i a) as [Hw' Hb'].
    split; [eapply boxesWithin_trans; eassumption | auto]. }
  split; [exact Hclear |]. split; [apply Hkeep |]. split; [apply Hkeep |].
  assert (Hreg1 : registered w1).
  { unfold registered. subst w1.
    rewrite (proj2 (proj2 (bulletEnemyCollisions_sameLives Math_sqrt w))).
    exact Hreg. }
  destruct (playerLoop_effect (enemies w1) [] w1 Hreg1
              (eq_sym (app_nil_r (enemies w1))))
    as (_ & Hp & Hen & _).
  rewrite app_nil_r in Hen. fold (playerEnemyCollisions w1) in Hp, Hen.
  assert (Hb2 : bullets (playerEnemyCollisions w1) = bullets w1).
  { unfold playerEnemyCollisions.
    apply (loopDown_invariant
             (fun a => registered a /\ bullets a = bullets w1));
      [| split; [exact Hreg1 | reflexivity]].
    intros i a [Hra Hba].
    destruct (playerStep_keeps_bullets i a Hra) as [Hr' Hb'].
    split; [exact Hr' | congruence]. }
  subst w2. unfold checkCollisions. fold w1. rewrite Hb2, Hen, Hp. split.
  - intros b e Hb He. apply filter_In in He. apply Hclear; tauto.
  - intros e He. apply filter_In in He. destruct He as [_ He].
    apply negb_true_iff in He. exact He.
Qed.

Lemma no_bullet_left_inside_an_enemy_witness :
  let w2 := checkCollisions sampleSqrt crossfireWorld in
  bullets crossfireWorld = [crossfireBullet] /\
  bullets w2 = [] /\ length (enemies w2) = 2%nat /\
  clearOf (bullets w2) (enemies w2).
Proof.
  split; [reflexivity |]. split; [vm_compute; reflexivity |].
  split; [vm_compute; reflexivity |].
  apply (no_bullet_left_inside_an_enemy sampleSqrt crossfireWorld).
  reflexivity.
Defined.


(** ** Effects are on exactly while their type is in the table *)

Lemma effectsExact_gear (w w' : World) :
  (forall T, flagOf T (player w') = flagOf T (player w)) ->
  activePowerUps w' = activePowerUps w ->
  timeSlowMultiplier w' = timeSlowMultiplier w ->
  laserActive w' = laserActive w ->
  powerUpManagerInitialized w' = powerUpManagerInitialized w ->
  effectsExact w -> effectsExact w'.
Proof.
  unfold effectsExact. intros Hf -> -> -> -> (Hi & Hnd & Hflags & Hm & Hl).
  split; [exact Hi |]. split; [exact Hnd |].
  split; [| split; assumption].
  intros T cfg Hin. rewrite Hf. apply (Hflags T cfg Hin).
Qed.

Lemma gear_effectsExact (w w' : World) :
  gear w' = gear w -> effectsExact w -> effectsExact w'.
Proof.
  unfold gear. intros [= Hp Ht Hm Hl Hi].
  apply effectsExact_gear; try assumption.
  intros T. rewrite Hp. reflexivity.
Qed.

Lemma loopDown_gear (body : nat -> World -> World) (n : nat) (w : World) :
  (forall i a, gear (body i a) = gear a) ->
  gear (loopDown body n w) = gear w.
Proof.
  intros Hbody.
  apply (loopDown_invariant (fun a => gear a = gear w)); [| reflexivity].
  intros i a Ha. rewrite Hbody. exact Ha.
Qed.

Lemma shootBullet_gear (Math_sin Math_cos : Q -> Q) (now : Z) (w : World) :
  gear (shootBullet Math_sin Math_cos now w) = gear w.
Proof.
  unfold shootBullet, createBullets.
  destruct (Qltb _ _); [| reflexivity].
  destruct (getCurrentBulletPattern w); reflexivity.
Qed.

Lemma spawnEnemy_gear (now : Z) (r1 r2 r3 : Q) (w : World) :
  gear (spawnEnemy now r1 r2 r3 w) = gear w.
Proof.
  unfold spawnEnemy.
  destruct (enemySpawnRate w <? now - lastEnemySpawn w); [| reflexivity].
  cbv zeta. destruct (GAME_CONFIG.MIN_ENEMY_SPAWN_RATE <? _); reflexivity.
Qed.

Lemma updateBullets_gear (w : World) : gear (updateBullets w) = gear w.
Proof.
  unfold updateBullets. apply loopDown_gear. intros i a.
  destruct (bullets a !! i) as [b |]; [| reflexivity].
  destruct (Qltb _ 0); reflexivity.
Qed.

Lemma updateEnemies_gear (w : World) : gear (updateEnemies w) = gear w.
Proof.
  unfold updateEnemies. apply loopDown_gear. intros i a.
  destruct (enemies a !! i) as [e |]; [| reflexivity].
  destruct (Qltb _ _); reflexivity.
Qed.

Lemma explodeAt_gear (Math_sqrt : Q -> Q) (cx cy radius : Q) (i : nat)
    (w : World) :
  gear (explodeAt Math_sqrt cx cy radius i w) = gear w.
Proof.
  unfold explodeAt.
  destruct (enemies w !! i) as [e |]; [| reflexivity].
  destruct (Qle_bool _ radius); [| reflexivity].
  destruct (Enemy.takeDamage e _) as [e' destroyed].
  destruct destroyed; reflexivity.
Qed.

Lemma bulletEnemyCollisions_gear (Math_sqrt : Q -> Q) (w : World) :
  gear (bulletEnemyCollisions Math_sqrt w) = gear w.
Proof.
  unfold bulletEnemyCollisions. apply loopDown_gear. intros i a.
  unfold bulletStep.
  destruct (bullets a !! i) as [b |]; [| reflexivity].
  destruct (findHit b (enemies a) _) as [j |]; [| reflexivity].
  unfold resolveHit.
  destruct (Player.explosiveRoundsActive _).
  - unfold applyExplosiveDamage.
    rewrite loopDown_gear by (intros; apply explodeAt_gear). reflexivity.
  - unfold hitEnemy. cbn [enemies set_bullets].
    destruct (enemies a !! j) as [e |]; [| reflexivity].
    destruct (Enemy.takeDamage e 1) as [e' destroyed].
    destruct destroyed; reflexivity.
Qed.

Lemma effect_switches (type : string) (activate : bool) (w : World) :
  let w' := applyPowerUpEffect type activate w in
  timeSlowMultiplier w'
    = (if String.eqb type "TIME_SLOW"
       then (if activate then 1 # 2 else 1)%Q
       else timeSlowMultiplier w) /\
  laserActive w'
    = (if String.eqb type "LASER_BEAM" then activate else laserActive w) /\
  powerUpManagerInitialized w' = powerUpManagerInitialized w.
Proof.
  unfold applyPowerUpEffect.
  repeat (match goal with
          | |- context [if String.eqb type ?s then _ else _] =>
              destruct (String.eqb_spec type s) as [-> | ?]
          end);
    destruct activate; cbn;
    try (repeat split; reflexivity);
    unfold activateLaserBeam, deactivateLaserBeam; cbn;
    destruct (laserBeam w); repeat split; reflexivity.
Qed.

Lemma JSMap_has_delete_eq {V : Type} (m : JSMap.t V) (k : string) :
  NoDup (JSMap.keys m) -> JSMap.has (JSMap.delete m k) k = false.
Proof.
  intros Hnd.
  destruct (JSMap.has (JSMap.delete m k) k) eqn:Hhas; [| reflexivity].
  exfalso. apply JSMap_has_In in Hhas. revert Hnd Hhas.
  unfold JSMap.keys. induction m as [| [k0 v0] m IH]; simpl; [tauto |].
  intros Hnd. inversion Hnd as [| ? ? Hnotin Hnd']; subst.
  destruct (String.eqb_spec k0 k) as [-> | Hne]; simpl.
  - exact Hnotin.
  - intros [H | H]; [contradiction | exact (IH Hnd' H)].
Qed.

Lemma addPowerUp_effectsExact (type : string) (now : Z) (w : World) :
  effectsExact w -> effectsExact (fst (addPowerUp type now w)).
Proof.
  intros Hw. pose proof Hw as (Hi & Hnd & Hflags & Hm & Hl).
  unfold addPowerUp.
  destruct (negb (string_truthy type) || _); [exact Hw |].
  destruct (JSMap.get (activePowerUps w) type) as [existing |] eqn:Hget;
    cbn [fst].
  - assert (Hhas : forall T, JSMap.has (JSMap.set (activePowerUps w) type
                      (Effect.setEndTime existing
                         (endTimeFor now (POWER_UP_TYPES type)))) T
                    = JSMap.has (activePowerUps w) T).
    { intros T. rewrite JSMap_has_set.
      destruct (String.eqb_spec type T) as [<- | _]; [| reflexivity].
      unfold JSMap.has. rewrite Hget. reflexivity. }
    unfold effectsExact, log.
    cbn [powerUpManagerInitialized activePowerUps player timeSlowMultiplier
         laserActive set_console set_activePowerUps].
    rewrite !Hhas.
    split; [exact Hi |]. split; [apply JSMap_set_NoDup, Hnd |].
    split; [| split; assumption].
    intros T cfg Hin. rewrite Hhas. apply (Hflags T cfg Hin).
  - set (w1 := set_activePowerUps _ w).
    destruct (effect_switches type true w1) as (Hm' & Hl' & Hi').
    destruct (applyPowerUpEffect_sameSession type true w1) as [_ Ht'].
    unfold effectsExact, log.
    cbn [powerUpManagerInitialized activePowerUps player timeSlowMultiplier
         laserActive set_console].
    rewrite Hm', Hl', Hi', Ht'. subst w1.
    cbn [powerUpManagerInitialized activePowerUps timeSlowMultiplier
         laserActive set_activePowerUps].
    rewrite !JSMap_has_set.
    split; [exact Hi |]. split; [apply JSMap_set_NoDup, Hnd |]. split.
    + intros T cfg Hin.
      rewrite (flagOf_after_effect T cfg type true _ Hin), JSMap_has_set.
      cbn [player set_activePowerUps].
      destruct (String.eqb type T); [reflexivity | apply (Hflags T cfg Hin)].
    + split.
      * destruct (String.eqb type "TIME_SLOW"); [reflexivity | exact Hm].
      * destruct (String.eqb type "LASER_BEAM"); [reflexivity | exact Hl].
Qed.

Lemma removePowerUp_effectsExact (type : string) (w : World) :
  effectsExact w -> effectsExact (fst (removePowerUp type w)).
Proof.
  intros Hw. pose proof Hw as (Hi & Hnd & Hflags & Hm & Hl).
  unfold removePowerUp.
  destruct (JSMap.has (activePowerUps w) type) eqn:Hhas; cbn [negb fst];
    [| exact Hw].
  destruct (effect_switches type false w) as (Hm' & Hl' & Hi').
  destruct (applyPowerUpEffect_sameSession type false w) as [_ Ht'].
  assert (Hdel : forall T, JSMap.has (JSMap.delete (activePowerUps w) type) T
                   = if String.eqb type T then false
                     else JSMap.has (activePowerUps w) T).
  { intros T. destruct (String.eqb_spec type T) as [<- | Hne].
    - apply JSMap_has_delete_eq, Hnd.
    - apply JSMap_has_delete_ne, Hne. }
  unfold effectsExact, log.
  cbn [powerUpManagerInitialized activePowerUps player timeSlowMultiplier
       laserActive set_console set_activePowerUps].
  rewrite Hm', Hl', Hi', Ht', !Hdel.
  split; [exact Hi |]. split; [apply JSMap_delete_NoDup, Hnd |]. split.
  - intros T cfg Hin.
    rewrite (flagOf_after_effect T cfg type false w Hin), Hdel.
    destruct (String.eqb type T); [reflexivity | apply (Hflags T cfg Hin)].
  - split.
    + destruct (String.eqb type "TIME_SLOW"); [reflexivity | exact Hm].
    + destruct (String.eqb type "LASER_BEAM"); [reflexivity | exact Hl].
Qed.

Lemma flagsOff_flagOf (T : string) (p : Player.t) :
  Player.flagsOff p = true -> flagOf T p = false.
Proof.
  unfold Player.flagsOff, flagOf. intros H. apply negb_true_iff in H.
  repeat (apply orb_false_elim in H; destruct H as [H ?]).
  repeat (match goal with
          | |- context [if String.eqb T ?s then _ else _] =>
              destruct (String.eqb T s)
          end); try assumption; try reflexivity.
  apply orb_false_intro; assumption.
Qed.

Lemma cleared_effectsExact (w : World) :
  powerUpManagerInitialized w = true ->
  flagsCoherent w = true ->
  effectsExact (fst (clearAllPowerUps w)).
Proof.
  intros Hi Hcoh.
  destruct (clearAllPowerUps_from_coherent w Hcoh)
    as (_ & Ht & Hoff & Hm & Hl & _).
  cbv zeta in Ht, Hoff, Hm, Hl.
  pose proof (clearAllPowerUps_sameSession w) as Hsame.
  unfold effectsExact. rewrite Ht, Hm, Hl.
  split.
  { destruct Hsame as (_ & _ & _ & _ & _ & _ & _ & _ & _ & _ & _ & Hinit & _).
    rewrite Hinit. exact Hi. }
  split; [constructor |]. split; [| split; reflexivity].
  intros T cfg _. apply flagsOff_flagOf, Hoff.
Qed.

Lemma refreshed_display_gear (w : World) :
  gear (updateLives 0 (updateScore 0 w)) = gear w.
Proof. reflexivity. Qed.

Lemma reset_flagsCoherent (w : World) :
  flagsCoherent
    (set_timeSlowMultiplier 1 (set_player (Player.reset (player w)) w))
  = true.
Proof.
  apply flagsCoherent_spec. intros T cfg _ Hon.
  cbn [player set_timeSlowMultiplier set_player] in Hon.
  rewrite flagOf_reset in Hon. discriminate.
Qed.

Lemma GameState_enter_effectsExact (w : World) :
  powerUpManagerInitialized w = true -> effectsExact (GameState_enter w).
Proof.
  intros Hi. unfold GameState_enter. cbv zeta.
  match goal with
  | |- context [set_player (Player.reset (player ?x)) ?x] =>
      pose proof (reset_flagsCoherent x) as Hcoh1
  end.
  set (w1 := set_timeSlowMultiplier 1 _) in *.
  assert (Hi1 : powerUpManagerInitialized w1 = true) by exact Hi.
  clearbody w1. rewrite Hi1.
  apply (gear_effectsExact _ _ (refreshed_display_gear _)).
  apply cleared_effectsExact; assumption.
Qed.

Lemma setState_effectsExact (stateName : string) (w : World) :
  effectsExact w -> effectsExact (fst (setState stateName w)).
Proof.
  intros H. unfold setState.
  destruct (negb (string_truthy stateName)); [exact H |].
  destruct (GameStateManager.states (gameStateManager w) !! stateName)
    as [newState |]; [| exact H].
  destruct (negb (state_truthy newState)); [exact H |].
  cbn [fst].
  set (w1 := match GameStateManager.currentState (gameStateManager w) with
             | Some (JSInstance cls _) => exitState cls w
             | _ => w
             end).
  assert (H1 : gear w1 = gear w).
  { subst w1.
    destruct (GameStateManager.currentState (gameStateManager w))
      as [[| [] ? |] |]; reflexivity. }
  apply (gear_effectsExact w w1 H1) in H. clearbody w1.
  destruct newState as [| [] oid |];
    try (revert H; apply gear_effectsExact; reflexivity).
  apply GameState_enter_effectsExact. apply H.
Qed.

Lemma GameState_handleInput_effectsExact (Math_sin Math_cos : Q -> Q)
    (now : Z) (w : World) :
  effectsExact w ->
  effectsExact (GameState_handleInput Math_sin Math_cos now w).
Proof.
  intros H. unfold GameState_handleInput.
  destruct (canvas w) as [c |]; [| exact H]. cbv zeta.
  set (w1 := set_player _ w).
  assert (H1 : effectsExact w1).
  { revert H. apply effectsExact_gear; reflexivity. }
  clearbody w1.
  set (w2 := if Keys.Space (keys w1) then _ else w1).
  assert (H2 : effectsExact w2).
  { subst w2. destruct (Keys.Space (keys w1)); [| exact H1].
    revert H1. apply gear_effectsExact.
    apply (shootBullet_gear Math_sin Math_cos now w1). }
  clearbody w2.
  destruct (Keys.Escape (keys w2)); [| exact H2].
  apply setState_effectsExact.
  revert H2. apply gear_effectsExact. reflexivity.
Qed.

Lemma playerEnemyCollisions_effectsExact (w : World) :
  effectsExact w -> effectsExact (playerEnemyCollisions w).
Proof.
  unfold playerEnemyCollisions. apply (loopDown_invariant effectsExact).
  intros i a Ha. unfold playerStep.
  destruct (enemies a !! i) as [e |]; [| exact Ha].
  destruct (enemyHitsPlayer e (player a)); [| exact Ha].
  destruct (Player.invincible (player a) && Player.shieldActive (player a)).
  - revert Ha. apply gear_effectsExact. reflexivity.
  - cbv zeta. set (a2 := updateLives (-1) _).
    assert (H2 : effectsExact a2)
      by (revert Ha; apply gear_effectsExact; reflexivity).
    clearbody a2.
    destruct (lives a2 <=? 0); [| exact H2].
    unfold gameOver.
    destruct (GameStateManager.isReady (gameStateManager a2)).
    + apply setState_effectsExact, H2.
    + revert H2. apply gear_effectsExact. reflexivity.
Qed.

Section EffectsExact.
Variables Math_sqrt Math_sin Math_cos : Q -> Q.

Lemma GameState_update_effectsExact (inp : FrameInput) (w : World) :
  effectsExact w ->
  effectsExact (GameState_update Math_sqrt Math_sin Math_cos inp w).
Proof.
  intros H. unfold GameState_update.
  destruct (negb (gameRunning w)); [exact H |]. cbv zeta.
  apply (GameState_handleInput_effectsExact Math_sin Math_cos (nowShoot inp))
    in H.
  set (w1 := GameState_handleInput _ _ _ w) in *. clearbody w1.
  apply (gear_effectsExact _ _
           (spawnEnemy_gear (nowSpawn inp) (randomX inp) (randomSpeed inp)
              (randomHealth inp) w1)) in H.
  set (w2 := spawnEnemy _ _ _ _ w1) in *. clearbody w2.
  apply (gear_effectsExact _ _ (updateBullets_gear w2)) in H.
  set (w3 := updateBullets w2) in *. clearbody w3.
  apply (gear_effectsExact _ _ (updateEnemies_gear w3)) in H.
  set (w4 := updateEnemies w3) in *. clearbody w4.
  set (w5 := if powerUpManagerInitialized w4 then _ else w4).
  assert (H5 : effectsExact w5).
  { subst w5. destruct (powerUpManagerInitialized w4); [| exact H].
    unfold PowerUpManager_updatePowerUps.
    apply (fold_preserves effectsExact); [| exact H].
    intros a type. apply removePowerUp_effectsExact. }
  clearbody w5. unfold checkCollisions.
  apply (gear_effectsExact _ _ (bulletEnemyCollisions_gear Math_sqrt w5))
    in H5.
  apply playerEnemyCollisions_effectsExact in H5.
  set (w7 := playerEnemyCollisions _) in *. clearbody w7.
  assert (H8 : effectsExact (checkPowerUpCollisions (collected inp) w7)).
  { unfold checkPowerUpCollisions.
    apply (fold_preserves effectsExact); [| exact H5].
    intros a [type now] Ha.
    destruct (powerUpManagerInitialized a);
      [apply addPowerUp_effectsExact, Ha | exact Ha]. }
  destruct (lives _ <=? 0); [apply setState_effectsExact |]; exact H8.
Qed.

Lemma applyEvent_effectsExact (ev : SessionEvent) (w : World) :
  effectsExact w ->
  effectsExact (applyEvent Math_sqrt Math_sin Math_cos ev w).
Proof.
  intros H. destruct ev as [held | stateName | inp]; cbn [applyEvent].
  - revert H. apply gear_effectsExact. reflexivity.
  - apply setState_effectsExact, H.
  - unfold managerUpdate.
    destruct (GameStateManager.currentState (gameStateManager w))
      as [[| [] ? |] |]; try exact H.
    apply GameState_update_effectsExact, H.
Qed.

(** X21.  In every world of a session each power-up flag of the player is
    on exactly if its type is in the manager's table of active power-ups,
    whose keys are distinct; the time-slow multiplier is 1/2 exactly if
    Time Slow is in the table and 1 otherwise; and [laserActive] is true
    exactly if Laser Beam is in the table. *)
Theorem session_effects_follow_the_table (c : Canvas.t)
    (events : list SessionEvent) :
  let w := runSession Math_sqrt Math_sin Math_cos events (loadedWorld c) in
  NoDup (JSMap.keys (activePowerUps w)) /\
  (forall T cfg, In (T, cfg) CATALOG ->
     flagOf T (player w) = isPowerUpActive T w) /\
  timeSlowMultiplier w
    = (if isPowerUpActive "TIME_SLOW" w then 1 # 2 else 1)%Q /\
  laserActive w = isPowerUpActive "LASER_BEAM" w.
Proof.
  intros w.
  assert (H : effectsExact w).
  { subst w. unfold runSession.
    apply (fold_preserves effectsExact).
    - intros a ev. apply applyEvent_effectsExact.
    - unfold loadedWorld. apply setState_effectsExact.
      split; [reflexivity |]. split; [constructor |].
      split; [| split; reflexivity].
      intros T cfg Hin. unfold CATALOG in Hin. simpl in Hin.
      repeat (destruct Hin as [Hin | Hin];
              [inversion Hin; subst; reflexivity |]).
      contradiction. }
  destruct H as (_ & Hnd & Hflags & Hm & Hl).
  unfold isPowerUpActive. tauto.
Qed.
End EffectsExact.

Example effects_after_pickups :
  let w := runSession sampleSqrt sampleSin sampleCos pickupRun
                      (loadedWorld (Canvas.mk 800 600)) in
  timeSlowMultiplier w = (1 # 2)%Q /\ laserActive w = false /\
  Player.shieldActive (player w) = true.
Proof. vm_compute. repeat split. Qed.


(** ** The fallbacks are not taken in a session *)

(** X22.  In every world of a session the state manager is ready, so
    [gameLoop()] runs [gameStateManager.update()], [restartGame()] is the
    transition to [GameState] and [gameOver()] the transition to
    [GameOverState]: the fallback branches written for a missing manager
    are never taken. *)
Theorem session_never_takes_the_fallbacks
    (Math_sqrt Math_sin Math_cos : Q -> Q) (c : Canvas.t)
    (events : list SessionEvent) (inp : FrameInput) :
  let w := runSession Math_sqrt Math_sin Math_cos events (loadedWorld c) in
  GameStateManager.isReady (gameStateManager w) = true /\
  gameLoop Math_sqrt Math_sin Math_cos inp w
    = managerUpdate Math_sqrt Math_sin Math_cos inp w /\
  restartGame w = fst (setState "GameState" w) /\
  gameOver w = fst (setState "GameOverState" w).
Proof.
  intros w.
  assert (H : tallyInvariant w).
  { subst w. unfold runSession.
    apply (fold_preserves tallyInvariant).
    - intros a ev. apply applyEvent_tally.
    - apply loadedWorld_tally. }
  destruct H as (Hr & _).
  pose proof (managerReady_isReady w Hr) as Hready.
  unfold gameLoop, restartGame, gameOver. rewrite Hready.
  repeat split.
Qed.


(** ** Spawning *)

Lemma setState_enemies_length (stateName : string) (w : World) :
  (length (enemies (fst (setState stateName w))) <= length (enemies w))%nat.
Proof.
  destruct (setState_enemies stateName w) as [-> | ->]; simpl; lia.
Qed.

Lemma GameState_handleInput_enemies_length (Math_sin Math_cos : Q -> Q)
    (now : Z) (w : World) :
  (length (enemies (GameState_handleInput Math_sin Math_cos now w))
   <= length (enemies w))%nat.
Proof.
  unfold GameState_handleInput.
  destruct (canvas w) as [c |]; [| lia]. cbv zeta.
  set (w1 := set_player _ w).
  assert (H1 : enemies w1 = enemies w) by reflexivity. clearbody w1.
  set (w2 := if Keys.Space (keys w1) then _ else w1).
  assert (H2 : enemies w2 = enemies w).
  { subst w2. destruct (Keys.Space (keys w1)); [| exact H1].
    rewrite <- H1. unfold shootBullet, createBullets.
    destruct (Qltb _ _); [| reflexivity].
    destruct (getCurrentBulletPattern w1); reflexivity. }
  clearbody w2. rewrite <- H2.
  destruct (Keys.Escape (keys w2)); [| lia].
  apply (setState_enemies_length "PauseState" (set_keys _ w2)).
Qed.

Lemma updateEnemies_enemies_length (w : World) :
  (length (enemies (updateEnemies w)) <= length (enemies w))%nat.
Proof.
  unfold updateEnemies.
  apply (loopDown_invariant
           (fun a => (length (enemies a) <= length (enemies w))%nat));
    [| lia].
  intros i a Ha. destruct (enemies a !! i) as [e |] eqn:He; [| exact Ha].
  destruct (Qltb _ _); cbn [enemies set_enemies].
  - rewrite length_delete by (eexists; exact He). lia.
  - rewrite length_insert. exact Ha.
Qed.

Lemma bulletEnemyCollisions_enemies_length (Math_sqrt : Q -> Q) (w : World) :
  (length (enemies (bulletEnemyCollisions Math_sqrt w))
   <= length (enemies w))%nat.
Proof.
  unfold bulletEnemyCollisions.
  apply (loopDown_invariant
           (fun a => (length (enemies a) <= length (enemies w))%nat));
    [| lia].
  intros i a Ha.
  destruct (bulletStep_account Math_sqrt i a) as [_ H]. lia.
Qed.

Lemma playerEnemyCollisions_enemies_length (w : World) :
  (length (enemies (playerEnemyCollisions w)) <= length (enemies w))%nat.
Proof.
  unfold playerEnemyCollisions.
  apply (loopDown_invariant
           (fun a => (length (enemies a) <= length (enemies w))%nat));
    [| lia].
  intros i a Ha. unfold playerStep.
  destruct (enemies a !! i) as [e |] eqn:He; [| exact Ha].
  destruct (enemyHitsPlayer e (player a)); [| exact Ha].
  assert (Hdel : (length (delete i (enemies a)) <= length (enemies w))%nat).
  { rewrite length_delete by (eexists; exact He). lia. }
  destruct (Player.invincible (player a) && Player.shieldActive (player a));
    [exact Hdel |].
  cbv zeta. set (a2 := updateLives (-1) _).
  assert (H2 : (length (enemies a2) <= length (enemies w))%nat)
    by exact Hdel.
  clearbody a2.
  destruct (lives a2 <=? 0); [| exact H2].
  unfold gameOver.
  destruct (GameStateManager.isReady (gameStateManager a2));
    [| exact H2].
  pose proof (setState_enemies_length "GameOverState" a2). lia.
Qed.

(** X23.  [spawnEnemy()] adds an enemy only when more than the current
    interval has passed since the last spawn; it then appends exactly one
    enemy, at [y = -30], and records the time, so that a second call
    within the new interval does nothing.  A whole frame therefore adds at
    most one enemy. *)
Theorem frame_adds_at_most_one_enemy
    (Math_sqrt Math_sin Math_cos : Q -> Q) (inp : FrameInput)
    (now now2 : Z) (r1 r2 r3 q1 q2 q3 : Q) (w : World) :
  let w1 := spawnEnemy now r1 r2 r3 w in
  (if enemySpawnRate w <? now - lastEnemySpawn w
   then (exists e, enemies w1 = (enemies w ++ [e])%list /\
                   Enemy.y e = (-30)%Q /\
                   Enemy.currentHealth e = Enemy.maxHealth e) /\
        lastEnemySpawn w1 = now /\
        (now2 - now <= enemySpawnRate w1 ->
         spawnEnemy now2 q1 q2 q3 w1 = w1)
   else w1 = w) /\
  (length (enemies (GameState_update Math_sqrt Math_sin Math_cos inp w))
   <= length (enemies w) + 1)%nat.
Proof.
  intros w1. split.
  - destruct (enemySpawnRate w <? now - lastEnemySpawn w) eqn:Hc;
      [| subst w1; unfold spawnEnemy; rewrite Hc; reflexivity].
    assert (H1 : exists e,
               enemies w1 = (enemies w ++ [e])%list /\
               Enemy.y e = (-30)%Q /\
               Enemy.currentHealth e = Enemy.maxHealth e /\
               lastEnemySpawn w1 = now).
    { subst w1. unfold spawnEnemy. rewrite Hc. cbv zeta.
      eexists (Enemy.new _ r1 r2 r3).
      destruct (GAME_CONFIG.MIN_ENEMY_SPAWN_RATE <? _); repeat split. }
    clearbody w1. destruct H1 as (e & He & Hy & Hh & Hl).
    split; [exists e; tauto |]. split; [exact Hl |].
    intros Hsoon. unfold spawnEnemy. rewrite Hl.
    destruct (Z.ltb_spec (enemySpawnRate w1) (now2 - now)); [lia |].
    reflexivity.
  - unfold GameState_update.
    destruct (negb (gameRunning w)); [lia |]. cbv zeta.
    pose proof (GameState_handleInput_enemies_length Math_sin Math_cos
                  (nowShoot inp) w) as H1.
    set (x1 := GameState_handleInput _ _ _ w) in *. clearbody x1.
    assert (H2 : (length (enemies (spawnEnemy (nowSpawn inp) (randomX inp)
                                     (randomSpeed inp) (randomHealth inp) x1))
                  <= length (enemies x1) + 1)%nat).
    { unfold spawnEnemy.
      destruct (enemySpawnRate x1 <? nowSpawn inp - lastEnemySpawn x1);
        [| lia].
      cbv zeta. destruct (GAME_CONFIG.MIN_ENEMY_SPAWN_RATE <? _);
        cbn [enemies set_enemySpawnRate set_lastEnemySpawn set_enemies];
        rewrite length_app; simpl; lia. }
    set (x2 := spawnEnemy _ _ _ _ x1) in *. clearbody x2.
    pose proof (updateBullets_enemies x2) as H3.
    set (x3 := updateBullets x2) in *. clearbody x3.
    pose proof (updateEnemies_enemies_length x3) as H4.
    set (x4 := updateEnemies x3) in *. clearbody x4.
    set (x5 := if powerUpManagerInitialized x4 then _ else x4).
    assert (H5 : enemies x5 = enemies x4).
    { subst x5. destruct (powerUpManagerInitialized x4); [| reflexivity].
      apply (PowerUpManager_updatePowerUps_sameSession (nowPowerUps inp) x4). }
    clearbody x5. unfold checkCollisions.
    pose proof (bulletEnemyCollisions_enemies_length Math_sqrt x5) as H6.
    set (x6 := bulletEnemyCollisions Math_sqrt x5) in *. clearbody x6.
    pose proof (playerEnemyCollisions_enemies_length x6) as H7.
    set (x7 := playerEnemyCollisions x6) in *. clearbody x7.
    assert (H8 : enemies (checkPowerUpCollisions (collected inp) x7)
                 = enemies x7)
      by apply (checkPowerUpCollisions_sameSession (collected inp) x7).
    set (x8 := checkPowerUpCollisions _ x7) in *. clearbody x8.
    pose proof (setState_enemies_length "GameOverState" x8) as H9.
    apply (f_equal length) in H3, H5, H8.
    destruct (lives x8 <=? 0); lia.
Qed.


(** ** Themes *)

Lemma JSMap_get_set_ne {V : Type} (m : JSMap.t V) (k k' : string) (v : V) :
  k <> k' -> JSMap.get (JSMap.set m k v) k' = JSMap.get m k'.
Proof.
  intros Hne. unfold JSMap.get.
  induction m as [| [k0 v0] m IH]; simpl.
  - destruct (String.eqb_spec k k'); [contradiction | reflexivity].
  - destruct (String.eqb_spec k0 k) as [-> | Hk0]; simpl.
    + destruct (String.eqb_spec k k'); [contradiction | reflexivity].
    + destruct (String.eqb k0 k'); [reflexivity | exact IH].
Qed.

Lemma theme_lookup (themeName : string) (theme : Theme.t) :
  In (themeName, theme) THEMES ->
  THEME_CONFIGS themeName = OwnTheme theme /\
  string_truthy themeName = true.
Proof.
  unfold THEMES. simpl. intros H.
  repeat (destruct H as [H | H]; [inversion H; subst; clear H |]);
    try contradiction; split; reflexivity.
Qed.

Lemma loadTheme_cacheFaithful (m : ThemeManager.t) (themeName : string) :
  cacheFaithful m -> cacheFaithful (fst (ThemeManager.loadTheme m themeName)).
Proof.
  intros Hc. unfold ThemeManager.loadTheme.
  destruct (negb (string_truthy themeName)); [exact Hc |].
  destruct (THEME_CONFIGS themeName) as [theme | property |] eqn:Hcfg;
    try exact Hc;
    unfold cacheFaithful; cbn [fst ThemeManager.themeCache];
    (destruct (JSMap.has (ThemeManager.themeCache m) themeName);
     [exact Hc |]);
    intros key object;
    (destruct (String.eqb_spec themeName key) as [<- | Hne];
     [rewrite JSMap_get_set_eq, Hcfg; intros [= <-]; reflexivity
     | rewrite JSMap_get_set_ne by exact Hne; apply Hc]).
Qed.

Lemma loadTheme_known (m : ThemeManager.t) (themeName : string)
    (theme : Theme.t) :
  In (themeName, theme) THEMES -> cacheFaithful m ->
  let r := ThemeManager.loadTheme m themeName in
  snd r = true /\
  ThemeManager.currentTheme (fst r) = Some (ThemeCopy theme) /\
  ThemeManager.selectedSpaceship (fst r) = ThemeManager.selectedSpaceship m /\
  ThemeManager.initialized (fst r) = ThemeManager.initialized m /\
  JSMap.has (ThemeManager.themeCache (fst r)) themeName = true.
Proof.
  intros Hin Hc. destruct (theme_lookup themeName theme Hin) as [Hcfg Ht].
  unfold ThemeManager.loadTheme. rewrite Ht, Hcfg. cbn [negb fst snd].
  cbn [ThemeManager.currentTheme ThemeManager.selectedSpaceship
       ThemeManager.initialized ThemeManager.themeCache].
  destruct (JSMap.has (ThemeManager.themeCache m) themeName) eqn:Hhas.
  - repeat split; try exact Hhas.
    unfold JSMap.has in Hhas.
    destruct (JSMap.get (ThemeManager.themeCache m) themeName)
      as [object |] eqn:Hget; [| discriminate].
    rewrite (Hc themeName object Hget), Hcfg. reflexivity.
  - rewrite JSMap_get_set_eq, JSMap_has_set, String.eqb_refl.
    repeat split.
Qed.

(** X24.  [loadTheme] accepts the three themes: it returns [true], makes
    the theme current, caches it under its name and keeps the selected
    spaceship as it was, even if it belongs to another theme; loading the
    theme again changes nothing.  A name for which [THEME_CONFIGS] has no
    property, the empty name included, is refused and leaves the manager
    unchanged. *)
Theorem loadTheme_loads_the_three_themes
    (m : ThemeManager.t) (themeName : string) (theme : Theme.t) :
  In (themeName, theme) THEMES -> cacheFaithful m ->
  let r := ThemeManager.loadTheme m themeName in
  snd r = true /\
  ThemeManager.currentTheme (fst r) = Some (ThemeCopy theme) /\
  ThemeManager.selectedSpaceship (fst r) = ThemeManager.selectedSpaceship m /\
  JSMap.get (ThemeManager.themeCache (fst r)) themeName
    = Some (ThemeCopy theme) /\
  cacheFaithful (fst r) /\
  ThemeManager.loadTheme (fst r) themeName = r /\
  (forall other, THEME_CONFIGS other = UndefinedTheme ->
     ThemeManager.loadTheme m other = (m, false)).
Proof.
  intros Hin Hc r.
  destruct (loadTheme_known m themeName theme Hin Hc)
    as (Hok & Hcur & Hsel & Hinit & Hhas).
  fold r in Hok, Hcur, Hsel, Hinit, Hhas.
  pose proof (loadTheme_cacheFaithful m themeName Hc) as Hc'. fold r in Hc'.
  destruct (theme_lookup themeName theme Hin) as [Hcfg Ht].
  assert (Hget : JSMap.get (ThemeManager.themeCache (fst r)) themeName
                 = Some (ThemeCopy theme)).
  { unfold JSMap.has in Hhas.
    destruct (JSMap.get (ThemeManager.themeCache (fst r)) themeName)
      as [object |] eqn:Hget; [| discriminate].
    rewrite (Hc' themeName object Hget), Hcfg. reflexivity. }
  split; [exact Hok |]. split; [exact Hcur |]. split; [exact Hsel |].
  split; [exact Hget |]. split; [exact Hc' |]. split.
  - unfold ThemeManager.loadTheme at 1. rewrite Ht, Hcfg, Hhas, Hget.
    cbn [negb]. rewrite <- Hcur.
    destruct r as [[cur sel cache init] ok]. cbn in *. subst ok.
    reflexivity.
  - intros other Hother. unfold ThemeManager.loadTheme. rewrite Hother.
    destruct (negb (string_truthy other)); reflexivity.
Qed.

Lemma loadTheme_loads_the_three_themes_witness :
  let m := ThemeManager.new in
  ThemeManager.currentTheme (fst (ThemeManager.loadTheme m "godzilla"))
    = Some (ThemeCopy GODZILLA) /\
  ThemeManager.loadTheme m "kamen" = (m, false) /\
  ThemeManager.loadTheme m "" = (m, false).
Proof.
  destruct (loadTheme_loads_the_three_themes ThemeManager.new
              "godzilla" GODZILLA) as (_ & Hcur & _ & _ & _ & _ & Hno).
  - unfold THEMES. simpl. tauto.
  - intros key object H. discriminate H.
  - split; [exact Hcur |]. split; apply Hno; reflexivity.
Defined.

Lemma findShip_Some (ships : list Spaceship.t) (id : string)
    (ship : Spaceship.t) :
  findShip ships id = Some ship -> In ship ships /\ Spaceship.id ship = id.
Proof.
  unfold findShip. intros H. apply find_some in H.
  destruct H as [Hin Heq]. apply String.eqb_eq in Heq. tauto.
Qed.

Lemma findShip_someShip (ships : list Spaceship.t) (id : string) :
  someShip ships id = match findShip ships id with
                      | Some _ => true
                      | None => false
                      end.
Proof.
  unfold someShip, findShip. induction ships as [| ship ships IH]; simpl;
    [reflexivity |].
  destruct (String.eqb (Spaceship.id ship) id); [reflexivity | exact IH].
Qed.

(** X25.  [setSelectedSpaceship] returns [true] exactly if the current
    theme has a spaceship with the given id; it then selects that
    spaceship of the current theme and nothing else changes.  In every
    other case, with no theme loaded included, it returns [false] and
    leaves the manager unchanged. *)
Theorem setSelectedSpaceship_checks_the_current_theme
    (m : ThemeManager.t) (spaceshipId : string) :
  let r := ThemeManager.setSelectedSpaceship m spaceshipId in
  let available :=
    match ThemeManager.currentTheme m with
    | Some (ThemeCopy theme) => someShip (Theme.spaceships theme) spaceshipId
    | _ => false
    end in
  snd r = available /\
  (if snd r
   then exists ship,
          ThemeManager.selectedSpaceship (fst r) = Some ship /\
          Spaceship.id ship = spaceshipId /\
          In ship (ThemeManager.getSpaceshipOptions m None)
   else fst r = m) /\
  ThemeManager.currentTheme (fst r) = ThemeManager.currentTheme m /\
  ThemeManager.themeCache (fst r) = ThemeManager.themeCache m /\
  ThemeManager.initialized (fst r) = ThemeManager.initialized m.
Proof.
  intros r available. subst r available.
  unfold ThemeManager.setSelectedSpaceship, ThemeManager.getSpaceshipOptions.
  cbn [value_truthy].
  destruct (ThemeManager.currentTheme m) as [[theme |] |] eqn:Hcur;
    try (repeat split; first [reflexivity | exact Hcur]).
  rewrite findShip_someShip.
  destruct (findShip (Theme.spaceships theme) spaceshipId) as [ship |] eqn:Hf;
    cbn [fst snd];
    [| repeat split; first [reflexivity | exact Hcur]].
  apply findShip_Some in Hf.
  split; [reflexivity |].
  split; [| repeat split; first [reflexivity | exact Hcur]].
  exists ship. cbn [ThemeManager.selectedSpaceship]. tauto.
Qed.

(** ** The character selection *)

Lemma onCarousel_cases (s : CharacterSelect.t) :
  onCarousel s = true -> In s carouselStates.
Proof.
  destruct s as [index [themeName |] spaceship]; unfold onCarousel;
    cbn [CharacterSelect.selectedTheme CharacterSelect.currentThemeIndex
         CharacterSelect.selectedSpaceship]; [| discriminate].
  unfold THEMES. cbn [assoc].
  repeat (match goal with
          | |- context [if String.eqb ?k themeName then _ else _] =>
              destruct (String.eqb_spec k themeName) as [<- | ?]
          end); try discriminate;
    intros H; apply andb_true_iff in H; destruct H as [Hi Hs];
    apply Z.eqb_eq in Hi; subst index;
    (destruct spaceship as [shipId |];
     [unfold someShip in Hs; cbn [existsb Theme.spaceships MASKED_RIDER
                                  ULTRAMAN GODZILLA Spaceship.id] in Hs;
      repeat (match type of Hs with
              | context [String.eqb ?k ?x] =>
                  is_var x;
                  destruct (String.eqb_spec k x) as [Heq | ?]; [subst x |]
              end);
      try discriminate |]);
    vm_compute; repeat (first [left; reflexivity | right]).
Qed.



Lemma enter_game (w : World) :
  registered w ->
  let w' := fst (setState "GameState" w) in
  inGame w' = true /\ score w' = 0 /\ lives w' = 3 /\
  gameRunning w' = true /\ bullets w' = [] /\ enemies w' = [].
Proof.
  intros Hreg w'. subst w'.
  rewrite (setState_registered "GameState" GameState 2 w Hreg)
    by reflexivity.
  cbn [fst enterState].
  set (w1 := match currentClass w with
             | Some old => exitState old w
             | None => w
             end). clearbody w1.
  set (w2 := set_currentState _ w1).
  destruct (GameState_enter_session w2)
    as (Hrun & Hsc & Hli & Hbu & Hen & _).
  pose proof (GameState_enter_manager w2) as Hman.
  unfold inGame, currentClass. rewrite Hman.
  repeat (split; [first [assumption | reflexivity] |]). exact Hen.
Qed.

(** X27.  Confirming a selection made on the carousel always succeeds:
    the theme manager ends with the selected theme as its current theme
    and with the selected spaceship, which is one of that theme, and the
    game is entered with score 0 and 3 lives.  Without a selected
    spaceship, [confirmSelection()] changes nothing. *)
Theorem confirmed_selection_starts_the_game
    (s : CharacterSelect.t) (m : ThemeManager.t) (w : World) :
  onCarousel s = true -> cacheFaithful m -> registered w ->
  let r := confirmSelection s m w in
  match CharacterSelect.selectedSpaceship s with
  | None => r = (m, w)
  | Some id =>
      exists theme ship,
        themeConfigOf (CharacterSelect.selectedTheme s) = OwnTheme theme /\
        ThemeManager.currentTheme (fst r) = Some (ThemeCopy theme) /\
        ThemeManager.selectedSpaceship (fst r) = Some ship /\
        In ship (Theme.spaceships theme) /\ Spaceship.id ship = id /\
        inGame (snd r) = true /\ score (snd r) = 0 /\ lives (snd r) = 3 /\
        gameRunning (snd r) = true
  end.
Proof.
  intros H Hc Hreg. apply onCarousel_cases in H.
  destruct (enter_game w Hreg) as (Hin & Hsc & Hli & Hrun & _).
  assert (Hload : forall themeName theme id ship,
             In (themeName, theme) THEMES ->
             findShip (Theme.spaceships theme) id = Some ship ->
             let m1 := fst (ThemeManager.loadTheme m themeName) in
             let m2 := fst (ThemeManager.setSelectedSpaceship m1 id) in
             ThemeManager.currentTheme m2 = Some (ThemeCopy theme) /\
             ThemeManager.selectedSpaceship m2 = Some ship).
  { intros themeName theme id ship Hth Hfind m1 m2.
    destruct (loadTheme_known m themeName theme Hth Hc) as (_ & Hcur & _).
    fold m1 in Hcur. subst m2. unfold ThemeManager.setSelectedSpaceship.
    rewrite Hcur, Hfind. split; reflexivity. }
  vm_compute in H.
  repeat (destruct H as [<- | H]; [| try contradiction]);
    cbv zeta;
    cbn [CharacterSelect.selectedSpaceship CharacterSelect.selectedTheme
         confirmSelection themeConfigOf];
    try reflexivity;
    match goal with
    | |- exists theme ship, THEME_CONFIGS ?n = _ /\ _ =>
        match eval vm_compute in (THEME_CONFIGS n) with
        | OwnTheme ?t =>
            match goal with
            | |- context [Spaceship.id _ = ?id] =>
                match eval vm_compute in (findShip (Theme.spaceships t) id)
                with
                | Some ?sh =>
                    exists t, sh;
                    destruct (Hload n t id sh) as [Hcur Hsel];
                    [vm_compute; tauto | reflexivity |];
                    change (string_truthy n && string_truthy id) with true;
                    cbn [fst snd];
                    split; [reflexivity |]; split; [exact Hcur |];
                    split; [exact Hsel |];
                    split; [vm_compute; tauto |];
                    split; [reflexivity |]; tauto
                end
            end
        end
    end.
Qed.

Lemma confirmed_selection_starts_the_game_witness :
  let s := CharacterSelect.selectSpaceship
             (CharacterSelect.nextTheme CharacterSelect.new)
             (Some "ultra-3") in
  let r := confirmSelection s ThemeManager.new
                            (loadedWorld (Canvas.mk 800 600)) in
  ThemeManager.currentTheme (fst r) = Some (ThemeCopy ULTRAMAN) /\
  option_map Spaceship.name (ThemeManager.selectedSpaceship (fst r))
    = Some "Ultra Striker" /\
  inGame (snd r) = true.
Proof.
  pose proof (confirmed_selection_starts_the_game
                (CharacterSelect.selectSpaceship
                   (CharacterSelect.nextTheme CharacterSelect.new)
                   (Some "ultra-3"))
                ThemeManager.new
                (loadedWorld (Canvas.mk 800 600))) as H.
  cbv zeta in H.
  destruct H as (theme & ship & Hcfg & Hcur & Hsel & _ & _ & Hin & _).
  - reflexivity.
  - intros key object H. discriminate H.
  - reflexivity.
  - injection Hcfg as <-.
    split; [exact Hcur |]. split; [vm_compute; reflexivity | exact Hin].
Defined.
